(** * mymemory.c: a first-fit allocator over an sbrk-grown heap

    Shallow embedding of [mymemory.c] and the properties of its
    specification.  The C program keeps its whole state in five globals and
    in headers embedded in the heap; here the globals are the fields of a
    record, the heap is a store of headers indexed by address, and every C
    function is a state-passing function with the name it has in the
    source.

    Data layout is that of an LP64 target (x86-64 Linux with glibc):
    [unsigned int] and [int] are 32 bits wide, pointers are 64 bits wide,
    [sizeof(header)] is 16 and [sizeof(free_list)] is 48 (one pointer and a
    40-byte [pthread_mutex_t]).  Arithmetic on [unsigned int] wraps modulo
    2^32 and the wrap is written out with [uint]; addresses are integers
    (pointer arithmetic that leaves the address space is undefined in C
    and is not modelled). *)

From Stdlib Require Import ZArith List Bool Lia.
Import ListNotations.
Local Open Scope Z_scope.

(** ** Constants of the source and of the target *)

Definition BYTE_BOUNDARY : Z := 8.
Definition PAGE_SIZE : Z := 4096.
Definition sizeof_header : Z := 16.
Definition sizeof_free_list : Z := 48.
Definition NULL : Z := 0.

(** The pointer obtained by casting -1: the failure result of [sbrk] and the
    value [used_head] is given by [mymalloc_init]. *)
Definition MINUS_ONE_PTR : Z := 2 ^ 64 - 1.

(** Conversion to [unsigned int] and to [int]. *)
Definition uint (z : Z) : Z := z mod 2 ^ 32.
Definition sint (z : Z) : Z := (z + 2 ^ 31) mod 2 ^ 32 - 2 ^ 31.

Arguments uint : simpl never.
Arguments sint : simpl never.

(** ** The heap and the globals *)

Record header : Type := mkHeader { size : Z; next : Z }.

Definition memory : Type := Z -> header.

Definition store (a : Z) (h : header) (m : memory) : memory :=
  fun x => if x =? a then h else m x.

(** [head] is the field [head_list->head]; the mutex next to it carries no
    data.  The other fields are the globals of the file. *)
Record state : Type := mkState {
  mem : memory;
  head : Z;
  head_list : Z;
  used_head : Z;
  expansion_counter : Z;
  heap_size : Z;
  heap_head : Z
}.

Definition set_mem (m : memory) (st : state) : state :=
  mkState m (head st) (head_list st) (used_head st)
          (expansion_counter st) (heap_size st) (heap_head st).

Definition set_head (v : Z) (st : state) : state :=
  mkState (mem st) v (head_list st) (used_head st)
          (expansion_counter st) (heap_size st) (heap_head st).

Definition set_head_list (v : Z) (st : state) : state :=
  mkState (mem st) (head st) v (used_head st)
          (expansion_counter st) (heap_size st) (heap_head st).

Definition set_used_head (v : Z) (st : state) : state :=
  mkState (mem st) (head st) (head_list st) v
          (expansion_counter st) (heap_size st) (heap_head st).

Definition set_expansion_counter (v : Z) (st : state) : state :=
  mkState (mem st) (head st) (head_list st) (used_head st)
          v (heap_size st) (heap_head st).

Definition set_heap_size (v : Z) (st : state) : state :=
  mkState (mem st) (head st) (head_list st) (used_head st)
          (expansion_counter st) v (heap_head st).

Definition set_heap_head (v : Z) (st : state) : state :=
  mkState (mem st) (head st) (head_list st) (used_head st)
          (expansion_counter st) (heap_size st) v.

(** [p->size = v] and [p->next = v]. *)
Definition set_size (p v : Z) (st : state) : state :=
  set_mem (store p (mkHeader v (next (mem st p))) (mem st)) st.

Definition set_next (p v : Z) (st : state) : state :=
  set_mem (store p (mkHeader (size (mem st p)) v) (mem st)) st.

(** The globals before [mymalloc_init] runs: zero-initialised. *)
Definition boot : state :=
  mkState (fun _ => mkHeader 0 0) 0 0 0 0 0 0.

(** ** The operating system

    [sbrk] is the only primitive the allocator asks memory from.  The
    operating system is its current break and the answers it will give to
    the coming calls, [true] for a grant; once the answers are used up
    every call is refused.  A grant returns the old break and moves the
    break up by the increment. *)

Record os : Type := mkOs { brk : Z; grants : list bool }.

Definition sbrk (increment : Z) (o : os) : Z * os :=
  match grants o with
  | true :: g => (brk o, mkOs (brk o + increment) g)
  | false :: g => (MINUS_ONE_PTR, mkOs (brk o) g)
  | [] => (MINUS_ONE_PTR, o)
  end.

(** ** mymalloc_init *)

Definition mymalloc_init (st : state) (o : os) : Z * state * os :=
  let '(p, o1) := sbrk PAGE_SIZE o in
  let st := set_heap_head p st in
  let st := set_head_list (heap_head st) st in
  if heap_head st =? MINUS_ONE_PTR then (1, st, o1)
  else
    let st := set_head (heap_head st + sizeof_free_list) st in
    let st := set_expansion_counter 1 st in
    let st := set_used_head MINUS_ONE_PTR st in
    let st := set_heap_size PAGE_SIZE st in
    let st := set_size (head st)
                (uint (PAGE_SIZE - sizeof_header - sizeof_free_list)) st in
    let st := set_next (head st) NULL st in
    (0, st, o1).

(** ** List operations

    The loops of the source follow [next] pointers through the heap and
    are bounded here by a fuel; [None] is the absence of a result: the fuel
    ran out, or the loop stepped onto the null pointer and would have
    dereferenced it. *)

(** [coalescing]: merge [parent] with its successor when they touch. *)
Definition coalescing (parent : Z) (st : state) : state :=
  if parent + size (mem st parent) + sizeof_header =? next (mem st parent)
  then
    let st :=
      set_size parent
        (uint (size (mem st parent)
               + (size (mem st (next (mem st parent))) + sizeof_header))) st in
    set_next parent (next (mem st (next (mem st parent)))) st
  else st.

(** The [for] loop of [insert_free_space]: the last node whose successor is
    null or not below [old_space]. *)
Fixpoint insert_scan (fuel : nat) (temp_head old_space : Z) (st : state)
  : option Z :=
  match fuel with
  | O => None
  | S f =>
      if temp_head =? NULL then None
      else
        let n := next (mem st temp_head) in
        if negb (n =? NULL) && (n <? old_space)
        then insert_scan f n old_space st
        else Some temp_head
  end.

Definition insert_free_space (fuel : nat) (old_space : Z) (st : state)
  : option state :=
  if old_space <? head st then
    let st := set_next old_space (head st) st in
    let st := set_head old_space st in
    Some (coalescing (head st) st)
  else
    match insert_scan fuel (head st) old_space st with
    | None => None
    | Some temp_head =>
        let st :=
          if negb (next (mem st temp_head) =? NULL)
          then set_next old_space (next (mem st temp_head)) st
          else st in
        let st := set_next temp_head old_space st in
        let st := coalescing (next (mem st temp_head)) st in
        Some (coalescing temp_head st)
    end.

(** [find_free_space]: the sum [size + sizeof(header)] is formed in
    [size_t], 64 bits wide, and cannot wrap for a 32-bit [size]. *)
Fixpoint find_free_space_from (fuel : nat) (temp_head sz : Z) (st : state)
  : option Z :=
  match fuel with
  | O => None
  | S f =>
      if temp_head =? NULL then Some NULL
      else if sz + sizeof_header <=? size (mem st temp_head)
           then Some temp_head
           else find_free_space_from f (next (mem st temp_head)) sz st
  end.

Definition find_free_space (fuel : nat) (sz : Z) (st : state) : option Z :=
  find_free_space_from fuel (head st) sz st.

(** The [for] loop of [shrink_free]: the node whose successor is
    [free_space]. *)
Fixpoint parent_scan (fuel : nat) (temp_head free_space : Z) (st : state)
  : option Z :=
  match fuel with
  | O => None
  | S f =>
      if temp_head =? NULL then None
      else if next (mem st temp_head) =? free_space then Some temp_head
           else parent_scan f (next (mem st temp_head)) free_space st
  end.

Definition shrink_free (fuel : nat) (free_space sz : Z) (st : state)
  : option (Z * state) :=
  if head st =? free_space then
    let new_block := head st in
    let st := set_head (head st + sz + sizeof_header) st in
    let st := set_size (head st)
                (uint (size (mem st new_block) - sz - sizeof_header)) st in
    let st := set_next (head st) (next (mem st new_block)) st in
    let st := set_size new_block sz st in
    let st := set_next new_block (used_head st) st in
    Some (new_block, st)
  else
    match parent_scan fuel (head st) free_space st with
    | None => None
    | Some temp_head =>
        let new_block := next (mem st temp_head) in
        let st := set_next temp_head
                    (next (mem st temp_head) + sz + sizeof_header) st in
        let st := set_size (next (mem st temp_head))
                    (uint (size (mem st new_block) - sz - sizeof_header)) st in
        let st := set_next (next (mem st temp_head))
                    (next (mem st new_block)) st in
        let st := set_size new_block sz st in
        let st := set_next new_block (used_head st) st in
        Some (new_block, st)
    end.

(** The [while] loop of [expand_heap]: the last node of the list. *)
Fixpoint tail_scan (fuel : nat) (temp_head : Z) (st : state) : option Z :=
  match fuel with
  | O => None
  | S f =>
      if temp_head =? NULL then None
      else if next (mem st temp_head) =? NULL then Some temp_head
           else tail_scan f (next (mem st temp_head)) st
  end.

(** [expand_heap]: the counter is read and incremented in the expression
    that computes the request, before [sbrk] is called. *)
Definition expand_heap (fuel : nat) (st : state) (o : os)
  : option (Z * state * os) :=
  let sz := uint (PAGE_SIZE * expansion_counter st) in
  let st := set_expansion_counter (sint (expansion_counter st + 1)) st in
  let '(p, o1) := sbrk sz o in
  if p =? MINUS_ONE_PTR then Some (0, st, o1)
  else
    match tail_scan fuel (head st) st with
    | None => None
    | Some temp_head =>
        let st := set_size temp_head (uint (size (mem st temp_head) + sz)) st in
        let st := set_heap_size (uint (heap_size st + sz)) st in
        Some (sint sz, st, o1)
    end.

(** ** mymalloc and myfree *)

Definition round_up (sz : Z) : Z :=
  if negb (sz mod BYTE_BOUNDARY =? 0)
  then uint (sz + BYTE_BOUNDARY - sz mod BYTE_BOUNDARY)
  else sz.

(** The [while(1)] loop of [mymalloc]. *)
Fixpoint mymalloc_loop (fuel : nat) (sz : Z) (st : state) (o : os)
  : option (Z * state * os) :=
  match fuel with
  | O => None
  | S f =>
      match find_free_space fuel sz st with
      | None => None
      | Some found_block =>
          if negb (found_block =? NULL) then
            match shrink_free fuel found_block sz st with
            | None => None
            | Some (new_block, st) => Some (new_block + sizeof_header, st, o)
            end
          else
            match expand_heap fuel st o with
            | None => None
            | Some (r, st, o) =>
                if r =? 0 then Some (NULL, st, o)
                else mymalloc_loop f sz st o
            end
      end
  end.

Definition mymalloc (fuel : nat) (sz : Z) (st : state) (o : os)
  : option (Z * state * os) :=
  if sz =? 0 then Some (NULL, st, o)
  else mymalloc_loop fuel (round_up sz) st o.

(** [myfree].  The marker test reads the link of the header 16 bytes in
    front of [ptr], the 8 bytes from [ptr - 8] on.  The store is total;
    for [ptr] in [heap_head, heap_head + 8) these bytes lie below
    [heap_head], outside what [sbrk] returned, and what the store holds
    there stands for nothing the C program is sure to read. *)
Definition myfree (fuel : nat) (ptr : Z) (st : state) : option (Z * state) :=
  if (ptr <? heap_head st) || (ptr >? heap_head st + heap_size st - 8)
  then Some (1, st)
  else
    let old_head := ptr - sizeof_header in
    if negb (next (mem st old_head) =? used_head st) then Some (1, st)
    else
      match insert_free_space fuel old_head st with
      | None => None
      | Some st => Some (0, st)
      end.

(** ** Blocks, in address order

    The heap has no index of its blocks: a block is found from the one
    before it, at [address + sizeof(header) + size].  A list of blocks
    describes the heap from a start address on: the sizes give the
    addresses, and [bfree] tells whether the block is on the free list. *)

Record block : Type := mkBlock { bsize : Z; bfree : bool }.

Definition after (a : Z) (b : block) : Z := a + sizeof_header + bsize b.

Arguments after : simpl never.

Fixpoint end_addr (a : Z) (bs : list block) : Z :=
  match bs with
  | [] => a
  | b :: bs' => end_addr (after a b) bs'
  end.

(** Address of the first free block of [bs], or [nf] when there is none. *)
Fixpoint first_free (a : Z) (bs : list block) (nf : Z) : Z :=
  match bs with
  | [] => nf
  | b :: bs' => if bfree b then a else first_free (after a b) bs' nf
  end.

Fixpoint free_addrs (a : Z) (bs : list block) : list Z :=
  match bs with
  | [] => []
  | b :: bs' =>
      (if bfree b then [a] else []) ++ free_addrs (after a b) bs'
  end.

Fixpoint used_addrs (a : Z) (bs : list block) : list Z :=
  match bs with
  | [] => []
  | b :: bs' =>
      (if bfree b then [] else [a]) ++ used_addrs (after a b) bs'
  end.

(** The store holds the blocks [bs] from address [a] on: each header has
    the size of its block; the link of a used block is the in-use marker,
    the link of a free block is the next free block, and [nf] after the
    last one. *)
Fixpoint repr (m : memory) (used : Z) (a : Z) (bs : list block) (nf : Z)
  : Prop :=
  match bs with
  | [] => True
  | b :: bs' =>
      size (m a) = bsize b /\ 0 <= bsize b /\
      next (m a) = (if bfree b then first_free (after a b) bs' nf else used) /\
      repr m used (after a b) bs' nf
  end.

(** Whether the last block is free. *)
Fixpoint ends_free (bs : list block) : bool :=
  match bs with
  | [] => false
  | b :: bs' => match bs' with [] => bfree b | _ => ends_free bs' end
  end.

(** A free block of [bs] spans the addresses from [lo] to [hi]. *)
Fixpoint covers (a : Z) (bs : list block) (lo hi : Z) : Prop :=
  match bs with
  | [] => False
  | b :: bs' =>
      (bfree b = true /\ a <= lo /\ hi <= after a b)
      \/ covers (after a b) bs' lo hi
  end.

(** A linked list in the store: from [p] through the nodes [l] to [q]. *)
Fixpoint chain (m : memory) (p : Z) (l : list Z) (q : Z) : Prop :=
  match l with
  | [] => p = q
  | a :: l' => p = a /\ a <> NULL /\ chain m (next (m a)) l' q
  end.

(** First block: the list descriptor sits in front of it. *)
Definition first_block (st : state) : Z := heap_head st + sizeof_free_list.

(** The sizes are multiples of the byte boundary. *)
Definition sizes_aligned (bs : list block) : Prop :=
  Forall (fun b => bsize b mod BYTE_BOUNDARY = 0) bs.

(** The heap of [st] is the blocks [bs]. *)
Record heap_ok (st : state) (bs : list block) : Prop := mkHeapOk {
  ok_repr : repr (mem st) (used_head st) (first_block st) bs NULL;
  ok_head : head st = first_free (first_block st) bs NULL;
  ok_end : end_addr (first_block st) bs = heap_head st + heap_size st;
  ok_last : ends_free bs = true;
  ok_used : used_head st = MINUS_ONE_PTR;
  ok_base : PAGE_SIZE <= heap_head st < 2 ^ 63;
  ok_size : heap_size st < 2 ^ 32
}.

(** Only the headers of used blocks carry the in-use marker. *)
Definition marks_ok (st : state) (bs : list block) : Prop :=
  forall x, next (mem st x) = used_head st ->
            In x (used_addrs (first_block st) bs).

(** The blocks walked from the first block to the end of the heap, as the
    store has them: address, size, and whether the link is the marker. *)
Fixpoint heap_blocks (fuel : nat) (a : Z) (st : state) : list (Z * Z * bool) :=
  match fuel with
  | O => []
  | S f =>
      if a <? heap_head st + heap_size st then
        (a, size (mem st a), next (mem st a) =? used_head st)
          :: heap_blocks f (a + sizeof_header + size (mem st a)) st
      else []
  end.

Definition all_blocks (st : state) : list (Z * Z * bool) :=
  heap_blocks (Z.to_nat (heap_size st)) (first_block st) st.

Definition allocated_bytes (l : list (Z * Z * bool)) : Z :=
  fold_right (fun (b : Z * Z * bool) acc =>
                (if snd b then snd (fst b) else 0) + acc) 0 l.

Definition free_bytes (l : list (Z * Z * bool)) : Z :=
  fold_right (fun (b : Z * Z * bool) acc =>
                (if snd b then 0 else snd (fst b)) + acc) 0 l.

Definition all_used (bs : list block) : Prop :=
  Forall (fun b => bfree b = false) bs.

(** The predecessor on the free list.  Two functions of the source look
    for the free block in front of a given address: [shrink_free] for the
    parent of the block it splits and [insert_free_space] for the node to
    insert after; both take another branch when there is none and the
    list head is concerned. *)
Fixpoint last_free_addr (a : Z) (bs : list block) : option Z :=
  match bs with
  | [] => None
  | b :: bs' =>
      match last_free_addr (after a b) bs' with
      | Some p => Some p
      | None => if bfree b then Some a else None
      end
  end.

(** The blocks as a walk from the first block finds them. *)
Fixpoint walk_of (a : Z) (bs : list block) : list (Z * Z * bool) :=
  match bs with
  | [] => []
  | b :: bs' => (a, bsize b, negb (bfree b)) :: walk_of (after a b) bs'
  end.

(** Addresses of the headers of a walk. *)
Definition header_addrs (l : list (Z * Z * bool)) : list Z :=
  map (fun b : Z * Z * bool => fst (fst b)) l.

(** Addresses of the blocks of a walk whose link is not the marker. *)
Definition unmarked (l : list (Z * Z * bool)) : list Z :=
  map (fun b : Z * Z * bool => fst (fst b))
      (filter (fun b : Z * Z * bool => negb (snd b)) l).

(** Whether a block is large enough for a request of [sz] bytes, the
    test of [find_free_space]; and the first node of a list that is. *)
Definition fits (st : state) (sz a : Z) : bool :=
  sz + sizeof_header <=? size (mem st a).

Definition first_fit (st : state) (sz : Z) (l : list Z) : Z :=
  match find (fits st sz) l with Some a => a | None => NULL end.

(** A request of [n] bytes can be served from the addresses [lo] to
    [hi]: a node of the free list spans them and passes the test of
    [find_free_space]. *)
Definition served_from (st : state) (lo hi n : Z) : Prop :=
  exists fl a,
    chain (mem st) (head st) fl NULL /\ In a fl /\
    a <= lo /\ hi <= a + sizeof_header + size (mem st a) /\
    fits st n a = true.

(** Every size field holds an [unsigned int]. *)
Definition sizes_bounded (st : state) : Prop :=
  forall x, 0 <= size (mem st x) < 2 ^ 32.

(** The globals that the list operations do not write. *)
Definition same_globals (st st' : state) : Prop :=
  used_head st' = used_head st /\
  expansion_counter st' = expansion_counter st /\
  heap_size st' = heap_size st /\
  heap_head st' = heap_head st /\
  head_list st' = head_list st.

(** ** The block list under the operations

    What the three operations that change the heap do to the list of
    blocks: [shrink_free] splits a free block into a used block and the
    free remainder, [expand_heap] adds to the last block, and
    [insert_free_space] makes a used block free and merges it, first
    with the free block behind it and then with the free block in front
    of it. *)

Definition starts_free (bs : list block) : bool :=
  match bs with
  | b :: _ => bfree b
  | [] => false
  end.

(** A free block of size [s] in front of [l2], once [coalescing] ran on
    it. *)
Definition merge_next (s : Z) (l2 : list block) : list block :=
  match l2 with
  | b :: lc =>
      if bfree b then mkBlock (s + (bsize b + sizeof_header)) true :: lc
      else mkBlock s true :: l2
  | [] => [mkBlock s true]
  end.

(** The blocks [l1] in front of [rest], once [coalescing] ran on the
    last free block of [l1]: it touches [rest] when it is the last block
    of [l1]. *)
Fixpoint merge_last (l1 rest : list block) : list block :=
  match l1 with
  | [] => rest
  | b :: l1' =>
      match l1' with
      | [] => if bfree b then merge_next (bsize b) rest else b :: rest
      | _ => b :: merge_last l1' rest
      end
  end.

Definition released (l1 : list block) (s : Z) (l2 : list block)
  : list block :=
  merge_last l1 (merge_next s l2).

Inductive blocks_step : list block -> list block -> Prop :=
| split_step l1 s l2 n :
    0 <= n -> n mod BYTE_BOUNDARY = 0 -> n + sizeof_header <= s ->
    blocks_step (l1 ++ mkBlock s true :: l2)
                (l1 ++ mkBlock n false
                    :: mkBlock (s - n - sizeof_header) true :: l2)
| release_step l1 s l2 :
    blocks_step (l1 ++ mkBlock s false :: l2) (released l1 s l2)
| grow_step l s n :
    0 <= n -> n mod BYTE_BOUNDARY = 0 ->
    blocks_step (l ++ [mkBlock s true]) (l ++ [mkBlock (s + n) true]).

Inductive blocks_run (bs : list block) : list block -> Prop :=
| blocks_here : blocks_run bs bs
| blocks_then bs1 bs2 :
    blocks_run bs bs1 -> blocks_step bs1 bs2 -> blocks_run bs bs2.

(** No two neighbours are free: in a list of blocks, and in a walk over
    the heap, where a block is free when its link is not the marker. *)
Fixpoint coalesced (bs : list block) : bool :=
  match bs with
  | [] => true
  | b :: bs' => negb (bfree b && starts_free bs') && coalesced bs'
  end.

Fixpoint no_free_neighbours (l : list (Z * Z * bool)) : bool :=
  match l with
  | [] => true
  | b :: l' =>
      match l' with
      | [] => true
      | b' :: _ => snd b || snd b'
      end && no_free_neighbours l'
  end.

(** No node of a list touches its successor: there is room for the
    header of a used block between them. *)
Fixpoint apart (m : memory) (l : list Z) : Prop :=
  match l with
  | [] => True
  | a :: l' =>
      match l' with
      | [] => True
      | a' :: _ => a + sizeof_header + size (m a) + sizeof_header <= a'
      end /\ apart m l'
  end.

(** ** Reachable states

    The invariant of the allocator: the heap is a sequence of blocks, the
    markers are where the used blocks are, and the heap ends at the
    break. *)
Definition inv (st : state) (o : os) (bs : list block) : Prop :=
  heap_ok st bs /\ marks_ok st bs /\ brk o = heap_head st + heap_size st.

(** The states of a run: [mymalloc_init] succeeds on zeroed globals, and
    then [mymalloc], [myfree] and [expand_heap] are called in any order
    with any arguments.  The break starts above the first page and in the
    lower half of the address space.  The stores that the client makes
    into its payloads are not part of a run. *)
Inductive step (st : state) (o : os) : state -> os -> Prop :=
| step_mymalloc fuel sz p st' o' :
    0 <= sz < 2 ^ 32 ->
    mymalloc fuel sz st o = Some (p, st', o') ->
    step st o st' o'
| step_myfree fuel ptr r st' :
    myfree fuel ptr st = Some (r, st') ->
    step st o st' o
| step_expand_heap fuel r st' o' :
    expand_heap fuel st o = Some (r, st', o') ->
    step st o st' o'.

Inductive reachable : state -> os -> Prop :=
| reach_init o st o' :
    PAGE_SIZE <= brk o < 2 ^ 63 ->
    mymalloc_init boot o = (0, st, o') ->
    reachable st o'
| reach_step st o st' o' :
    reachable st o -> step st o st' o' -> reachable st' o'.

(** A sequence of operations. *)
Inductive run (st : state) (o : os) : state -> os -> Prop :=
| run_here : run st o st o
| run_step st1 o1 st2 o2 :
    run st o st1 o1 -> step st1 o1 st2 o2 -> run st o st2 o2.

(** A run in which the pointer [p] is not freed. *)
Inductive kept (p : Z) (st : state) (o : os) : state -> os -> Prop :=
| kept_here : kept p st o st o
| kept_mymalloc st1 o1 fuel sz q st2 o2 :
    kept p st o st1 o1 -> 0 <= sz < 2 ^ 32 ->
    mymalloc fuel sz st1 o1 = Some (q, st2, o2) ->
    kept p st o st2 o2
| kept_myfree st1 o1 fuel ptr r st2 :
    kept p st o st1 o1 -> ptr <> p ->
    myfree fuel ptr st1 = Some (r, st2) ->
    kept p st o st2 o1
| kept_expand_heap st1 o1 fuel r st2 o2 :
    kept p st o st1 o1 ->
    expand_heap fuel st1 o1 = Some (r, st2, o2) ->
    kept p st o st2 o2.





(** ** The lock

    [mymalloc] and [myfree] are the two functions that take the mutex of
    the list descriptor.  Their events, in the order of the statements of
    the source: taking and releasing the lock, the reads that [myfree]
    makes itself, and the calls of the list operations, which read and
    write the list head, the headers, the heap size and the expansion
    counter.  The branches are those of [mymalloc_loop] and [myfree]. *)

Inductive callee : Type :=
| c_find_free_space | c_shrink_free | c_expand_heap | c_insert_free_space.

Inductive event : Type :=
| ev_lock
| ev_unlock
| ev_read_heap_size
| ev_read_link (p : Z)
| ev_call (f : callee).

Fixpoint mymalloc_loop_events (fuel : nat) (sz : Z) (st : state) (o : os)
  : list event :=
  match fuel with
  | O => []
  | S f =>
      ev_call c_find_free_space ::
      match find_free_space fuel sz st with
      | None => []
      | Some found_block =>
          if negb (found_block =? NULL)
          then [ev_call c_shrink_free; ev_unlock]
          else
            ev_call c_expand_heap ::
            match expand_heap fuel st o with
            | None => []
            | Some (r, st, o) =>
                if r =? 0 then [ev_unlock]
                else mymalloc_loop_events f sz st o
            end
      end
  end.

Definition mymalloc_events (fuel : nat) (sz : Z) (st : state) (o : os)
  : list event :=
  if sz =? 0 then []
  else ev_lock :: mymalloc_loop_events fuel (round_up sz) st o.

(** The disjunction of the bounds check is evaluated left to right. *)
Definition myfree_events (ptr : Z) (st : state) : list event :=
  if ptr <? heap_head st then []
  else
    ev_read_heap_size ::
    if ptr >? heap_head st + heap_size st - 8 then []
    else
      ev_read_link (ptr - sizeof_header) ::
      if negb (next (mem st (ptr - sizeof_header)) =? used_head st) then []
      else [ev_lock; ev_call c_insert_free_space; ev_unlock].

(** Every read and every call happens while the lock is held. *)
Fixpoint under_lock (held : bool) (t : list event) : bool :=
  match t with
  | [] => true
  | ev_lock :: t' => under_lock true t'
  | ev_unlock :: t' => under_lock false t'
  | _ :: t' => held && under_lock held t'
  end.

(** ** A concrete run

    The break is at 65536 when [mymalloc_init] is called; [demo_state] is
    the state it leaves, and [demo_os g] the operating system after it,
    with the answers [g] to come. *)

Definition demo_os (g : list bool) : os := mkOs 69632 g.

Definition demo_state : state :=
  snd (fst (mymalloc_init boot (mkOs 65536 [true]))).

Definition state_of (r : option (Z * state * os)) : state :=
  match r with Some (_, st, _) => st | None => boot end.

Definition freed_of (r : option (Z * state)) : state :=
  match r with Some (_, st) => st | None => boot end.



(** Two allocations of 16 bytes, then the first one freed. *)
Definition demo_one : state := state_of (mymalloc 2 16 demo_state (demo_os [])).
Definition demo_two : state := state_of (mymalloc 2 16 demo_one (demo_os [])).
Definition demo_freed : state := freed_of (myfree 2 65600 demo_two).
Definition demo_merged : state := freed_of (myfree 2 65632 demo_freed).

(** A request of 2^32 - 16 bytes, with one expansion granted and the
    next one refused. *)
Definition demo_huge : state :=
  state_of (mymalloc 3 4294967280 demo_state (demo_os [true; false])).

(** A request of 4000 bytes after one of 16, with the expansion
    refused. *)
Definition demo_refused : state :=
  state_of (mymalloc 2 4000 demo_one (demo_os [false])).


(** [demo_two] after its client has stored the bit pattern of the marker
    in the payload of the first block, in the bytes 65608 to 65615. *)
Definition demo_scribbled : state := set_next 65600 MINUS_ONE_PTR demo_two.

(** [demo_one] with its used block linked in as the list head, as
    [insert_free_space] has it before it calls [coalescing]. *)
Definition demo_spliced : state :=
  set_head 65584 (set_next 65584 (head demo_one) demo_one).

(** * Proofs *)

Ltac consts :=
  unfold after, first_block, sizeof_header, sizeof_free_list, PAGE_SIZE,
    BYTE_BOUNDARY, NULL, MINUS_ONE_PTR in *.

(** ** The store *)

Lemma store_same a h m : store a h m a = h.
Proof. unfold store. now rewrite Z.eqb_refl. Qed.

Lemma store_other a h m x : x <> a -> store a h m x = m x.
Proof. unfold store. intros H. apply Z.eqb_neq in H. now rewrite H. Qed.

Lemma uint_small z : 0 <= z < 2 ^ 32 -> uint z = z.
Proof. intros H. unfold uint. now apply Z.mod_small. Qed.

Lemma uint_range z : 0 <= uint z < 2 ^ 32.
Proof. unfold uint. apply Z.mod_pos_bound. lia. Qed.

(** ** Block lists *)

Lemma aligned_add a b :
  a mod BYTE_BOUNDARY = 0 -> b mod BYTE_BOUNDARY = 0 ->
  (a + b) mod BYTE_BOUNDARY = 0.
Proof.
  unfold BYTE_BOUNDARY. intros Ha Hb. rewrite Z.add_mod, Ha, Hb by lia.
  reflexivity.
Qed.

Lemma aligned_sub a b :
  a mod BYTE_BOUNDARY = 0 -> b mod BYTE_BOUNDARY = 0 ->
  (a - b) mod BYTE_BOUNDARY = 0.
Proof.
  unfold BYTE_BOUNDARY. intros Ha Hb. rewrite Zminus_mod, Ha, Hb.
  reflexivity.
Qed.

Lemma aligned_uint z : z mod BYTE_BOUNDARY = 0 -> uint z mod BYTE_BOUNDARY = 0.
Proof.
  unfold BYTE_BOUNDARY, uint. intros H.
  pose proof (Z.div_mod z (2 ^ 32) ltac:(lia)) as E1.
  pose proof (Z.div_mod z 8 ltac:(lia)) as E2.
  replace (z mod 2 ^ 32)
    with (0 + (z / 8 - 2 ^ 29 * (z / 2 ^ 32)) * 8) by lia.
  apply Z_mod_plus_full.
Qed.

Lemma aligned_page c : uint (PAGE_SIZE * c) mod BYTE_BOUNDARY = 0.
Proof.
  apply aligned_uint. unfold PAGE_SIZE, BYTE_BOUNDARY.
  replace (4096 * c) with (c * 512 * 8) by lia. apply Z_mod_mult.
Qed.

Lemma sizes_aligned_app l1 l2 :
  sizes_aligned (l1 ++ l2) <-> sizes_aligned l1 /\ sizes_aligned l2.
Proof. apply Forall_app. Qed.

Lemma sizes_aligned_cons b l :
  sizes_aligned (b :: l) <-> bsize b mod BYTE_BOUNDARY = 0 /\ sizes_aligned l.
Proof. apply Forall_cons_iff. Qed.

Lemma sizes_aligned_flag l1 s f1 f2 l2 :
  sizes_aligned (l1 ++ mkBlock s f1 :: l2) ->
  sizes_aligned (l1 ++ mkBlock s f2 :: l2).
Proof.
  intros H. apply sizes_aligned_app in H. destruct H as [H1 H].
  apply sizes_aligned_cons in H. destruct H as [Hs H2].
  apply sizes_aligned_app. split; auto. apply sizes_aligned_cons. auto.
Qed.

Lemma sizes_aligned_merge l1 s1 f1 s2 f2 f l2 :
  sizes_aligned (l1 ++ mkBlock s1 f1 :: mkBlock s2 f2 :: l2) ->
  sizes_aligned (l1 ++ mkBlock (s1 + (s2 + sizeof_header)) f :: l2).
Proof.
  intros H. apply sizes_aligned_app in H. destruct H as [H1 H].
  apply sizes_aligned_cons in H. destruct H as [Hs1 H].
  apply sizes_aligned_cons in H. destruct H as [Hs2 H2].
  apply sizes_aligned_app. split; auto. apply sizes_aligned_cons.
  split; auto. simpl in *. repeat apply aligned_add; auto.
Qed.

Lemma sizes_aligned_split l1 s f n f1 f2 l2 :
  n mod BYTE_BOUNDARY = 0 ->
  sizes_aligned (l1 ++ mkBlock s f :: l2) ->
  sizes_aligned (l1 ++ mkBlock n f1
                    :: mkBlock (s - n - sizeof_header) f2 :: l2).
Proof.
  intros Hn H. apply sizes_aligned_app in H. destruct H as [H1 H].
  apply sizes_aligned_cons in H. destruct H as [Hs H2].
  apply sizes_aligned_app. split; auto.
  apply sizes_aligned_cons. split; auto.
  apply sizes_aligned_cons. split; auto.
  simpl in *. repeat apply aligned_sub; auto.
Qed.

Lemma sizes_aligned_grow l s f n :
  n mod BYTE_BOUNDARY = 0 ->
  sizes_aligned (l ++ [mkBlock s f]) ->
  sizes_aligned (l ++ [mkBlock (s + n) f]).
Proof.
  intros Hn H. apply sizes_aligned_app in H. destruct H as [H1 H].
  apply sizes_aligned_cons in H. destruct H as [Hs _].
  apply sizes_aligned_app. split; auto.
  apply sizes_aligned_cons. split; [|constructor].
  simpl in *. apply aligned_add; auto.
Qed.

Lemma merge_last_all_used l1 rest :
  all_used l1 -> merge_last l1 rest = l1 ++ rest.
Proof.
  induction l1 as [|b l1 IH]; intros H; auto.
  inversion H as [|? ? Hb Hl]; subst. specialize (IH Hl).
  cbn [merge_last]. destruct l1 as [|b' l1'].
  - now rewrite Hb.
  - now rewrite IH.
Qed.

Lemma merge_last_free la sp lb rest :
  all_used lb ->
  merge_last (la ++ mkBlock sp true :: lb) rest
  = la ++ match lb with
          | [] => merge_next sp rest
          | _ => mkBlock sp true :: lb ++ rest
          end.
Proof.
  intros Hu. induction la as [|a la IH].
  - simpl. destruct lb as [|b lb']; auto.
    rewrite merge_last_all_used by exact Hu. reflexivity.
  - cbn [app merge_last]. rewrite IH.
    destruct (la ++ mkBlock sp true :: lb) eqn:E; [|reflexivity].
    destruct la; discriminate.
Qed.

Lemma merge_next_used s b l :
  bfree b = false -> merge_next s (b :: l) = mkBlock s true :: b :: l.
Proof. intros H. unfold merge_next. now rewrite H. Qed.

(** The two merges of [insert_free_space], seen from the last free block
    in front of the block that is freed. *)
Lemma released_after_free la sp lb s l2 :
  all_used lb ->
  released (la ++ mkBlock sp true :: lb) s l2
  = la ++ merge_next sp (lb ++ merge_next s l2).
Proof.
  intros Hu. unfold released. rewrite merge_last_free by exact Hu.
  destruct lb as [|b lb']; auto.
  inversion Hu as [|? ? Hb _]; subst.
  cbn [app]. rewrite merge_next_used by exact Hb. reflexivity.
Qed.

Lemma merge_next_shape s l2 :
  exists s' l', merge_next s l2 = mkBlock s' true :: l'.
Proof.
  unfold merge_next. destruct l2 as [|b l]; [eauto|].
  destruct (bfree b); eauto.
Qed.

Lemma sizes_aligned_merge_next s l2 :
  sizes_aligned (mkBlock s true :: l2) -> sizes_aligned (merge_next s l2).
Proof.
  unfold merge_next. destruct l2 as [|[s2 f] l]; auto.
  destruct f; simpl; auto.
  apply (sizes_aligned_merge [] s true s2 true true l).
Qed.

Lemma sizes_aligned_released l1 s l2 :
  sizes_aligned (l1 ++ mkBlock s false :: l2) ->
  sizes_aligned (released l1 s l2).
Proof.
  intros H. apply (sizes_aligned_flag _ _ _ true) in H.
  apply sizes_aligned_app in H. destruct H as [H1 H2].
  apply sizes_aligned_merge_next in H2. unfold released.
  revert H1 H2. generalize (merge_next s l2) as rest.
  induction l1 as [|b l1 IH]; intros rest H1 H2; auto.
  apply sizes_aligned_cons in H1. destruct H1 as [Hb H1].
  cbn [merge_last]. destruct l1 as [|b' l1'].
  - destruct b as [sb [|]]; simpl.
    + apply sizes_aligned_merge_next. apply sizes_aligned_cons. auto.
    + apply sizes_aligned_cons. auto.
  - apply sizes_aligned_cons. split; auto.
Qed.

Lemma blocks_step_aligned bs bs' :
  blocks_step bs bs' -> sizes_aligned bs -> sizes_aligned bs'.
Proof.
  intros [l1 s l2 n _ Hn _|l1 s l2|l s n _ Hn] H.
  - eapply sizes_aligned_split; eauto.
  - now apply sizes_aligned_released.
  - now apply sizes_aligned_grow.
Qed.

Lemma blocks_run_aligned bs bs' :
  blocks_run bs bs' -> sizes_aligned bs -> sizes_aligned bs'.
Proof.
  induction 1; auto. intros. eapply blocks_step_aligned; eauto.
Qed.

Lemma blocks_run_trans bs1 bs2 bs3 :
  blocks_run bs1 bs2 -> blocks_run bs2 bs3 -> blocks_run bs1 bs3.
Proof.
  intros H1 H2. induction H2; auto. eapply blocks_then; eauto.
Qed.

Lemma blocks_run_one bs bs' : blocks_step bs bs' -> blocks_run bs bs'.
Proof. intros H. eapply blocks_then; [apply blocks_here|exact H]. Qed.

Lemma end_addr_aligned l : forall a,
  a mod BYTE_BOUNDARY = 0 -> sizes_aligned l ->
  end_addr a l mod BYTE_BOUNDARY = 0.
Proof.
  induction l as [|b l IH]; simpl; intros a Ha Hl; auto.
  apply sizes_aligned_cons in Hl. destruct Hl as [Hb Hl].
  apply IH; auto. unfold after. repeat apply aligned_add; auto.
Qed.

Lemma end_addr_app a l1 l2 :
  end_addr a (l1 ++ l2) = end_addr (end_addr a l1) l2.
Proof. revert a. induction l1; simpl; intros; auto. Qed.

Lemma first_free_app a l1 l2 nf :
  first_free a (l1 ++ l2) nf
  = first_free a l1 (first_free (end_addr a l1) l2 nf).
Proof.
  revert a. induction l1 as [|b l1 IH]; simpl; intros; auto.
  destruct (bfree b); auto.
Qed.

Lemma free_addrs_app a l1 l2 :
  free_addrs a (l1 ++ l2) = free_addrs a l1 ++ free_addrs (end_addr a l1) l2.
Proof.
  revert a. induction l1 as [|b l1 IH]; simpl; intros; auto.
  rewrite IH. now rewrite app_assoc.
Qed.

Lemma used_addrs_app a l1 l2 :
  used_addrs a (l1 ++ l2) = used_addrs a l1 ++ used_addrs (end_addr a l1) l2.
Proof.
  revert a. induction l1 as [|b l1 IH]; simpl; intros; auto.
  rewrite IH. now rewrite app_assoc.
Qed.

Lemma repr_app m u a l1 l2 nf :
  repr m u a (l1 ++ l2) nf <->
  repr m u a l1 (first_free (end_addr a l1) l2 nf)
  /\ repr m u (end_addr a l1) l2 nf.
Proof.
  revert a. induction l1 as [|b l1 IH]; simpl; intros.
  - tauto.
  - rewrite IH, first_free_app. tauto.
Qed.

Lemma repr_end_ge m u a bs nf : repr m u a bs nf -> a <= end_addr a bs.
Proof.
  revert a. induction bs as [|b bs IH]; simpl; intros a H.
  - lia.
  - destruct H as (_ & Hs & _ & Hr). apply IH in Hr. consts. lia.
Qed.

Lemma repr_ext m m' u a bs nf :
  (forall x, a <= x < end_addr a bs -> m' x = m x) ->
  repr m u a bs nf -> repr m' u a bs nf.
Proof.
  revert a. induction bs as [|b bs IH]; simpl; intros a Hx H; auto.
  destruct H as (Hsz & Hs & Hn & Hr).
  pose proof (repr_end_ge _ _ _ _ _ Hr) as Hge.
  assert (Ha : m' a = m a) by (apply Hx; consts; lia).
  rewrite Ha. repeat split; auto.
  apply IH; auto. intros x Hxr. apply Hx. consts. lia.
Qed.

(** The address of the first free block lies among the blocks. *)
Lemma first_free_range m u a bs nf :
  repr m u a bs nf ->
  first_free a bs nf = nf \/ a <= first_free a bs nf < end_addr a bs.
Proof.
  revert a. induction bs as [|b bs IH]; simpl; intros a H; auto.
  destruct H as (_ & Hs & _ & Hr).
  pose proof (repr_end_ge _ _ _ _ _ Hr) as Hge.
  destruct (bfree b).
  - right. consts. lia.
  - destruct (IH _ Hr) as [E|E]; auto. right. consts. lia.
Qed.

Lemma first_free_all_used a bs nf : all_used bs -> first_free a bs nf = nf.
Proof.
  intros H. revert a. induction H as [|b bs Hb _ IH]; simpl; intros; auto.
  now rewrite Hb.
Qed.

Lemma ends_free_app l b l2 : ends_free (l ++ b :: l2) = ends_free (b :: l2).
Proof.
  induction l as [|x l IH]; auto.
  change ((x :: l) ++ b :: l2) with (x :: (l ++ b :: l2)).
  remember (l ++ b :: l2) as r. destruct r.
  - destruct l; discriminate.
  - simpl. simpl in IH. rewrite <- IH. reflexivity.
Qed.

Lemma ends_free_last bs :
  ends_free bs = true -> exists l s, bs = l ++ [mkBlock s true].
Proof.
  induction bs as [|b bs IH]; simpl; intros H; try discriminate.
  destruct bs as [|b' bs].
  - destruct b as [s f]. simpl in H. subst. exists [], s. reflexivity.
  - destruct (IH H) as (l & s & E). exists (b :: l), s. rewrite E. reflexivity.
Qed.

Lemma all_used_not_ends_free bs : all_used bs -> ends_free bs = false.
Proof.
  induction 1 as [|b bs Hb Hr IH]; auto.
  simpl. destruct bs; auto.
Qed.

(** ** Linked lists in the store *)

Lemma chain_app_head m q l p r :
  chain m q (l ++ [p]) r -> q <> NULL.
Proof. destruct l; simpl; intros (-> & H & _); exact H. Qed.

Lemma free_addrs_range m u a bs nf x :
  repr m u a bs nf -> In x (free_addrs a bs) -> a <= x < end_addr a bs.
Proof.
  revert a. induction bs as [|b bs IH]; simpl; intros a H Hin; [easy|].
  destruct H as (_ & Hs & _ & Hr).
  pose proof (repr_end_ge _ _ _ _ _ Hr) as Hge.
  apply in_app_or in Hin. destruct Hin as [Hin|Hin].
  - destruct (bfree b); simpl in Hin; [|easy].
    destruct Hin as [<-|[]]. consts. lia.
  - apply (IH _ Hr) in Hin. consts. lia.
Qed.

Lemma used_addrs_range m u a bs nf x :
  repr m u a bs nf -> In x (used_addrs a bs) -> a <= x < end_addr a bs.
Proof.
  revert a. induction bs as [|b bs IH]; simpl; intros a H Hin; [easy|].
  destruct H as (_ & Hs & _ & Hr).
  pose proof (repr_end_ge _ _ _ _ _ Hr) as Hge.
  apply in_app_or in Hin. destruct Hin as [Hin|Hin].
  - destruct (bfree b); simpl in Hin; [easy|].
    destruct Hin as [<-|[]]. consts. lia.
  - apply (IH _ Hr) in Hin. consts. lia.
Qed.

(** The free blocks are linked in address order. *)
Lemma repr_chain m u a bs nf :
  0 < a -> repr m u a bs nf ->
  chain m (first_free a bs nf) (free_addrs a bs) nf.
Proof.
  revert a. induction bs as [|b bs IH]; simpl; intros a Ha H; auto.
  destruct H as (_ & Hs & Hn & Hr).
  assert (Ha' : 0 < after a b) by (consts; lia).
  specialize (IH _ Ha' Hr).
  destruct (bfree b); simpl; auto.
  rewrite Hn. repeat split; auto. consts. lia.
Qed.

Lemma tail_scan_chain st l p : forall fuel t,
  chain (mem st) t (l ++ [p]) NULL ->
  tail_scan fuel t st = if (length l <? fuel)%nat then Some p else None.
Proof.
  induction l as [|a l IH]; intros [|f] t H; simpl in *; auto.
  - destruct H as (-> & Hp & Hn). apply Z.eqb_neq in Hp. rewrite Hp.
    rewrite Hn. reflexivity.
  - destruct H as (-> & Ha & Hc). apply Z.eqb_neq in Ha. rewrite Ha.
    pose proof (chain_app_head _ _ _ _ _ Hc) as Hq.
    apply Z.eqb_neq in Hq. rewrite Hq. rewrite (IH _ _ Hc). reflexivity.
Qed.

Lemma parent_scan_chain st fs l p : forall fuel t,
  chain (mem st) t (l ++ [p]) fs -> ~ In fs (l ++ [p]) ->
  parent_scan fuel t fs st = if (length l <? fuel)%nat then Some p else None.
Proof.
  induction l as [|a l IH]; intros [|f] t H Hni; simpl in *; auto.
  - destruct H as (-> & Hp & Hn). apply Z.eqb_neq in Hp. rewrite Hp.
    rewrite Hn, Z.eqb_refl. reflexivity.
  - destruct H as (-> & Ha & Hc). apply Z.eqb_neq in Ha. rewrite Ha.
    assert (Hq : next (mem st a) <> fs).
    { intros E. apply Hni. right.
      destruct l; simpl in Hc; destruct Hc as (E' & _); left; congruence. }
    apply Z.eqb_neq in Hq. rewrite Hq. rewrite (IH _ _ Hc); auto.
Qed.

Lemma insert_scan_chain st old l p q : forall fuel t,
  chain (mem st) t (l ++ [p]) q ->
  (forall x, In x (l ++ [p]) -> x < old) ->
  q = NULL \/ old <= q ->
  insert_scan fuel t old st = if (length l <? fuel)%nat then Some p else None.
Proof.
  induction l as [|a l IH]; intros [|f] t H Hlt Hq; simpl in *; auto.
  - destruct H as (-> & Hp & Hn). apply Z.eqb_neq in Hp. rewrite Hp.
    rewrite Hn. destruct Hq as [->|Hq].
    + reflexivity.
    + assert (E : (q <? old) = false) by (apply Z.ltb_ge; lia).
      rewrite E, andb_false_r. reflexivity.
  - destruct H as (-> & Ha & Hc). apply Z.eqb_neq in Ha. rewrite Ha.
    pose proof (chain_app_head _ _ _ _ _ Hc) as Hnz.
    apply Z.eqb_neq in Hnz. rewrite Hnz.
    assert (E : (next (mem st a) <? old) = true).
    { apply Z.ltb_lt. apply Hlt. right.
      destruct l; simpl in Hc; destruct Hc as (E' & _); left; congruence. }
    rewrite E. simpl. rewrite (IH _ _ Hc); auto.
Qed.

Lemma find_free_space_from_chain st sz l : forall fuel t,
  chain (mem st) t l NULL ->
  (forall r, find_free_space_from fuel t sz st = Some r ->
             r = first_fit st sz l)
  /\ ((length l < fuel)%nat ->
      find_free_space_from fuel t sz st = Some (first_fit st sz l)).
Proof.
  unfold first_fit.
  induction l as [|a l IH]; intros [|f] t H; simpl in *;
    try (split; [congruence|lia]).
  - subst t. simpl. split; [congruence|auto].
  - destruct H as (-> & Ha & Hc). apply Z.eqb_neq in Ha. rewrite Ha.
    unfold fits at 1 3. destruct (sz + sizeof_header <=? size (mem st a)).
    + split; [congruence|auto].
    + destruct (IH f _ Hc) as [IH1 IH2]. split; auto.
      intros Hf. apply IH2. lia.
Qed.

(** ** The predecessor on the free list *)

Lemma last_free_addr_none a bs : last_free_addr a bs = None -> all_used bs.
Proof.
  revert a. induction bs as [|b bs IH]; simpl; intros a H.
  - constructor.
  - destruct (last_free_addr (after a b) bs) eqn:E; [discriminate|].
    destruct (bfree b) eqn:Eb; [discriminate|].
    constructor; [exact Eb | exact (IH _ E)].
Qed.

Lemma last_free_addr_some a bs p :
  last_free_addr a bs = Some p ->
  exists l1 s l2, bs = l1 ++ mkBlock s true :: l2 /\ all_used l2
                  /\ p = end_addr a l1.
Proof.
  revert a. induction bs as [|b bs IH]; simpl; intros a H; [discriminate|].
  destruct (last_free_addr (after a b) bs) eqn:E.
  - injection H as ->. destruct (IH _ E) as (l1 & s & l2 & -> & Hu & ->).
    exists (b :: l1), s, l2. auto.
  - destruct b as [s [|]]; simpl in H; [|discriminate]. injection H as <-.
    exists [], s, bs. repeat split. eapply last_free_addr_none; eauto.
Qed.

Lemma last_free_addr_range m u a bs nf p :
  repr m u a bs nf -> last_free_addr a bs = Some p ->
  a <= p < end_addr a bs.
Proof.
  intros H E. destruct (last_free_addr_some _ _ _ E) as (l1 & s & l2 & -> & _ & ->).
  apply repr_app in H. destruct H as [H1 H2].
  apply repr_end_ge in H1. rewrite end_addr_app.
  simpl in H2. destruct H2 as (_ & Hs & _ & H2). apply repr_end_ge in H2.
  simpl. consts. simpl in *. lia.
Qed.

Lemma first_free_some a bs p nf nf' :
  last_free_addr a bs = Some p -> first_free a bs nf = first_free a bs nf'.
Proof.
  revert a. induction bs as [|b bs IH]; simpl; intros a H; [discriminate|].
  destruct (bfree b); auto.
  destruct (last_free_addr (after a b) bs) eqn:E; [|discriminate].
  injection H as ->. eapply IH; eauto.
Qed.

Lemma first_free_none a bs nf :
  last_free_addr a bs = None -> first_free a bs nf = nf.
Proof. intros H. apply first_free_all_used. eapply last_free_addr_none; eauto. Qed.

Lemma first_free_below m u a bs nf p :
  repr m u a bs nf -> last_free_addr a bs = Some p ->
  a <= first_free a bs nf <= p.
Proof.
  revert a. induction bs as [|b bs IH]; simpl; intros a H E; [discriminate|].
  destruct H as (_ & Hs & _ & Hr).
  destruct (last_free_addr (after a b) bs) eqn:E'.
  - injection E as ->.
    pose proof (last_free_addr_range _ _ _ _ _ _ Hr E') as Hp.
    destruct (bfree b).
    + consts. lia.
    + specialize (IH _ Hr E'). consts. lia.
  - destruct (bfree b); [|discriminate]. injection E as <-. lia.
Qed.

Lemma free_addrs_last a bs :
  match last_free_addr a bs with
  | Some p => exists fl, free_addrs a bs = fl ++ [p]
  | None => free_addrs a bs = []
  end.
Proof.
  revert a. induction bs as [|b bs IH]; simpl; intros a; auto.
  specialize (IH (after a b)).
  destruct (last_free_addr (after a b) bs).
  - destruct IH as (fl & ->).
    exists ((if bfree b then [a] else []) ++ fl). now rewrite app_assoc.
  - rewrite IH. destruct (bfree b); simpl; auto. exists []. reflexivity.
Qed.

(** Redirecting the link that leaves a run of blocks: only the last free
    block of the run changes, and nothing changes when there is none. *)
Lemma repr_retarget m m' u a bs nf nf' :
  repr m u a bs nf ->
  (forall x, a <= x < end_addr a bs -> Some x <> last_free_addr a bs ->
             m' x = m x) ->
  (forall p, last_free_addr a bs = Some p ->
             m' p = mkHeader (size (m p)) nf') ->
  repr m' u a bs nf'.
Proof.
  revert a. induction bs as [|b bs IH]; simpl; intros a H Hx Hp; auto.
  destruct H as (Hsz & Hs & Hn & Hr).
  pose proof (repr_end_ge _ _ _ _ _ Hr) as Hge.
  assert (Haa : a < after a b) by (consts; lia).
  destruct (last_free_addr (after a b) bs) as [p|] eqn:E.
  - pose proof (last_free_addr_range _ _ _ _ _ _ Hr E) as Hpr.
    assert (Ha : m' a = m a).
    { apply Hx; [consts; lia|]. intros [= ->]. lia. }
    rewrite Ha. repeat split; auto.
    + rewrite Hn. destruct (bfree b); auto. eapply first_free_some; eauto.
    + apply IH; auto.
      * intros x Hxr Hne. rewrite E in Hne. apply Hx; [lia|exact Hne].
      * intros p0 Hp0. rewrite E in Hp0. apply Hp. exact Hp0.
  - rewrite (first_free_none _ _ _ E) in *.
    assert (Hrest : repr m' u (after a b) bs nf').
    { apply IH; auto.
      - intros x Hxr _. apply Hx; [lia|]. destruct (bfree b); [|easy].
        intros [= ->]. lia.
      - intros p0 Hp0. rewrite E in Hp0. discriminate. }
    destruct (bfree b) eqn:Eb.
    + rewrite (Hp a eq_refl). simpl. repeat split; auto.
    + assert (Ha : m' a = m a) by (apply Hx; [consts; lia|easy]).
      rewrite Ha. repeat split; auto.
Qed.

(** When the last block of a run is free, the run has a first free
    block. *)
Lemma first_free_ends m u a bs nf :
  repr m u a bs nf -> ends_free bs = true ->
  a <= first_free a bs nf < end_addr a bs.
Proof.
  intros H He. destruct (first_free_range _ _ _ _ _ H) as [E|E]; auto.
  destruct (last_free_addr a bs) as [p|] eqn:El.
  - pose proof (first_free_below _ _ _ _ _ _ H El).
    pose proof (last_free_addr_range _ _ _ _ _ _ H El). lia.
  - apply last_free_addr_none, all_used_not_ends_free in El. congruence.
Qed.

Lemma covers_app a l1 l2 lo hi :
  covers (end_addr a l1) l2 lo hi -> covers a (l1 ++ l2) lo hi.
Proof. revert a. induction l1; simpl; intros; auto. Qed.

(** Two free blocks that touch, merged into one, span what they
    spanned. *)
Lemma covers_merge l s1 s2 l2 lo hi : forall a,
  0 <= s1 -> 0 <= s2 ->
  covers a (l ++ mkBlock s1 true :: mkBlock s2 true :: l2) lo hi ->
  covers a (l ++ mkBlock (s1 + (s2 + sizeof_header)) true :: l2) lo hi.
Proof.
  induction l as [|b l IH]; simpl; intros a H1 H2 H.
  - destruct H as [H|[H|H]].
    + left. consts. simpl in *. lia.
    + left. consts. simpl in *. lia.
    + right. replace (after a (mkBlock (s1 + (s2 + sizeof_header)) true))
        with (after (after a (mkBlock s1 true)) (mkBlock s2 true)); auto.
      consts. simpl. lia.
  - destruct H as [H|H]; auto.
Qed.

(** ** coalescing *)

Lemma store_eq a h m x : x = a -> store a h m x = h.
Proof. intros ->. apply store_same. Qed.

Ltac zlia := consts; simpl in *; lia.

Ltac mem_step :=
  match goal with
  | |- context [store ?a ?h ?m ?x] =>
      first [ rewrite (store_eq a h m x) by (consts; simpl in *; lia)
            | rewrite (store_other a h m x) by (consts; simpl in *; lia) ]
  end.

Ltac mem_simp := repeat mem_step.

(** The updates of the list operations leave [heap_head] alone. *)
Ltac same_base st :=
  repeat match goal with
         | |- context [first_block ?s] =>
             lazymatch s with
             | st => fail
             | _ => change (first_block s) with (first_block st)
             end
         end.

Lemma coalescing_fields p st :
  head (coalescing p st) = head st /\
  used_head (coalescing p st) = used_head st /\
  expansion_counter (coalescing p st) = expansion_counter st /\
  heap_size (coalescing p st) = heap_size st /\
  heap_head (coalescing p st) = heap_head st.
Proof.
  unfold coalescing.
  destruct (p + size (mem st p) + sizeof_header =? next (mem st p));
    simpl; auto.
Qed.

(** [coalescing] writes to the header of [parent] only. *)
Lemma coalescing_mem_other p st x :
  x <> p -> mem (coalescing p st) x = mem st x.
Proof.
  intros Hx. unfold coalescing.
  destruct (p + size (mem st p) + sizeof_header =? next (mem st p)); auto.
  simpl. now rewrite !store_other.
Qed.

(** Every block lies between the first block and the end of the heap. *)
Lemma heap_ok_bounds st l1 b l2 :
  heap_ok st (l1 ++ b :: l2) ->
  first_block st <= end_addr (first_block st) l1 /\
  after (end_addr (first_block st) l1) b <= heap_head st + heap_size st /\
  0 <= bsize b.
Proof.
  intros H. pose proof (ok_repr _ _ H) as Hr. pose proof (ok_end _ _ H) as He.
  apply repr_app in Hr. destruct Hr as [H1 H2].
  apply repr_end_ge in H1. rewrite end_addr_app in He.
  simpl in H2, He. destruct H2 as (_ & Hs & _ & H2). apply repr_end_ge in H2.
  lia.
Qed.

Lemma coalescing_ok st la s1 lb :
  heap_ok st (la ++ mkBlock s1 true :: lb) ->
  marks_ok st (la ++ mkBlock s1 true :: lb) ->
  exists s1' lb',
    heap_ok (coalescing (end_addr (first_block st) la) st)
            (la ++ mkBlock s1' true :: lb') /\
    marks_ok (coalescing (end_addr (first_block st) la) st)
             (la ++ mkBlock s1' true :: lb') /\
    (forall lo hi,
        covers (first_block st) (la ++ mkBlock s1 true :: lb) lo hi ->
        covers (first_block st) (la ++ mkBlock s1' true :: lb') lo hi) /\
    mkBlock s1' true :: lb' = merge_next s1 lb.
Proof.
  intros H Hm.
  pose proof (heap_ok_bounds _ _ _ _ H) as (Hlo & Hhi & Hs1).
  pose proof (ok_base _ _ H) as Hbase. pose proof (ok_size _ _ H) as Hsize.
  pose proof (ok_repr _ _ H) as Hr.
  apply repr_app in Hr. destruct Hr as [Hpre Hsuf].
  set (X := end_addr (first_block st) la) in *.
  simpl in Hpre, Hsuf. destruct Hsuf as (Hsz & _ & Hn & Hlb).
  assert (Hnomerge :
    X + size (mem st X) + sizeof_header <> next (mem st X) ->
    merge_next s1 lb = mkBlock s1 true :: lb ->
    exists s1' lb',
    heap_ok (coalescing X st) (la ++ mkBlock s1' true :: lb') /\
    marks_ok (coalescing X st) (la ++ mkBlock s1' true :: lb') /\
    (forall lo hi,
        covers (first_block st) (la ++ mkBlock s1 true :: lb) lo hi ->
        covers (first_block st) (la ++ mkBlock s1' true :: lb') lo hi) /\
    mkBlock s1' true :: lb' = merge_next s1 lb).
  { intros Hne Hshape. exists s1, lb. unfold coalescing.
    apply Z.eqb_neq in Hne. rewrite Hne. auto. }
  destruct lb as [|[s2 [|]] lc].
  - apply Hnomerge; [|reflexivity]. rewrite Hn. simpl. consts. simpl in *. lia.
  - (* the successor is free and touches *)
    clear Hnomerge. simpl in Hn, Hlb.
    destruct Hlb as (Hsz2 & Hs2 & Hn2 & Hlc).
    pose proof (repr_end_ge _ _ _ _ _ Hlc) as Hge.
    pose proof (ok_end _ _ H) as Hend.
    rewrite end_addr_app in Hend. simpl in Hend. fold X in Hend.
    assert (Hcond : (X + size (mem st X) + sizeof_header =? next (mem st X)) = true).
    { apply Z.eqb_eq. rewrite Hn, Hsz. consts. simpl. lia. }
    exists (s1 + (s2 + sizeof_header)), lc.
    unfold coalescing. rewrite Hcond.
    assert (Ew : uint (size (mem st X)
                       + (size (mem st (next (mem st X))) + sizeof_header))
                 = s1 + (s2 + sizeof_header)).
    { rewrite Hn, Hsz, Hsz2. apply uint_small. consts. simpl in *. lia. }
    rewrite Ew.
    assert (Elink : next (mem (set_size X (s1 + (s2 + sizeof_header)) st)
                     (next (mem (set_size X (s1 + (s2 + sizeof_header)) st) X)))
                    = first_free (after (after X (mkBlock s1 true)) (mkBlock s2 true)) lc NULL).
    { simpl. mem_simp. simpl. rewrite Hn. mem_simp. exact Hn2. }
    rewrite Elink.
    assert (Hafter : after X (mkBlock (s1 + (s2 + sizeof_header)) true)
                     = after (after X (mkBlock s1 true)) (mkBlock s2 true)).
    { consts. simpl. lia. }
    split; [|split; [|split]].
    + constructor; same_base st; simpl; try (apply H); auto.
      * apply repr_app. fold X. split.
        -- simpl. eapply repr_ext; [|exact Hpre].
           intros x Hx. fold X in Hx. mem_simp. reflexivity.
        -- simpl. mem_simp. simpl. rewrite Hafter.
           repeat split; auto; [zlia|].
           eapply repr_ext; [|exact Hlc].
           intros x Hx. mem_simp. reflexivity.
      * rewrite (ok_head _ _ H), !first_free_app. reflexivity.
      * rewrite end_addr_app. simpl. fold X. rewrite Hafter. exact Hend.
      * pose proof (ok_last _ _ H) as Hl. rewrite ends_free_app in *.
        destruct lc; auto.
    + intros x Hx. simpl in Hx. same_base st.
      rewrite used_addrs_app. simpl. fold X. rewrite Hafter.
      destruct (Z.eq_dec x X) as [->|Hxne].
      * exfalso. revert Hx. mem_simp. simpl.
        rewrite (ok_used _ _ H).
        destruct (first_free_range _ _ _ _ _ Hlc) as [E|E]; rewrite ?E;
          consts; simpl in *; lia.
      * revert Hx. mem_simp. intros Hx. apply Hm in Hx.
        rewrite used_addrs_app in Hx. exact Hx.
    + intros lo hi. apply covers_merge; auto.
    + reflexivity.
  - apply Hnomerge; [|reflexivity]. rewrite Hn. simpl. simpl in Hlb.
    destruct Hlb as (_ & Hs2 & _ & Hlc).
    destruct (first_free_range _ _ _ _ _ Hlc) as [E|E]; rewrite ?E;
      consts; simpl in *; lia.
Qed.

(** ** shrink_free *)

Lemma free_addrs_length a bs : (length (free_addrs a bs) <= length bs)%nat.
Proof.
  revert a. induction bs as [|b bs IH]; simpl; intros a; auto.
  rewrite length_app. specialize (IH (after a b)).
  destruct (bfree b); simpl; lia.
Qed.

Lemma shrink_free_ok st l1 s l2 n :
  heap_ok st (l1 ++ mkBlock s true :: l2) ->
  0 <= n -> n + sizeof_header <= s ->
  let A := end_addr (first_block st) l1 in
  let bs' := l1 ++ mkBlock n false
                :: mkBlock (s - n - sizeof_header) true :: l2 in
  exists st',
    (forall fuel, shrink_free fuel A n st = None
                  \/ shrink_free fuel A n st = Some (A, st')) /\
    (forall fuel, (length l1 < fuel)%nat ->
                  shrink_free fuel A n st = Some (A, st')) /\
    heap_ok st' bs' /\
    (marks_ok st (l1 ++ mkBlock s true :: l2) -> marks_ok st' bs') /\
    same_globals st st' /\
    mem st' A = mkHeader n (used_head st) /\
    mem st' (A + n + sizeof_header)
      = mkHeader (s - n - sizeof_header) (next (mem st A)) /\
    head st' = (if head st =? A then A + n + sizeof_header else head st) /\
    (forall p, last_free_addr (first_block st) l1 = Some p ->
               next (mem st p) = A /\
               mem st' p = mkHeader (size (mem st p)) (A + n + sizeof_header)) /\
    (forall x, x <> A -> x <> A + n + sizeof_header ->
               Some x <> last_free_addr (first_block st) l1 ->
               mem st' x = mem st x).
Proof.
  intros H Hn0 Hn A bs'.
  pose proof (heap_ok_bounds _ _ _ _ H) as (Hlo & Hhi & Hs).
  pose proof (ok_base _ _ H) as Hbase. pose proof (ok_size _ _ H) as Hsize.
  pose proof (ok_used _ _ H) as Hused.
  pose proof (ok_repr _ _ H) as Hr.
  apply repr_app in Hr. destruct Hr as [Hpre Hsuf]. fold A in Hpre, Hsuf, Hlo, Hhi.
  simpl in Hpre, Hsuf. destruct Hsuf as (Hsz & _ & Hnx & Hl2).
  pose proof (ok_head _ _ H) as Hhead.
  rewrite first_free_app in Hhead. simpl in Hhead. fold A in Hhead.
  assert (Hrem : uint (s - n - sizeof_header) = s - n - sizeof_header).
  { apply uint_small. zlia. }
  assert (Hnxr : next (mem st A) <> MINUS_ONE_PTR).
  { rewrite Hnx. destruct (first_free_range _ _ _ _ _ Hl2) as [E|E]; rewrite ?E.
    - zlia.
    - pose proof (ok_end _ _ H) as He. rewrite end_addr_app in He.
      simpl in He. fold A in He. zlia. }
  (* what remains to show once the new store is known *)
  assert (Hfinal : forall st',
    same_globals st st' ->
    mem st' A = mkHeader n (used_head st) ->
    mem st' (A + n + sizeof_header)
      = mkHeader (s - n - sizeof_header) (next (mem st A)) ->
    head st' = (if head st =? A then A + n + sizeof_header else head st) ->
    (forall p, last_free_addr (first_block st) l1 = Some p ->
               mem st' p = mkHeader (size (mem st p)) (A + n + sizeof_header)) ->
    (forall x, x <> A -> x <> A + n + sizeof_header ->
               Some x <> last_free_addr (first_block st) l1 ->
               mem st' x = mem st x) ->
    heap_ok st' bs' /\
    (marks_ok st (l1 ++ mkBlock s true :: l2) -> marks_ok st' bs')).
  { intros st' (Gu & Gc & Gs & Gh & Gl) HA HB Hhd HP Hx.
    assert (Efb : first_block st' = first_block st)
      by (unfold first_block; now rewrite Gh).
    split.
    - constructor; rewrite ?Efb, ?Gu, ?Gs, ?Gh; try apply H; auto.
      + unfold bs'. apply repr_app. fold A. split.
        * simpl. eapply repr_retarget; [exact Hpre| |].
          -- intros x Hxr Hne. fold A in Hxr. apply Hx; auto; zlia.
          -- intros p Hp. rewrite (HP _ Hp). f_equal. zlia.
        * simpl.
          replace (after A {| bsize := n; bfree := false |})
            with (A + n + sizeof_header) by zlia.
          replace (after (A + n + sizeof_header)
                     {| bsize := s - n - sizeof_header; bfree := true |})
            with (after A {| bsize := s; bfree := true |}) by zlia.
          rewrite HA, HB. simpl. repeat split; auto; try zlia.
          eapply repr_ext; [|exact Hl2].
          intros x Hxr. apply Hx; try zlia.
          destruct (last_free_addr (first_block st) l1) eqn:E; [|easy].
          pose proof (last_free_addr_range _ _ _ _ _ _ Hpre E). fold A in H0.
          intros [= ->]. zlia.
      + unfold bs'. rewrite Hhd, first_free_app. fold A. simpl.
        destruct (last_free_addr (first_block st) l1) eqn:E.
        * pose proof (first_free_below _ _ _ _ _ _ Hpre E).
          pose proof (last_free_addr_range _ _ _ _ _ _ Hpre E). fold A in H1.
          rewrite Hhead.
          replace (first_free (first_block st) l1 A =? A) with false
            by (symmetry; apply Z.eqb_neq; lia).
          eapply first_free_some; eauto.
        * rewrite Hhead, !(first_free_none _ _ _ E), Z.eqb_refl. zlia.
      + unfold bs'. rewrite end_addr_app. fold A. simpl.
        pose proof (ok_end _ _ H) as He. rewrite end_addr_app in He.
        simpl in He. fold A in He. rewrite <- He. f_equal. zlia.
      + unfold bs'. pose proof (ok_last _ _ H) as Hl.
        rewrite ends_free_app in *. destruct l2; auto.
    - intros Hm x Hxm. rewrite Efb, Gu in *. unfold bs'.
      rewrite used_addrs_app. fold A. simpl.
      replace (after (after A {| bsize := n; bfree := false |})
                 {| bsize := s - n - sizeof_header; bfree := true |})
        with (after A {| bsize := s; bfree := true |}) by zlia.
      destruct (Z.eq_dec x A) as [->|HxA].
      { apply in_or_app. right. left. reflexivity. }
      destruct (Z.eq_dec x (A + n + sizeof_header)) as [->|HxB].
      { exfalso. rewrite HB in Hxm. simpl in Hxm. congruence. }
      destruct (last_free_addr (first_block st) l1) as [p|] eqn:E.
      + destruct (Z.eq_dec x p) as [->|Hxp].
        * exfalso. rewrite (HP _ eq_refl) in Hxm. simpl in Hxm. zlia.
        * rewrite Hx in Hxm; auto; [|congruence].
          apply Hm in Hxm. rewrite used_addrs_app in Hxm. fold A in Hxm.
          simpl in Hxm. apply in_app_or in Hxm. apply in_or_app.
          destruct Hxm; auto. right. right. auto.
      + rewrite Hx in Hxm; auto; [|congruence].
        apply Hm in Hxm. rewrite used_addrs_app in Hxm. fold A in Hxm.
        simpl in Hxm. apply in_app_or in Hxm. apply in_or_app.
        destruct Hxm; auto. right. right. auto. }
  destruct (last_free_addr (first_block st) l1) as [P|] eqn:E.
  - (* a parent on the list *)
    pose proof (first_free_below _ _ _ _ _ _ Hpre E) as Hfb.
    pose proof (last_free_addr_range _ _ _ _ _ _ Hpre E) as HPr. fold A in HPr.
    assert (Hhne : (head st =? A) = false) by (apply Z.eqb_neq; lia).
    assert (Hpos : 0 < first_block st) by zlia.
    assert (Hchain := repr_chain _ _ _ _ _ Hpos Hpre).
    rewrite <- Hhead in Hchain.
    pose proof (free_addrs_last (first_block st) l1) as Hfl. rewrite E in Hfl.
    destruct Hfl as (fl & Hfl). rewrite Hfl in Hchain.
    assert (Hni : ~ In A (fl ++ [P])).
    { rewrite <- Hfl. intros Hin.
      apply (free_addrs_range _ _ _ _ _ _ Hpre) in Hin. fold A in Hin. lia. }
    assert (Hscan := fun fuel =>
      parent_scan_chain st A fl P fuel (head st) Hchain Hni).
    assert (Hlen : (length fl < length l1)%nat).
    { pose proof (free_addrs_length (first_block st) l1) as Hle.
      rewrite Hfl, length_app in Hle. simpl in Hle. lia. }
    assert (HnP : next (mem st P) = A).
    { destruct (last_free_addr_some _ _ _ E) as (la & sp & lb & El1 & Hu & EP).
      rewrite El1 in Hpre. apply repr_app in Hpre. destruct Hpre as [_ Hq].
      rewrite <- EP in Hq. simpl in Hq. destruct Hq as (_ & _ & Hq & _).
      rewrite Hq. apply first_free_all_used; auto. }
    eexists. split; [|split].
    + intros fuel. unfold shrink_free. rewrite Hhne, Hscan.
      destruct (length fl <? fuel)%nat; [right|left]; rewrite ?HnP;
        reflexivity.
    + intros fuel Hf. unfold shrink_free. rewrite Hhne, Hscan.
      replace (length fl <? fuel)%nat with true
        by (symmetry; apply Nat.ltb_lt; lia).
      rewrite ?HnP. reflexivity.
    + assert (HPA : P <> A) by lia.
      assert (HPB : P <> A + n + sizeof_header) by zlia.
      assert (HAB : A <> A + n + sizeof_header) by zlia.
      rewrite Hhne.
      match goal with |- heap_ok ?s _ /\ _ => set (st' := s) end.
      assert (G : same_globals st st') by (repeat split).
      assert (HA : mem st' A = mkHeader n (used_head st)).
      { unfold st'. simpl. mem_simp. reflexivity. }
      assert (HB : mem st' (A + n + sizeof_header)
                   = mkHeader (s - n - sizeof_header) (next (mem st A))).
      { unfold st'. simpl. mem_simp. simpl. mem_simp. rewrite Hsz, Hrem.
        reflexivity. }
      assert (HP : mem st' P
                   = mkHeader (size (mem st P)) (A + n + sizeof_header)).
      { unfold st'. simpl. mem_simp. reflexivity. }
      assert (Hx : forall x, x <> A -> x <> A + n + sizeof_header ->
                             Some x <> Some P -> mem st' x = mem st x).
      { intros x H1 H2 H3. assert (x <> P) by congruence.
        unfold st'. simpl. mem_simp. reflexivity. }
      destruct (Hfinal st') as [F1 F2]; auto.
      { rewrite Hhne. reflexivity. }
      { intros p [= <-]. exact HP. }
      split; [exact F1|]. split; [exact F2|]. split; [exact G|].
      split; [exact HA|]. split; [exact HB|]. split; [reflexivity|].
      split; [|exact Hx].
      intros p [= <-]. split; [exact HnP|exact HP].
  - (* the block is the head of the list *)
    rewrite (first_free_none _ _ _ E) in Hhead.
    assert (Hhe : (head st =? A) = true) by (apply Z.eqb_eq; lia).
    eexists. split; [|split].
    + intros fuel. unfold shrink_free. rewrite Hhe. right.
      rewrite Hhead. reflexivity.
    + intros fuel _. unfold shrink_free. rewrite Hhe.
      rewrite Hhead. reflexivity.
    + assert (HAB : A <> A + n + sizeof_header) by zlia.
      rewrite Hhe.
      match goal with |- heap_ok ?s _ /\ _ => set (st' := s) end.
      assert (G : same_globals st st') by (repeat split).
      assert (HA : mem st' A = mkHeader n (used_head st)).
      { unfold st'. simpl. mem_simp. reflexivity. }
      assert (HB : mem st' (A + n + sizeof_header)
                   = mkHeader (s - n - sizeof_header) (next (mem st A))).
      { unfold st'. simpl. mem_simp. simpl. mem_simp. rewrite Hsz, Hrem.
        reflexivity. }
      assert (Hx : forall x, x <> A -> x <> A + n + sizeof_header ->
                             Some x <> None -> mem st' x = mem st x).
      { intros x H1 H2 _. unfold st'. simpl. mem_simp. reflexivity. }
      destruct (Hfinal st') as [F1 F2]; auto.
      { rewrite Hhe. reflexivity. }
      { intros p [=]. }
      split; [exact F1|]. split; [exact F2|]. split; [exact G|].
      split; [exact HA|]. split; [exact HB|]. split; [reflexivity|].
      split; [|exact Hx].
      intros p [=].
Qed.

(** ** insert_free_space *)

Lemma same_globals_first_block st st' :
  same_globals st st' -> first_block st' = first_block st.
Proof. intros (_ & _ & _ & E & _). unfold first_block. now rewrite E. Qed.

Lemma same_globals_trans st1 st2 st3 :
  same_globals st1 st2 -> same_globals st2 st3 -> same_globals st1 st3.
Proof. unfold same_globals. intuition congruence. Qed.

Lemma coalescing_same_globals p st : same_globals st (coalescing p st).
Proof.
  unfold coalescing, same_globals.
  destruct (p + size (mem st p) + sizeof_header =? next (mem st p));
    simpl; auto.
Qed.

Lemma insert_free_space_ok st l1 s l2 :
  heap_ok st (l1 ++ mkBlock s false :: l2) ->
  marks_ok st (l1 ++ mkBlock s false :: l2) ->
  let A := end_addr (first_block st) l1 in
  exists st' bs',
    (forall fuel, insert_free_space fuel A st = None
                  \/ insert_free_space fuel A st = Some st') /\
    (forall fuel, (length l1 < fuel)%nat ->
                  insert_free_space fuel A st = Some st') /\
    heap_ok st' bs' /\ marks_ok st' bs' /\ same_globals st st' /\
    covers (first_block st) bs' A (after A (mkBlock s false)) /\
    (forall x, x <> A -> next (mem st x) = used_head st ->
               mem st' x = mem st x) /\
    bs' = released l1 s l2 /\
    (forall x, x <> A -> Some x <> last_free_addr (first_block st) l1 ->
               mem st' x = mem st x) /\
    ((A <? head st) = false ->
     forall fuel t, insert_scan fuel (head st) A st = Some t ->
                    t < A < next (mem st t)).
Proof.
  intros H Hm A.
  pose proof (heap_ok_bounds _ _ _ _ H) as (Hlo & Hhi & Hs).
  pose proof (ok_base _ _ H) as Hbase. pose proof (ok_size _ _ H) as Hsize.
  pose proof (ok_used _ _ H) as Hused.
  pose proof (ok_repr _ _ H) as Hr.
  apply repr_app in Hr. destruct Hr as [Hpre Hsuf]. fold A in Hpre, Hsuf, Hlo, Hhi.
  simpl in Hpre, Hsuf. destruct Hsuf as (Hsz & _ & Hnx & Hl2).
  pose proof (ok_head _ _ H) as Hhead.
  rewrite first_free_app in Hhead. simpl in Hhead. fold A in Hhead.
  pose proof (ok_end _ _ H) as Hend.
  rewrite end_addr_app in Hend. simpl in Hend. fold A in Hend.
  assert (Hl2e : ends_free l2 = true).
  { pose proof (ok_last _ _ H) as Hl. rewrite ends_free_app in Hl.
    destruct l2; simpl in *; auto. }
  set (A' := after A {| bsize := s; bfree := false |}) in *.
  set (nx := first_free A' l2 NULL) in *.
  assert (Hnxr : A' <= nx < heap_head st + heap_size st).
  { rewrite <- Hend. apply (first_free_ends _ _ _ _ _ Hl2 Hl2e). }
  (* the heap once the block is linked in, before any merge *)
  assert (Hsplice : forall st2,
    same_globals st st2 ->
    mem st2 A = mkHeader s nx ->
    head st2 = match last_free_addr (first_block st) l1 with
               | Some _ => head st | None => A end ->
    (forall p, last_free_addr (first_block st) l1 = Some p ->
               mem st2 p = mkHeader (size (mem st p)) A) ->
    (forall x, x <> A -> Some x <> last_free_addr (first_block st) l1 ->
               mem st2 x = mem st x) ->
    heap_ok st2 (l1 ++ mkBlock s true :: l2)
    /\ marks_ok st2 (l1 ++ mkBlock s true :: l2)).
  { intros st2 G HA Hhd HP Hx.
    pose proof (same_globals_first_block _ _ G) as Efb.
    destruct G as (Gu & Gc & Gs & Gh & Gl).
    assert (HxA' : forall x, A' <= x -> mem st2 x = mem st x).
    { intros x Hxr. apply Hx; [zlia|].
      destruct (last_free_addr (first_block st) l1) eqn:E; [|easy].
      pose proof (last_free_addr_range _ _ _ _ _ _ Hpre E). fold A in H0.
      intros [= ->]. zlia. }
    split.
    - constructor; rewrite ?Efb, ?Gu, ?Gs, ?Gh; try apply H; auto.
      + apply repr_app. fold A. split.
        * simpl. eapply repr_retarget; [exact Hpre| |].
          -- intros x Hxr Hne. fold A in Hxr. apply Hx; auto; zlia.
          -- intros p Hp. rewrite (HP _ Hp). reflexivity.
        * simpl. rewrite HA. simpl. repeat split; auto.
          eapply repr_ext; [|exact Hl2].
          intros x Hxr. apply HxA'. unfold A'. zlia.
      + rewrite Hhd, first_free_app. fold A. simpl.
        destruct (last_free_addr (first_block st) l1) eqn:E.
        * rewrite Hhead. eapply first_free_some; eauto.
        * rewrite (first_free_none _ _ _ E). reflexivity.
      + rewrite end_addr_app. fold A. simpl. exact Hend.
      + rewrite ends_free_app. destruct l2; simpl in *; auto.
    - intros x Hxm. rewrite Efb, Gu in *.
      rewrite used_addrs_app. fold A. simpl.
      destruct (Z.eq_dec x A) as [->|HxA].
      { exfalso. rewrite HA in Hxm. simpl in Hxm. zlia. }
      assert (Hold : next (mem st x) = used_head st ->
                     In x (used_addrs (first_block st) l1 ++
                           used_addrs A' l2)).
      { intros Hq. apply Hm in Hq. rewrite used_addrs_app in Hq.
        fold A in Hq. simpl in Hq. apply in_app_or in Hq. apply in_or_app.
        destruct Hq as [Hq|[Hq|Hq]]; auto. congruence. }
      destruct (last_free_addr (first_block st) l1) as [p|] eqn:E.
      + destruct (Z.eq_dec x p) as [->|Hxp].
        * exfalso. rewrite (HP _ eq_refl) in Hxm. simpl in Hxm. zlia.
        * rewrite Hx in Hxm; auto. congruence.
      + rewrite Hx in Hxm; auto. congruence. }
  assert (Hcov : covers (first_block st) (l1 ++ mkBlock s true :: l2) A A').
  { apply covers_app. fold A. simpl. left. unfold A'. zlia. }
  destruct (last_free_addr (first_block st) l1) as [P|] eqn:E.
  - (* a free block lies in front: insert after it *)
    pose proof (first_free_below _ _ _ _ _ _ Hpre E) as Hfb.
    pose proof (last_free_addr_range _ _ _ _ _ _ Hpre E) as HPr. fold A in HPr.
    assert (Hhlt : (A <? head st) = false) by (apply Z.ltb_ge; lia).
    assert (Hpos : 0 < first_block st) by zlia.
    assert (Hchain := repr_chain _ _ _ _ _ Hpos Hpre).
    rewrite <- Hhead in Hchain.
    pose proof (free_addrs_last (first_block st) l1) as Hfl. rewrite E in Hfl.
    destruct Hfl as (fl & Hfl). rewrite Hfl in Hchain.
    assert (Hall : forall x, In x (fl ++ [P]) -> x < A).
    { rewrite <- Hfl. intros x Hin.
      apply (free_addrs_range _ _ _ _ _ _ Hpre) in Hin. fold A in Hin. lia. }
    assert (Hscan := fun fuel =>
      insert_scan_chain st A fl P nx fuel (head st) Hchain Hall
        ltac:(right; zlia)).
    assert (Hlen : (length fl < length l1)%nat).
    { pose proof (free_addrs_length (first_block st) l1) as Hle.
      rewrite Hfl, length_app in Hle. simpl in Hle. lia. }
    destruct (last_free_addr_some _ _ _ E) as (la & sp & lb & El1 & Hu & EP).
    assert (HnP : next (mem st P) = nx).
    { rewrite El1 in Hpre. apply repr_app in Hpre. destruct Hpre as [_ Hq].
      rewrite <- EP in Hq. simpl in Hq. destruct Hq as (_ & _ & Hq & _).
      rewrite Hq. apply first_free_all_used; auto. }
    assert (Hnz : negb (next (mem st P) =? NULL) = true).
    { rewrite HnP. apply negb_true_iff, Z.eqb_neq. zlia. }
    set (st2 := set_next P A (set_next A nx st)).
    assert (HPA : P <> A) by lia.
    destruct (Hsplice st2) as [F1 F2].
    { repeat split. }
    { unfold st2. simpl. mem_simp. simpl. rewrite Hsz. reflexivity. }
    { reflexivity. }
    { intros p [= <-]. unfold st2. simpl. mem_simp. simpl. mem_simp.
      reflexivity. }
    { intros x HxA HxP. assert (x <> P) by congruence.
      unfold st2. simpl. mem_simp. reflexivity. }
    assert (G2 : same_globals st st2) by (repeat split).
    pose proof (same_globals_first_block _ _ G2) as Efb2.
    destruct (coalescing_ok st2 l1 s l2 F1 F2)
      as (s1' & lb' & C1 & C2 & C3 & C4).
    rewrite Efb2 in C1, C2, C3. fold A in C1, C2.
    set (st3 := coalescing A st2) in *.
    assert (G3 : same_globals st st3).
    { eapply same_globals_trans; [exact G2|apply coalescing_same_globals]. }
    pose proof (same_globals_first_block _ _ G3) as Efb3.
    pose proof (C3 _ _ Hcov) as Hc3. clear C3.
    rewrite El1 in C1, C2, Hc3. rewrite <- app_assoc in C1, C2, Hc3.
    simpl in C1, C2, Hc3.
    destruct (coalescing_ok st3 la sp _ C1 C2)
      as (s2' & lb2 & D1 & D2 & D3 & D4).
    rewrite Efb3 in D1, D2, D3. rewrite <- EP in D1, D2.
    exists (coalescing P st3), (la ++ mkBlock s2' true :: lb2).
    assert (Hrun : forall fuel, (length fl < fuel)%nat ->
                   insert_free_space fuel A st = Some (coalescing P st3)).
    { intros fuel Hf. unfold insert_free_space. rewrite Hhlt, Hscan.
      replace (length fl <? fuel)%nat with true
        by (symmetry; apply Nat.ltb_lt; lia).
      rewrite Hnz, HnP. fold st2.
      replace (next (mem st2 P)) with A; [reflexivity|].
      unfold st2. simpl. mem_simp. reflexivity. }
    split.
    { intros fuel. destruct (Nat.ltb_spec (length fl) fuel) as [Hf|Hf].
      - right. auto.
      - left. unfold insert_free_space. rewrite Hhlt, Hscan.
        replace (length fl <? fuel)%nat with false
          by (symmetry; apply Nat.ltb_ge; lia).
        reflexivity. }
    split.
    { intros fuel Hf. apply Hrun. lia. }
    split; [exact D1|]. split; [exact D2|]. split.
    { eapply same_globals_trans; [exact G3|apply coalescing_same_globals]. }
    split; [apply D3; exact Hc3|].
    split.
    { intros x HxA Hxm.
      assert (HxP : x <> P).
      { intros ->. rewrite HnP, Hused in Hxm. zlia. }
      rewrite coalescing_mem_other by exact HxP. unfold st3.
      rewrite coalescing_mem_other by exact HxA.
      unfold st2. simpl. mem_simp. reflexivity. }
    split.
    { rewrite El1, released_after_free by exact Hu.
      rewrite <- C4, D4. reflexivity. }
    split.
    { intros x HxA HxP'. assert (HxP : x <> P) by congruence.
      rewrite coalescing_mem_other by exact HxP. unfold st3.
      rewrite coalescing_mem_other by exact HxA.
      unfold st2. simpl. mem_simp. reflexivity. }
    intros _ fuel t Hsc. rewrite Hscan in Hsc.
    destruct (_ <? _)%nat; [|discriminate]. injection Hsc as <-.
    rewrite HnP. unfold A' in Hnxr. zlia.
  - (* no free block in front: the block becomes the head *)
    rewrite (first_free_none _ _ _ E) in Hhead.
    assert (Hhlt : (A <? head st) = true) by (apply Z.ltb_lt; zlia).
    set (st2 := set_head A (set_next A (head st) st)).
    destruct (Hsplice st2) as [F1 F2].
    { repeat split. }
    { unfold st2. simpl. mem_simp. simpl. rewrite Hsz, Hhead. reflexivity. }
    { reflexivity. }
    { intros p [=]. }
    { intros x HxA _. unfold st2. simpl. mem_simp. reflexivity. }
    assert (G2 : same_globals st st2) by (repeat split).
    pose proof (same_globals_first_block _ _ G2) as Efb2.
    destruct (coalescing_ok st2 l1 s l2 F1 F2)
      as (s1' & lb' & C1 & C2 & C3 & C4).
    rewrite Efb2 in C1, C2, C3. fold A in C1, C2.
    exists (coalescing A st2), (l1 ++ mkBlock s1' true :: lb').
    assert (Hrun : forall fuel,
                   insert_free_space fuel A st = Some (coalescing A st2)).
    { intros fuel. unfold insert_free_space. rewrite Hhlt. reflexivity. }
    split; [intros fuel; right; apply Hrun|].
    split; [intros fuel _; apply Hrun|].
    split; [exact C1|]. split; [exact C2|]. split.
    { eapply same_globals_trans; [exact G2|apply coalescing_same_globals]. }
    split; [apply C3; exact Hcov|].
    split.
    { intros x HxA Hxm.
      rewrite coalescing_mem_other by exact HxA.
      unfold st2. simpl. mem_simp. reflexivity. }
    split.
    { unfold released. rewrite <- C4. symmetry. apply merge_last_all_used.
      eapply last_free_addr_none; eauto. }
    split.
    { intros x HxA _.
      rewrite coalescing_mem_other by exact HxA.
      unfold st2. simpl. mem_simp. reflexivity. }
    intros Hf. rewrite Hhlt in Hf. discriminate.
Qed.

(** ** expand_heap *)

Lemma expand_heap_brk fuel st o r st' o' :
  expand_heap fuel st o = Some (r, st', o') ->
  brk o <= brk o' /\ heap_head st' = heap_head st.
Proof.
  unfold expand_heap, sbrk.
  pose proof (uint_range (PAGE_SIZE * expansion_counter st)) as Hu.
  set (sz := uint (PAGE_SIZE * expansion_counter st)) in *.
  destruct (grants o) as [|[|] g]; simpl.
  - intros [= <- <- <-]. simpl. split; [lia|reflexivity].
  - destruct (brk o =? MINUS_ONE_PTR).
    + intros [= <- <- <-]. simpl. split; [lia|reflexivity].
    + destruct (tail_scan _ _ _); [|discriminate].
      intros [= <- <- <-]. simpl. split; [lia|reflexivity].
  - intros [= <- <- <-]. simpl. split; [lia|reflexivity].
Qed.

Lemma heap_ok_counter st bs v :
  heap_ok st bs -> heap_ok (set_expansion_counter v st) bs.
Proof. intros []. constructor; auto. Qed.

Lemma expand_heap_ok fuel st o bs r st' o' :
  heap_ok st bs -> marks_ok st bs ->
  brk o = heap_head st + heap_size st ->
  expand_heap fuel st o = Some (r, st', o') ->
  brk o' < heap_head st + 2 ^ 32 ->
  exists bs',
    heap_ok st' bs' /\ marks_ok st' bs' /\
    brk o' = heap_head st' + heap_size st' /\
    blocks_run bs bs' /\
    (forall g, grants o = true :: g ->
       exists l s,
         bs = l ++ [mkBlock s true] /\
         bs' = l ++ [mkBlock (s + uint (PAGE_SIZE * expansion_counter st))
                             true]).
Proof.
  intros H Hm Hb Hrun Hlim.
  pose proof (ok_base _ _ H) as Hbase. pose proof (ok_size _ _ H) as Hsize.
  pose proof (uint_range (PAGE_SIZE * expansion_counter st)) as Hu.
  unfold expand_heap, sbrk in Hrun.
  set (sz := uint (PAGE_SIZE * expansion_counter st)) in *.
  set (st1 := set_expansion_counter (sint (expansion_counter st + 1)) st) in *.
  assert (Hsz8 : sz mod BYTE_BOUNDARY = 0) by apply aligned_page.
  assert (Hrefused : forall o1, brk o1 = brk o ->
            (forall g, grants o <> true :: g) ->
            exists bs', heap_ok st1 bs' /\ marks_ok st1 bs' /\
                        brk o1 = heap_head st1 + heap_size st1 /\
                        blocks_run bs bs' /\
                        (forall g, grants o = true :: g ->
                           exists l s,
                             bs = l ++ [mkBlock s true] /\
                             bs' = l ++ [mkBlock (s + sz) true])).
  { intros o1 E Hg. exists bs. split; [apply heap_ok_counter; auto|].
    split; [exact Hm|]. split; [rewrite E; exact Hb|].
    split; [apply blocks_here|]. intros g Eg. now apply Hg in Eg. }
  destruct (grants o) as [|[|] g] eqn:Eg; simpl in Hrun.
  - injection Hrun as <- <- <-. apply Hrefused; [reflexivity|].
    intros g. rewrite ?Eg. discriminate.
  - assert (Hne : (brk o =? MINUS_ONE_PTR) = false)
      by (apply Z.eqb_neq; zlia).
    rewrite Hne in Hrun. clear Hrefused.
    destruct (ends_free_last _ (ok_last _ _ H)) as (l & s & ->).
    pose proof (heap_ok_bounds _ _ _ _ H) as (Hlo & Hhi & Hs).
    pose proof (ok_repr _ _ H) as Hr.
    assert (Hpos : 0 < first_block st) by zlia.
    pose proof (repr_chain _ _ _ _ _ Hpos Hr) as Hchain.
    rewrite <- (ok_head _ _ H), free_addrs_app in Hchain. simpl in Hchain.
    set (T := end_addr (first_block st) l) in *.
    rewrite (tail_scan_chain st1 _ T fuel (head st) Hchain) in Hrun.
    destruct (length _ <? fuel)%nat; [|discriminate].
    injection Hrun as <- <- <-.
    apply repr_app in Hr. destruct Hr as [Hpre Hsuf]. fold T in Hpre, Hsuf.
    simpl in Hpre, Hsuf. destruct Hsuf as (Hsz & _ & Hnx & _).
    pose proof (ok_end _ _ H) as Hend. rewrite end_addr_app in Hend.
    simpl in Hend. fold T in Hend. simpl in Hlim.
    assert (Ew : uint (size (mem st T) + sz) = s + sz).
    { rewrite Hsz. apply uint_small. zlia. }
    assert (Eh : uint (heap_size st + sz) = heap_size st + sz).
    { apply uint_small.
      pose proof (repr_end_ge _ _ _ _ _ Hpre) as Hge. fold T in Hge. zlia. }
    exists (l ++ [mkBlock (s + sz) true]). rewrite Ew. simpl. rewrite Eh.
    split; [|split; [|split; [|split]]].
    + constructor; same_base st; simpl; try apply H; auto; try lia.
      * apply repr_app. fold T. split.
        -- simpl. eapply repr_ext; [|exact Hpre].
           intros x Hx. fold T in Hx. mem_simp. reflexivity.
        -- simpl. mem_simp. simpl. repeat split; auto. zlia.
      * rewrite (ok_head _ _ H), !first_free_app. reflexivity.
      * rewrite end_addr_app. fold T. simpl. zlia.
      * rewrite ends_free_app. reflexivity.
    + intros x Hx. simpl in Hx. same_base st.
      rewrite used_addrs_app. simpl.
      assert (Hx' : next (mem st x) = used_head st).
      { destruct (Z.eq_dec x T) as [->|Hne'].
        - revert Hx. mem_simp. simpl. auto.
        - revert Hx. mem_simp. auto. }
      apply Hm in Hx'. rewrite used_addrs_app in Hx'. exact Hx'.
    + lia.
    + apply blocks_run_one, grow_step; [lia|exact Hsz8].
    + intros g' _. exists l, s. auto.
  - injection Hrun as <- <- <-. apply Hrefused; [reflexivity|].
    intros g'. rewrite ?Eg. discriminate.
Qed.

Lemma tail_scan_null st : forall fuel t0 t,
  tail_scan fuel t0 st = Some t -> next (mem st t) = NULL.
Proof.
  induction fuel as [|f IH]; simpl; intros t0 t H; [discriminate|].
  destruct (t0 =? NULL); [discriminate|].
  destruct (next (mem st t0) =? NULL) eqn:E.
  - injection H as <-. now apply Z.eqb_eq.
  - eauto.
Qed.

(** [expand_heap] writes to the last node of the list only: the headers
    with the marker stay as they are. *)
Lemma expand_heap_frame fuel st o r st' o' :
  used_head st = MINUS_ONE_PTR ->
  expand_heap fuel st o = Some (r, st', o') ->
  forall x, next (mem st x) = used_head st -> mem st' x = mem st x.
Proof.
  intros Hu. unfold expand_heap. destruct (sbrk _ o) as [p o1].
  destruct (p =? MINUS_ONE_PTR).
  - intros [= <- <- <-]. reflexivity.
  - destruct (tail_scan _ _ _) as [t|] eqn:E; [|discriminate].
    intros [= <- <- <-] x Hx. simpl. apply store_other. intros ->.
    apply tail_scan_null in E. simpl in E. rewrite E, Hu in Hx. discriminate.
Qed.

(** ** mymalloc_init *)

Lemma mymalloc_init_ok o st o' :
  PAGE_SIZE <= brk o < 2 ^ 63 ->
  mymalloc_init boot o = (0, st, o') ->
  heap_ok st [mkBlock 4032 true] /\ marks_ok st [mkBlock 4032 true] /\
  brk o' = heap_head st + heap_size st /\
  heap_head st = brk o /\ heap_size st = PAGE_SIZE /\
  expansion_counter st = 1.
Proof.
  intros Ho. unfold mymalloc_init, sbrk.
  destruct (grants o) as [|[|] g]; simpl; try discriminate.
  assert (Hne : (brk o =? MINUS_ONE_PTR) = false) by (apply Z.eqb_neq; zlia).
  rewrite Hne. intros [= <- <-]. simpl.
  change (uint (PAGE_SIZE - sizeof_header - sizeof_free_list)) with 4032.
  split; [|split; [|repeat split; zlia]].
  - constructor; simpl; auto; try zlia.
    unfold first_block. simpl. mem_simp. simpl. repeat split; zlia.
  - intros x. simpl. unfold store.
    destruct (x =? brk o + sizeof_free_list); simpl; discriminate.
Qed.

(** ** find_free_space on a well-formed heap *)

Lemma free_addrs_in a bs x :
  In x (free_addrs a bs) ->
  exists l1 s l2, bs = l1 ++ mkBlock s true :: l2 /\ x = end_addr a l1.
Proof.
  revert a. induction bs as [|[s f] bs IH]; simpl; intros a Hin; [easy|].
  apply in_app_or in Hin. destruct Hin as [Hin|Hin].
  - destruct f; simpl in Hin; [|easy]. destruct Hin as [<-|[]].
    exists [], s, bs. auto.
  - destruct (IH _ Hin) as (l1 & s' & l2 & -> & ->).
    exists (mkBlock s f :: l1), s', l2. auto.
Qed.

Lemma used_addrs_in a bs x :
  In x (used_addrs a bs) ->
  exists l1 s l2, bs = l1 ++ mkBlock s false :: l2 /\ x = end_addr a l1.
Proof.
  revert a. induction bs as [|[s f] bs IH]; simpl; intros a Hin; [easy|].
  apply in_app_or in Hin. destruct Hin as [Hin|Hin].
  - destruct f; simpl in Hin; [easy|]. destruct Hin as [<-|[]].
    exists [], s, bs. auto.
  - destruct (IH _ Hin) as (l1 & s' & l2 & -> & ->).
    exists (mkBlock s f :: l1), s', l2. auto.
Qed.

Lemma heap_ok_chain st bs :
  heap_ok st bs ->
  chain (mem st) (head st) (free_addrs (first_block st) bs) NULL.
Proof.
  intros H. rewrite (ok_head _ _ H).
  apply repr_chain with (u := used_head st); [|apply H].
  pose proof (ok_base _ _ H). zlia.
Qed.

Lemma heap_ok_size st l1 b l2 :
  heap_ok st (l1 ++ b :: l2) ->
  size (mem st (end_addr (first_block st) l1)) = bsize b.
Proof.
  intros H. pose proof (ok_repr _ _ H) as Hr.
  apply repr_app in Hr. destruct Hr as [_ Hr]. simpl in Hr. apply Hr.
Qed.

Lemma find_free_space_ok st bs sz fuel r :
  heap_ok st bs ->
  find_free_space fuel sz st = Some r -> r <> NULL ->
  exists l1 s l2,
    bs = l1 ++ mkBlock s true :: l2 /\ r = end_addr (first_block st) l1
    /\ sz + sizeof_header <= s.
Proof.
  intros H Hf Hr.
  destruct (find_free_space_from_chain st sz _ fuel _ (heap_ok_chain _ _ H))
    as [Hp _].
  apply Hp in Hf. unfold first_fit in Hf.
  destruct (find _ _) as [a|] eqn:E; [|congruence]. subst r.
  apply find_some in E. destruct E as [Hin Hfit].
  destruct (free_addrs_in _ _ _ Hin) as (l1 & s & l2 & -> & ->).
  exists l1, s, l2. repeat split.
  unfold fits in Hfit. rewrite (heap_ok_size _ _ _ _ H) in Hfit.
  apply Z.leb_le in Hfit. exact Hfit.
Qed.

(** ** mymalloc and myfree on a well-formed heap *)

Lemma shrink_free_heap_head fuel fs n st nb st' :
  shrink_free fuel fs n st = Some (nb, st') -> heap_head st' = heap_head st.
Proof.
  unfold shrink_free. destruct (head st =? fs).
  - intros [= <- <-]. reflexivity.
  - destruct (parent_scan _ _ _ _); [|discriminate].
    intros [= <- <-]. reflexivity.
Qed.

Lemma insert_free_space_heap_head fuel a st st' :
  insert_free_space fuel a st = Some st' -> heap_head st' = heap_head st.
Proof.
  unfold insert_free_space. destruct (a <? head st).
  - intros [= <-]. now rewrite (proj2 (proj2 (proj2 (proj2 (coalescing_fields _ _))))).
  - destruct (insert_scan _ _ _ _); [|discriminate].
    intros [= <-].
    rewrite !(proj2 (proj2 (proj2 (proj2 (coalescing_fields _ _))))).
    destruct (negb _); reflexivity.
Qed.

Lemma mymalloc_loop_brk sz : forall fuel st o p st' o',
  mymalloc_loop fuel sz st o = Some (p, st', o') ->
  brk o <= brk o' /\ heap_head st' = heap_head st.
Proof.
  induction fuel as [|f IH]; intros st o p st' o' Hrun; [discriminate|].
  cbn [mymalloc_loop] in Hrun.
  destruct (find_free_space (S f) sz st) as [fb|]; [|discriminate].
  destruct (negb (fb =? NULL)).
  - destruct (shrink_free (S f) fb sz st) as [[nb st1]|] eqn:E; [|discriminate].
    injection Hrun as <- <- <-.
    split; [lia|]. eapply shrink_free_heap_head; eauto.
  - destruct (expand_heap (S f) st o) as [[[r st1] o1]|] eqn:E; [|discriminate].
    apply expand_heap_brk in E. destruct E as [E1 E2].
    destruct (r =? 0).
    + injection Hrun as <- <- <-. auto.
    + apply IH in Hrun. destruct Hrun. split; [lia|congruence].
Qed.

Lemma mymalloc_brk fuel sz st o p st' o' :
  mymalloc fuel sz st o = Some (p, st', o') ->
  brk o <= brk o' /\ heap_head st' = heap_head st.
Proof.
  unfold mymalloc. destruct (sz =? 0).
  - intros [= <- <- <-]. split; [lia|reflexivity].
  - apply mymalloc_loop_brk.
Qed.

Lemma myfree_heap_head fuel ptr st r st' :
  myfree fuel ptr st = Some (r, st') -> heap_head st' = heap_head st.
Proof.
  unfold myfree. destruct (_ || _); [intros [= <- <-]; reflexivity|].
  destruct (negb _); [intros [= <- <-]; reflexivity|].
  destruct (insert_free_space _ _ _) eqn:E; [|discriminate].
  intros [= <- <-]. eapply insert_free_space_heap_head; eauto.
Qed.

(** The headers with the marker lie outside the free blocks. *)
Lemma marker_outside_free st l1 s l2 x :
  heap_ok st (l1 ++ mkBlock s true :: l2) ->
  marks_ok st (l1 ++ mkBlock s true :: l2) ->
  next (mem st x) = used_head st ->
  x < end_addr (first_block st) l1
  \/ after (end_addr (first_block st) l1) (mkBlock s true) <= x.
Proof.
  intros H Hm Hx. apply Hm in Hx. rewrite used_addrs_app in Hx.
  pose proof (ok_repr _ _ H) as Hr. apply repr_app in Hr.
  destruct Hr as [Hpre Hsuf]. simpl in Hsuf. destruct Hsuf as (_ & _ & _ & Hl2).
  apply in_app_or in Hx. destruct Hx as [Hx|Hx].
  - left. apply (used_addrs_range _ _ _ _ _ _ Hpre) in Hx. lia.
  - right. simpl in Hx. apply (used_addrs_range _ _ _ _ _ _ Hl2) in Hx. lia.
Qed.

Lemma mymalloc_loop_ok sz : forall fuel st o bs p st' o',
  inv st o bs -> 0 <= sz ->
  mymalloc_loop fuel sz st o = Some (p, st', o') ->
  brk o' < heap_head st + 2 ^ 32 ->
  exists bs',
    inv st' o' bs' /\
    (p <> NULL ->
     exists l1 l2, bs' = l1 ++ mkBlock sz false :: l2 /\
                   p = end_addr (first_block st') l1 + sizeof_header) /\
    (forall x, next (mem st x) = used_head st -> mem st' x = mem st x) /\
    (sz mod BYTE_BOUNDARY = 0 -> blocks_run bs bs').
Proof.
  induction fuel as [|f IH]; intros st o bs p st' o' (H & Hm & Hb) Hsz Hrun Hlim;
    [discriminate|].
  cbn [mymalloc_loop] in Hrun.
  destruct (find_free_space (S f) sz st) as [fb|] eqn:Ef; [|discriminate].
  destruct (fb =? NULL) eqn:Enull; simpl in Hrun.
  - destruct (expand_heap (S f) st o) as [[[r st1] o1]|] eqn:E; [|discriminate].
    pose proof (expand_heap_brk _ _ _ _ _ _ E) as [Hb1 Hh1].
    pose proof (expand_heap_frame _ _ _ _ _ _ (ok_used _ _ H) E) as Hfr1.
    assert (Hlim1 : brk o1 < heap_head st + 2 ^ 32).
    { destruct (r =? 0).
      - injection Hrun as <- <- <-. exact Hlim.
      - apply mymalloc_loop_brk in Hrun. lia. }
    destruct (expand_heap_ok _ _ _ _ _ _ _ H Hm Hb E Hlim1)
      as (bs1 & H1 & Hm1 & Hbr1 & Hal1 & _).
    destruct (r =? 0).
    + injection Hrun as <- <- <-. exists bs1.
      split; [exact (conj H1 (conj Hm1 Hbr1))|].
      split; [|split; [exact Hfr1|auto]]. intros Hp. now contradict Hp.
    + destruct (IH _ _ _ _ _ _ (conj H1 (conj Hm1 Hbr1)) Hsz Hrun)
        as (bs' & Hinv' & Hblk & Hfr2 & Hal2); [rewrite Hh1; exact Hlim|].
      exists bs'. split; [exact Hinv'|]. split; [exact Hblk|].
      split; [|intros Hsz8; eapply blocks_run_trans; eauto].
      intros x Hx. rewrite Hfr2; [apply Hfr1; exact Hx|].
      rewrite (Hfr1 _ Hx), Hx, (ok_used _ _ H), (ok_used _ _ H1). reflexivity.
  - apply Z.eqb_neq in Enull.
    destruct (find_free_space_ok _ _ _ _ _ H Ef Enull)
      as (l1 & s & l2 & -> & -> & Hfit).
    destruct (shrink_free_ok st l1 s l2 sz H Hsz Hfit)
      as (st2 & Hany & _ & H2 & Hm2 & G & _ & _ & _ & HP & Hx2).
    specialize (Hm2 Hm).
    destruct (Hany (S f)) as [E|E]; rewrite E in Hrun; [discriminate|].
    injection Hrun as <- <- <-.
    pose proof (same_globals_first_block _ _ G) as Efb.
    destruct G as (Gu & Gc & Gs & Gh & Gl).
    eexists. split; [split; [exact H2|split; [exact Hm2|congruence]]|].
    split; [|split].
    + intros _. exists l1, (mkBlock (s - sz - sizeof_header) true :: l2).
      rewrite Efb. auto.
    + intros x Hx.
      pose proof (marker_outside_free _ _ _ _ _ H Hm Hx) as Hout.
      pose proof (heap_ok_bounds _ _ _ _ H) as (_ & _ & Hs).
      apply Hx2; try zlia.
      destruct (last_free_addr (first_block st) l1) as [P|] eqn:EP; [|easy].
      intros [= ->]. destruct (HP P eq_refl) as [HnP _].
      rewrite HnP, (ok_used _ _ H) in Hx.
      pose proof (heap_ok_bounds _ _ _ _ H) as (_ & Hhi & _).
      pose proof (ok_base _ _ H). pose proof (ok_size _ _ H). zlia.
    + intros Hsz8. apply blocks_run_one, split_step; auto.
Qed.

Lemma round_up_range sz : 0 <= sz < 2 ^ 32 -> 0 <= round_up sz < 2 ^ 32.
Proof.
  intros H. unfold round_up. destruct (negb _); auto. apply uint_range.
Qed.

(** The rounded request is a multiple of the boundary, also where the
    sum has wrapped. *)
Lemma round_up_aligned sz : round_up sz mod BYTE_BOUNDARY = 0.
Proof.
  unfold round_up. destruct (sz mod BYTE_BOUNDARY =? 0) eqn:E; simpl.
  - apply Z.eqb_eq in E. exact E.
  - apply aligned_uint. unfold BYTE_BOUNDARY.
    pose proof (Z.div_mod sz 8 ltac:(lia)) as Hd.
    replace (sz + 8 - sz mod 8) with ((sz / 8 + 1) * 8) by lia.
    apply Z_mod_mult.
Qed.

Lemma mymalloc_ok fuel sz st o bs p st' o' :
  inv st o bs -> 0 <= sz < 2 ^ 32 ->
  mymalloc fuel sz st o = Some (p, st', o') ->
  brk o' < heap_head st + 2 ^ 32 ->
  exists bs',
    inv st' o' bs' /\
    (p <> NULL ->
     exists l1 l2, bs' = l1 ++ mkBlock (round_up sz) false :: l2 /\
                   p = end_addr (first_block st') l1 + sizeof_header) /\
    (forall x, next (mem st x) = used_head st -> mem st' x = mem st x) /\
    blocks_run bs bs'.
Proof.
  intros Hi Hsz. unfold mymalloc. destruct (sz =? 0).
  - intros [= <- <- <-] _. exists bs. split; auto.
    split; [|split; [auto|apply blocks_here]]. intros Hp. now contradict Hp.
  - intros Hrun Hlim.
    destruct (mymalloc_loop_ok (round_up sz) _ _ _ _ _ _ _ Hi
                (proj1 (round_up_range _ Hsz)) Hrun Hlim)
      as (bs' & Hinv' & Hblk & Hfr & Hal).
    exists bs'. repeat (split; [assumption|]).
    apply Hal, round_up_aligned.
Qed.

(** A pointer that passes the checks of [myfree] on a well-formed heap is
    the payload of a used block; the other headers with the marker stay
    as they are. *)
Lemma myfree_ok fuel ptr st o bs r st' :
  inv st o bs ->
  myfree fuel ptr st = Some (r, st') ->
  (exists bs', inv st' o bs' /\ blocks_run bs bs') /\
  (forall x, x <> ptr - sizeof_header -> next (mem st x) = used_head st ->
             mem st' x = mem st x).
Proof.
  intros (H & Hm & Hb). unfold myfree.
  assert (Hsame : exists bs', inv st o bs' /\ blocks_run bs bs').
  { exists bs. split; [exact (conj H (conj Hm Hb))|apply blocks_here]. }
  destruct (_ || _); [intros [= <- <-]; split; [exact Hsame|auto]|].
  destruct (next (mem st (ptr - sizeof_header)) =? used_head st) eqn:E;
    simpl; [|intros [= <- <-]; split; [exact Hsame|auto]].
  clear Hsame. apply Z.eqb_eq, Hm, used_addrs_in in E.
  destruct E as (l1 & s & l2 & -> & E). rewrite E.
  destruct (insert_free_space_ok st l1 s l2 H Hm)
    as (st2 & bs2 & Hany & _ & H2 & Hm2 & G & _ & Hfr & Hal & _).
  destruct (Hany fuel) as [E2|E2]; rewrite E2; [discriminate|].
  intros [= <- <-]. split; [|exact Hfr]. exists bs2.
  destruct G as (Gu & Gc & Gs & Gh & Gl).
  split; [|rewrite Hal; apply blocks_run_one, release_step].
  split; [exact H2|split; [exact Hm2|congruence]].
Qed.

(** Freeing the payload of a used block succeeds, and a free block then
    spans the block that was freed. *)
Lemma myfree_used_released st o l1 s l2 fuel :
  inv st o (l1 ++ mkBlock s false :: l2) ->
  (length l1 < fuel)%nat ->
  let A := end_addr (first_block st) l1 in
  exists st' bs',
    myfree fuel (A + sizeof_header) st = Some (0, st') /\
    inv st' o bs' /\
    covers (first_block st') bs' A (A + sizeof_header + s) /\
    bs' = released l1 s l2 /\ same_globals st st'.
Proof.
  intros (H & Hm & Hb) Hf A.
  pose proof (heap_ok_bounds _ _ _ _ H) as (Hlo & Hhi & Hs).
  pose proof (ok_base _ _ H) as Hbase.
  pose proof (ok_repr _ _ H) as Hr.
  apply repr_app in Hr. destruct Hr as [_ Hsuf]. fold A in Hsuf, Hlo, Hhi.
  simpl in Hsuf. destruct Hsuf as (_ & _ & Hnx & _).
  destruct (insert_free_space_ok st l1 s l2 H Hm)
    as (st2 & bs2 & _ & Hrun & H2 & Hm2 & G & Hc & _ & Hrel & _).
  fold A in Hrun, Hc.
  exists st2, bs2. unfold myfree.
  replace (A + sizeof_header - sizeof_header) with A by lia.
  assert (E1 : (A + sizeof_header <? heap_head st) = false)
    by (apply Z.ltb_ge; zlia).
  assert (Hroom : A + sizeof_header + s + sizeof_header
                  <= heap_head st + heap_size st).
  { destruct l2 as [|b l2'].
    - pose proof (ok_last _ _ H) as Hl. rewrite ends_free_app in Hl.
      discriminate.
    - assert (H' := H).
      change (l1 ++ mkBlock s false :: b :: l2')
        with (l1 ++ [mkBlock s false] ++ b :: l2') in H'.
      rewrite app_assoc in H'.
      pose proof (heap_ok_bounds _ _ _ _ H') as (_ & Hhi' & Hs').
      rewrite end_addr_app in Hhi'. simpl in Hhi'. fold A in Hhi'. zlia. }
  assert (E2 : (A + sizeof_header >? heap_head st + heap_size st - 8) = false).
  { rewrite Z.gtb_ltb. apply Z.ltb_ge. zlia. }
  rewrite E1, E2, Hnx, Z.eqb_refl, (Hrun _ Hf). simpl.
  rewrite (same_globals_first_block _ _ G).
  split; [reflexivity|]. split; [|split; [exact Hc|split; [exact Hrel|exact G]]].
  destruct G as (Gu & Gc & Gs & Gh & Gl).
  split; [exact H2|split; [exact Hm2|congruence]].
Qed.

Lemma myfree_used st o l1 s l2 fuel :
  inv st o (l1 ++ mkBlock s false :: l2) ->
  (length l1 < fuel)%nat ->
  let A := end_addr (first_block st) l1 in
  exists st' bs',
    myfree fuel (A + sizeof_header) st = Some (0, st') /\
    inv st' o bs' /\
    covers (first_block st') bs' A (A + sizeof_header + s).
Proof.
  intros Hinv Hf A.
  destruct (myfree_used_released st o l1 s l2 fuel Hinv Hf)
    as (st' & bs' & Hrun & Hinv' & Hc & _).
  exists st', bs'. auto.
Qed.

(** ** Reachable states *)

(** The break never moves down, and [heap_head] is set once. *)
Lemma step_brk st o st' o' :
  step st o st' o' -> brk o <= brk o' /\ heap_head st' = heap_head st.
Proof.
  intros [fuel sz p st1 o1 _ Hrun|fuel ptr r st1 Hrun|fuel r st1 o1 Hrun].
  - eapply mymalloc_brk; eauto.
  - split; [lia|]. eapply myfree_heap_head; eauto.
  - eapply expand_heap_brk; eauto.
Qed.

Lemma step_inv st o st' o' bs :
  inv st o bs -> step st o st' o' -> brk o' < heap_head st + 2 ^ 32 ->
  exists bs', inv st' o' bs' /\ blocks_run bs bs'.
Proof.
  intros Hinv [fuel sz p st1 o1 Hsz Hrun|fuel ptr r st1 Hrun|fuel r st1 o1 Hrun]
    Hlim.
  - destruct (mymalloc_ok _ _ _ _ _ _ _ _ Hinv Hsz Hrun Hlim)
      as (bs' & Hinv' & _ & _ & Hal).
    eauto.
  - eapply (proj1 (myfree_ok _ _ _ _ _ _ _ Hinv Hrun)).
  - destruct Hinv as (H1 & H2 & H3).
    destruct (expand_heap_ok _ _ _ _ _ _ _ H1 H2 H3 Hrun Hlim)
      as (bs' & H1' & H2' & H3' & Hal & _).
    exists bs'. exact (conj (conj H1' (conj H2' H3')) Hal).
Qed.

(** The invariant holds as long as the heap has not grown to 2^32 bytes,
    the point where [heap_size] and the sizes of the headers wrap. *)
(** The block lists of the reachable states are those that splitting,
    releasing and growing make of the one block [mymalloc_init] sets
    up. *)
Lemma reachable_inv_blocks st o :
  reachable st o -> brk o < heap_head st + 2 ^ 32 ->
  exists bs, inv st o bs /\ blocks_run [mkBlock 4032 true] bs.
Proof.
  induction 1 as [o st o' Ho Hi|st o st' o' _ IH Hstep]; intros Hlim.
  - destruct (mymalloc_init_ok _ _ _ Ho Hi) as (H1 & H2 & H3 & _).
    exists [mkBlock 4032 true]. split; [exact (conj H1 (conj H2 H3))|].
    apply blocks_here.
  - destruct (step_brk _ _ _ _ Hstep) as [Hb Hh].
    destruct IH as (bs & Hinv & Hal); [lia|].
    destruct (step_inv _ _ _ _ _ Hinv Hstep) as (bs' & Hinv' & Hal');
      [lia|].
    exists bs'. split; [exact Hinv'|]. eapply blocks_run_trans; eauto.
Qed.

Lemma reachable_inv_aligned st o :
  reachable st o -> brk o < heap_head st + 2 ^ 32 ->
  exists bs, inv st o bs /\ sizes_aligned bs.
Proof.
  intros Hr Hlim.
  destruct (reachable_inv_blocks _ _ Hr Hlim) as (bs & Hinv & Hrun).
  exists bs. split; [exact Hinv|].
  apply (blocks_run_aligned _ _ Hrun). repeat constructor.
Qed.

Lemma reachable_inv st o :
  reachable st o -> brk o < heap_head st + 2 ^ 32 -> exists bs, inv st o bs.
Proof.
  intros Hr Hlim.
  destruct (reachable_inv_aligned _ _ Hr Hlim) as (bs & Hinv & _). eauto.
Qed.

(** ** The walk over the blocks *)

Lemma heap_blocks_repr st bs : forall fuel a,
  repr (mem st) (used_head st) a bs NULL ->
  end_addr a bs = heap_head st + heap_size st ->
  heap_head st + heap_size st < used_head st ->
  0 < a -> used_head st = MINUS_ONE_PTR ->
  (length bs <= fuel)%nat ->
  heap_blocks fuel a st = walk_of a bs.
Proof.
  induction bs as [|b bs IH]; intros fuel a Hr He Hu Ha Hm Hf.
  - simpl in He. destruct fuel; simpl; auto.
    replace (a <? heap_head st + heap_size st) with false; auto.
    symmetry. apply Z.ltb_ge. lia.
  - destruct fuel as [|f]; simpl in Hf; [lia|].
    simpl in Hr, He. destruct Hr as (Hsz & Hs & Hn & Hr).
    pose proof (repr_end_ge _ _ _ _ _ Hr) as Hge.
    cbn [heap_blocks walk_of].
    replace (a <? heap_head st + heap_size st) with true
      by (symmetry; apply Z.ltb_lt; zlia).
    rewrite Hsz. f_equal.
    + f_equal. rewrite Hn. destruct (bfree b); simpl.
      * apply Z.eqb_neq.
        destruct (first_free_range _ _ _ _ _ Hr) as [E|E]; rewrite ?E; zlia.
      * apply Z.eqb_refl.
    + apply IH; auto; try lia. zlia.
Qed.

Lemma walk_of_sum a bs :
  allocated_bytes (walk_of a bs) + free_bytes (walk_of a bs)
  + Z.of_nat (length (walk_of a bs)) * sizeof_header
  = end_addr a bs - a.
Proof.
  revert a. induction bs as [|b bs IH]; intros a.
  - simpl. lia.
  - cbn [walk_of end_addr allocated_bytes free_bytes fold_right length
         fst snd].
    specialize (IH (after a b)).
    fold (allocated_bytes (walk_of (after a b) bs)).
    fold (free_bytes (walk_of (after a b) bs)).
    destruct (bfree b); simpl negb; cbv iota; zlia.
Qed.

Lemma unmarked_walk_of a bs : unmarked (walk_of a bs) = free_addrs a bs.
Proof.
  unfold unmarked. revert a. induction bs as [|b bs IH]; intros a; auto.
  cbn [walk_of filter free_addrs snd]. rewrite negb_involutive.
  destruct (bfree b); simpl; now rewrite IH.
Qed.

Lemma heap_ok_count st bs :
  heap_ok st bs -> (length bs <= Z.to_nat (heap_size st))%nat.
Proof.
  intros H. pose proof (ok_repr _ _ H) as Hr. pose proof (ok_end _ _ H) as He.
  assert (G : forall a l nf, repr (mem st) (used_head st) a l nf ->
                             Z.of_nat (length l) <= end_addr a l - a).
  { intros a l nf. revert a. induction l as [|b l IH]; simpl; intros a Hl.
    - lia.
    - destruct Hl as (_ & Hs & _ & Hl). apply IH in Hl. zlia. }
  apply G in Hr. zlia.
Qed.

Lemma all_blocks_ok st bs :
  heap_ok st bs -> all_blocks st = walk_of (first_block st) bs.
Proof.
  intros H. pose proof (ok_base _ _ H). pose proof (ok_size _ _ H).
  pose proof (ok_used _ _ H) as Hu.
  apply heap_blocks_repr; try apply H; auto.
  - rewrite Hu. zlia.
  - zlia.
  - apply heap_ok_count; auto.
Qed.

(** * The properties of the specification *)

(** ** The concrete run *)

Lemma demo_reachable g : reachable demo_state (demo_os g).
Proof.
  apply (reach_init (mkOs 65536 (true :: g))).
  - simpl. consts. lia.
  - reflexivity.
Qed.

(** The run on the source: a request of 10 bytes is rounded to 16 and
    served from the first page; two blocks of 16 bytes freed one after
    the other merge with the rest into the one block the heap started
    with. *)
Example demo_round_up :
  round_up 10 = 16 /\
  mymalloc 2 10 demo_state (demo_os []) = Some (65600, demo_one, demo_os [])
  /\ mem demo_one 65584 = mkHeader 16 MINUS_ONE_PTR
  /\ mem demo_one 65616 = mkHeader 4000 NULL /\ head demo_one = 65616.
Proof. repeat split; vm_compute; reflexivity. Qed.

Example demo_coalescing :
  option_map fst (myfree 2 65632 demo_freed) = Some 0
  /\ head demo_merged = 65584
  /\ mem demo_merged 65584 = mkHeader 4032 NULL.
Proof. repeat split; vm_compute; reflexivity. Qed.

(** ** Expansion *)








(** C1, as stated, fails: an expansion that the operating system refuses
    returns 0 and has incremented the expansion counter. *)
Lemma expand_heap_refusal_counts :
  fst (sbrk (uint (PAGE_SIZE * expansion_counter demo_state)) (demo_os [false]))
  = MINUS_ONE_PTR /\
  exists st',
    expand_heap 1 demo_state (demo_os [false]) = Some (0, st', demo_os [])
    /\ expansion_counter demo_state = 1 /\ expansion_counter st' = 2
    /\ st' <> demo_state.
Proof.
  split; [reflexivity|]. eexists. split; [reflexivity|].
  split; [reflexivity|]. split; [reflexivity|].
  intros E. apply (f_equal expansion_counter) in E. discriminate.
Qed.

(** C1, amended: when [sbrk] refuses, [expand_heap] returns 0 whatever the
    fuel; the store, the list head, the heap size and the other globals
    are those of the call, and the expansion counter, the count of the
    calls of [sbrk], is one more. *)
Theorem expand_heap_refused (fuel : nat) (st : state) (o : os) :
  fst (sbrk (uint (PAGE_SIZE * expansion_counter st)) o) = MINUS_ONE_PTR ->
  exists st',
    expand_heap fuel st o
    = Some (0, st', snd (sbrk (uint (PAGE_SIZE * expansion_counter st)) o))
    /\ st' = set_expansion_counter (sint (expansion_counter st + 1)) st
    /\ mem st' = mem st /\ head st' = head st
    /\ heap_size st' = heap_size st /\ heap_head st' = heap_head st
    /\ used_head st' = used_head st /\ head_list st' = head_list st.
Proof.
  intros Hp. unfold expand_heap.
  destruct (sbrk _ o) as [p o1]. simpl in Hp. subst p.
  rewrite Z.eqb_refl. eexists. split; [reflexivity|].
  repeat split.
Qed.

Lemma expand_heap_refused_witness :
  fst (sbrk (uint (PAGE_SIZE * expansion_counter demo_state)) (demo_os [false]))
  = MINUS_ONE_PTR /\
  exists st',
    expand_heap 1 demo_state (demo_os [false])
    = Some (0, st',
            snd (sbrk (uint (PAGE_SIZE * expansion_counter demo_state))
                   (demo_os [false])))
    /\ st' = set_expansion_counter (sint (expansion_counter demo_state + 1))
               demo_state
    /\ mem st' = mem demo_state /\ head st' = head demo_state
    /\ heap_size st' = heap_size demo_state
    /\ heap_head st' = heap_head demo_state
    /\ used_head st' = used_head demo_state
    /\ head_list st' = head_list demo_state.
Proof.
  split; [reflexivity|].
  apply (expand_heap_refused 1 demo_state (demo_os [false])). reflexivity.
Defined.










(** ** Conservation *)

(** C5, as stated, fails: right after initialisation the sizes and the
    headers add up to 4048 bytes while the heap has 4096; the list
    descriptor at the start of the heap is in no block. *)
Lemma conservation_misses_descriptor :
  reachable demo_state (demo_os [])
  /\ all_blocks demo_state = [(65584, 4032, false)]
  /\ allocated_bytes (all_blocks demo_state)
     + free_bytes (all_blocks demo_state)
     + Z.of_nat (length (all_blocks demo_state)) * sizeof_header
     <> heap_size demo_state.
Proof.
  split; [apply demo_reachable|]. split; vm_compute; [reflexivity|].
  discriminate.
Qed.

(** C5, amended: in every state reachable by [mymalloc_init], [mymalloc],
    [myfree] and [expand_heap], while the heap is below 2^32 bytes, the
    sizes of the allocated blocks, the sizes of the free blocks, one
    header per block and the list descriptor add up to the heap size; the
    blocks without the marker are the nodes of the free list, in address
    order. *)
Theorem conservation (st : state) (o : os) :
  reachable st o -> brk o < heap_head st + 2 ^ 32 ->
  allocated_bytes (all_blocks st) + free_bytes (all_blocks st)
  + Z.of_nat (length (all_blocks st)) * sizeof_header + sizeof_free_list
  = heap_size st
  /\ chain (mem st) (head st) (unmarked (all_blocks st)) NULL.
Proof.
  intros Hr Hlim. destruct (reachable_inv _ _ Hr Hlim) as (bs & H & _ & _).
  rewrite (all_blocks_ok _ _ H). split.
  - rewrite walk_of_sum. pose proof (ok_end _ _ H). zlia.
  - rewrite unmarked_walk_of. apply heap_ok_chain. exact H.
Qed.

Lemma conservation_witness :
  allocated_bytes (all_blocks demo_state) + free_bytes (all_blocks demo_state)
  + Z.of_nat (length (all_blocks demo_state)) * sizeof_header
  + sizeof_free_list
  = heap_size demo_state
  /\ chain (mem demo_state) (head demo_state)
           (unmarked (all_blocks demo_state)) NULL.
Proof.
  apply (conservation demo_state (demo_os [])).
  - apply demo_reachable.
  - vm_compute. reflexivity.
Defined.

(** ** Rounding of the request *)

Lemma round_up_spec sz :
  0 <= sz <= 2 ^ 32 - 8 ->
  sz <= round_up sz < sz + 8 /\ round_up sz mod BYTE_BOUNDARY = 0.
Proof.
  intros H. unfold round_up, BYTE_BOUNDARY.
  pose proof (Z.mod_pos_bound sz 8 ltac:(lia)) as Hm.
  pose proof (Z.div_mod sz 8 ltac:(lia)) as Hd.
  destruct (sz mod 8 =? 0) eqn:E; simpl.
  - apply Z.eqb_eq in E. split; lia.
  - apply Z.eqb_neq in E. rewrite uint_small by lia. split; [lia|].
    replace (sz + 8 - sz mod 8) with ((sz / 8 + 1) * 8) by lia.
    apply Z_mod_mult.
Qed.

(** Below the wrap: in a reachable state the block that [mymalloc] hands
    out has the rounded request as its size and the marker as its link,
    and lies inside the heap with room for a header behind it. *)
Lemma mymalloc_block st o fuel sz p st' o' :
  reachable st o -> 0 <= sz < 2 ^ 32 ->
  mymalloc fuel sz st o = Some (p, st', o') -> p <> NULL ->
  brk o' < heap_head st' + 2 ^ 32 ->
  mem st' (p - sizeof_header) = mkHeader (round_up sz) (used_head st') /\
  heap_head st' + sizeof_free_list <= p - sizeof_header /\
  p + round_up sz + sizeof_header <= heap_head st' + heap_size st'.
Proof.
  intros Hr Hsz Hrun Hp Hlim.
  destruct (mymalloc_brk _ _ _ _ _ _ _ Hrun) as [Hb Hh].
  destruct (reachable_inv _ _ Hr) as (bs & Hinv); [lia|].
  rewrite Hh in Hlim.
  destruct (mymalloc_ok _ _ _ _ _ _ _ _ Hinv Hsz Hrun Hlim)
    as (bs' & (H' & _ & _) & Hblk & _).
  destruct (Hblk Hp) as (l1 & l2 & -> & ->).
  set (A := end_addr (first_block st') l1) in *.
  replace (A + sizeof_header - sizeof_header) with A by lia.
  pose proof (heap_ok_bounds _ _ _ _ H') as (Hlo & _ & _). fold A in Hlo.
  pose proof (ok_repr _ _ H') as Hrep.
  apply repr_app in Hrep. destruct Hrep as [_ Hsuf]. fold A in Hsuf.
  simpl in Hsuf. destruct Hsuf as (Hs1 & _ & Hs2 & _).
  split; [destruct (mem st' A); simpl in *; congruence|].
  split; [zlia|].
  destruct l2 as [|b l2'].
  - pose proof (ok_last _ _ H') as Hl. rewrite ends_free_app in Hl.
    discriminate.
  - assert (H2 := H').
    change (l1 ++ mkBlock (round_up sz) false :: b :: l2')
      with (l1 ++ [mkBlock (round_up sz) false] ++ b :: l2') in H2.
    rewrite app_assoc in H2.
    pose proof (heap_ok_bounds _ _ _ _ H2) as (_ & Hhi & Hs').
    rewrite end_addr_app in Hhi. simpl in Hhi. fold A in Hhi. zlia.
Qed.

(** Below the wrap the address is right as well: where [sbrk] placed the
    heap at a multiple of the boundary, every pointer that [mymalloc]
    returns in a reachable state is a multiple of the boundary. *)
Lemma mymalloc_aligned st o fuel sz p st' o' :
  reachable st o -> 0 <= sz < 2 ^ 32 ->
  mymalloc fuel sz st o = Some (p, st', o') -> p <> NULL ->
  brk o' < heap_head st' + 2 ^ 32 ->
  heap_head st mod BYTE_BOUNDARY = 0 ->
  p mod BYTE_BOUNDARY = 0.
Proof.
  intros Hr Hsz Hrun Hp Hlim Hbase.
  destruct (mymalloc_brk _ _ _ _ _ _ _ Hrun) as [Hb Hh].
  destruct (reachable_inv_aligned _ _ Hr) as (bs & Hinv & Hal); [lia|].
  rewrite Hh in Hlim.
  destruct (mymalloc_ok _ _ _ _ _ _ _ _ Hinv Hsz Hrun Hlim)
    as (bs' & _ & Hblk & _ & Hal').
  destruct (Hblk Hp) as (l1 & l2 & -> & ->).
  apply (blocks_run_aligned _ _ Hal'), sizes_aligned_app in Hal.
  destruct Hal as [Hl1 _].
  apply aligned_add; [|reflexivity].
  apply end_addr_aligned; [|exact Hl1].
  unfold first_block. rewrite Hh. apply aligned_add; [exact Hbase|reflexivity].
Qed.

(** C8 fails on the code: a request of 4294967295 bytes is rounded, in
    [unsigned int], to 0; the search then accepts the first block with
    room for a header, and the caller is handed a block of size 0.  The
    rest of the claim holds: see [round_up_spec], [mymalloc_block] and
    [mymalloc_aligned]. *)
Theorem mymalloc_request_wraps :
  round_up 4294967295 = 0 /\
  exists st',
    mymalloc 1 4294967295 demo_state (demo_os []) = Some (65600, st', demo_os [])
    /\ size (mem st' (65600 - sizeof_header)) = 0
    /\ next (mem st' (65600 - sizeof_header)) = used_head st'.
Proof.
  split; [reflexivity|]. eexists. split; [reflexivity|].
  split; reflexivity.
Qed.

(** ** The search *)

Lemma chain_in_nonnull m l : forall p q a,
  chain m p l q -> In a l -> a <> NULL.
Proof.
  induction l as [|x l IH]; simpl; intros p q a H Hin; [easy|].
  destruct H as (-> & Hx & Hc). destruct Hin as [<-|Hin]; eauto.
Qed.

Lemma find_first (f : Z -> bool) l x :
  find f l = Some x ->
  exists l1 l2, l = l1 ++ x :: l2 /\ f x = true
                /\ forall a, In a l1 -> f a = false.
Proof.
  induction l as [|y l IH]; simpl; [discriminate|].
  destruct (f y) eqn:E.
  - intros [= <-]. exists [], l. repeat split; auto. intros a [].
  - intros H. destruct (IH H) as (l1 & l2 & -> & Hx & Hl1).
    exists (y :: l1), l2. repeat split; auto.
    intros a [<-|Ha]; auto.
Qed.

(** C7: on a null-terminated free list, and with fuel for its length,
    [find_free_space] returns the first node, from the head on, whose size
    is at least the request plus one header; it returns null exactly when
    no node of the list is that large. *)
Theorem find_free_space_first_fit
  (st : state) (fl : list Z) (sz : Z) (fuel : nat) :
  chain (mem st) (head st) fl NULL -> (length fl < fuel)%nat ->
  exists r,
    find_free_space fuel sz st = Some r /\
    (r = NULL <->
     forall a, In a fl -> size (mem st a) < sz + sizeof_header) /\
    (r <> NULL ->
     exists l1 l2,
       fl = l1 ++ r :: l2 /\ sz + sizeof_header <= size (mem st r) /\
       forall a, In a l1 -> size (mem st a) < sz + sizeof_header).
Proof.
  intros Hc Hf.
  destruct (find_free_space_from_chain st sz fl fuel _ Hc) as [_ Hrun].
  exists (first_fit st sz fl). split; [apply Hrun; exact Hf|].
  unfold first_fit. destruct (find (fits st sz) fl) as [x|] eqn:E.
  - destruct (find_first _ _ _ E) as (l1 & l2 & -> & Hx & Hl1).
    assert (Hnz : x <> NULL).
    { eapply chain_in_nonnull; [exact Hc|]. apply in_or_app. right. now left. }
    unfold fits in Hx. apply Z.leb_le in Hx.
    split; [split|].
    + intros ->. now contradict Hnz.
    + intros Hall. specialize (Hall x ltac:(apply in_or_app; right; now left)).
      lia.
    + intros _. exists l1, l2. repeat split; auto.
      intros a Ha. apply Hl1 in Ha. unfold fits in Ha.
      apply Z.leb_gt in Ha. exact Ha.
  - split; [split; auto|intros Hn; now contradict Hn].
    intros _ a Ha. pose proof (find_none _ _ E a Ha) as Hfa.
    unfold fits in Hfa. apply Z.leb_gt in Hfa. exact Hfa.
Qed.

Lemma find_free_space_first_fit_witness :
  exists r,
    find_free_space 2 16 demo_state = Some r /\
    (r = NULL <->
     forall a, In a [65584] -> size (mem demo_state a) < 16 + sizeof_header) /\
    (r <> NULL ->
     exists l1 l2,
       [65584] = l1 ++ r :: l2
       /\ 16 + sizeof_header <= size (mem demo_state r) /\
       forall a, In a l1 -> size (mem demo_state a) < 16 + sizeof_header).
Proof.
  apply (find_free_space_first_fit demo_state [65584] 16 2).
  - simpl. repeat split. discriminate.
  - simpl. lia.
Defined.

(** ** Splitting *)

Lemma chain_unique m : forall l1 l2 p,
  chain m p l1 NULL -> chain m p l2 NULL -> l1 = l2.
Proof.
  induction l1 as [|a l1 IH]; intros [|b l2] p H1 H2; simpl in *; auto.
  - destruct H2 as (E & Hb & _). congruence.
  - destruct H1 as (E & Ha & _). congruence.
  - destruct H1 as (-> & _ & H1), H2 as (<- & _ & H2).
    f_equal. eapply IH; eauto.
Qed.

Lemma map_other (f : Z -> Z) (x : Z) l :
  (forall a, a <> x -> f a = a) -> ~ In x l -> map f l = l.
Proof.
  intros Hf. induction l as [|a l IH]; simpl; intros Hn; auto.
  rewrite Hf, IH; auto.
Qed.

(** C6: on a well-formed heap, splitting the block that
    [find_free_space] found for a request of [sz] bytes returns that
    block; its header gets the size [sz] and the in-use marker; the header
    written [sz] bytes after the payload starts gets the remainder, the
    old size minus [sz] minus one header, which is not negative, and the
    old link; and the new header stands where the block stood on the free
    list: it is the new head, or the successor of the parent. *)
Theorem shrink_free_carves_front
  (st : state) (bs : list block) (fuel : nat) (sz fs : Z) :
  heap_ok st bs -> 0 <= sz ->
  find_free_space fuel sz st = Some fs -> fs <> NULL ->
  (length bs < fuel)%nat ->
  exists st',
    shrink_free fuel fs sz st = Some (fs, st') /\
    mem st' fs = mkHeader sz (used_head st) /\
    mem st' (fs + sz + sizeof_header)
    = mkHeader (size (mem st fs) - sz - sizeof_header) (next (mem st fs)) /\
    0 <= size (mem st fs) - sz - sizeof_header /\
    (head st = fs -> head st' = fs + sz + sizeof_header) /\
    (head st <> fs ->
     head st' = head st /\
     exists parent,
       next (mem st parent) = fs /\
       next (mem st' parent) = fs + sz + sizeof_header) /\
    (forall fl,
        chain (mem st) (head st) fl NULL ->
        In fs fl /\
        chain (mem st') (head st')
              (map (fun a => if a =? fs then fs + sz + sizeof_header else a) fl)
              NULL).
Proof.
  intros H Hsz Hfind Hnz Hfuel.
  destruct (find_free_space_ok _ _ _ _ _ H Hfind Hnz)
    as (l1 & s & l2 & -> & -> & Hfit).
  set (A := end_addr (first_block st) l1) in *.
  destruct (shrink_free_ok st l1 s l2 sz H Hsz Hfit)
    as (st' & _ & Hrun & H' & _ & G & HA & HB & Hhd & HP & _).
  fold A in Hrun, HA, HB, Hhd, HP.
  pose proof (heap_ok_size _ _ _ _ H) as Es. fold A in Es. simpl in Es.
  pose proof (same_globals_first_block _ _ G) as Efb.
  exists st'. split.
  { apply Hrun. rewrite length_app in Hfuel. simpl in Hfuel. lia. }
  split; [exact HA|]. split; [rewrite Es; exact HB|].
  split; [rewrite Es; lia|].
  split; [intros E; rewrite Hhd; apply Z.eqb_eq in E; now rewrite E|].
  pose proof (ok_repr _ _ H) as Hr.
  apply repr_app in Hr. destruct Hr as [Hpre Hsuf]. fold A in Hpre, Hsuf.
  simpl in Hpre, Hsuf. destruct Hsuf as (_ & Hs & _ & Hl2).
  split.
  { intros Hne. rewrite Hhd.
    replace (head st =? A) with false by (symmetry; now apply Z.eqb_neq).
    split; [reflexivity|].
    destruct (last_free_addr (first_block st) l1) as [p|] eqn:E.
    - destruct (HP p eq_refl) as [E1 E2]. exists p. rewrite E2. auto.
    - exfalso. apply Hne. rewrite (ok_head _ _ H), first_free_app.
      simpl. fold A. apply first_free_none; auto. }
  intros fl Hfl.
  rewrite (chain_unique _ _ _ _ Hfl (heap_ok_chain _ _ H)).
  rewrite free_addrs_app. fold A. simpl.
  split; [apply in_or_app; right; now left|].
  pose proof (heap_ok_chain _ _ H') as Hc'. rewrite Efb in Hc'.
  rewrite free_addrs_app in Hc'. fold A in Hc'. simpl in Hc'.
  replace (after (after A {| bsize := sz; bfree := false |})
             {| bsize := s - sz - sizeof_header; bfree := true |})
    with (after A {| bsize := s; bfree := true |}) in Hc' by zlia.
  replace (after A {| bsize := sz; bfree := false |})
    with (A + sz + sizeof_header) in Hc' by zlia.
  rewrite map_app. simpl. rewrite Z.eqb_refl.
  set (f := fun a => if a =? A then A + sz + sizeof_header else a).
  assert (Hf : forall a, a <> A -> f a = a).
  { intros a Ha. unfold f. apply Z.eqb_neq in Ha. now rewrite Ha. }
  rewrite (map_other f A), (map_other f A); auto.
  - intros Hin. apply (free_addrs_range _ _ _ _ _ _ Hl2) in Hin. zlia.
  - intros Hin. apply (free_addrs_range _ _ _ _ _ _ Hpre) in Hin.
    fold A in Hin. lia.
Qed.

Lemma demo_inv g : inv demo_state (demo_os g) [mkBlock 4032 true].
Proof.
  split; [|split].
  - constructor; simpl; repeat split; try reflexivity; consts; lia.
  - intros x. simpl. unfold store.
    destruct (x =? _); simpl; discriminate.
  - reflexivity.
Qed.

Lemma shrink_free_carves_front_witness :
  exists st',
    shrink_free 2 65584 16 demo_state = Some (65584, st') /\
    mem st' 65584 = mkHeader 16 (used_head demo_state) /\
    mem st' (65584 + 16 + sizeof_header)
    = mkHeader (size (mem demo_state 65584) - 16 - sizeof_header)
               (next (mem demo_state 65584)) /\
    0 <= size (mem demo_state 65584) - 16 - sizeof_header /\
    (head demo_state = 65584 -> head st' = 65584 + 16 + sizeof_header) /\
    (head demo_state <> 65584 ->
     head st' = head demo_state /\
     exists parent,
       next (mem demo_state parent) = 65584 /\
       next (mem st' parent) = 65584 + 16 + sizeof_header) /\
    (forall fl,
        chain (mem demo_state) (head demo_state) fl NULL ->
        In 65584 fl /\
        chain (mem st') (head st')
              (map (fun a => if a =? 65584
                             then 65584 + 16 + sizeof_header else a) fl)
              NULL).
Proof.
  apply (shrink_free_carves_front demo_state [mkBlock 4032 true] 2 16 65584).
  - apply (demo_inv []).
  - lia.
  - reflexivity.
  - discriminate.
  - simpl. lia.
Defined.

(** ** Freeing *)








(** C2, as stated, fails: the block freed has 16 bytes, the search wants
    16 more than the request, and a request of the same 16 bytes is
    served from the block behind. *)
Lemma freed_block_not_reused_for_equal_size :
  mymalloc 2 16 demo_state (demo_os []) = Some (65600, demo_one, demo_os [])
  /\ mymalloc 2 16 demo_one (demo_os []) = Some (65632, demo_two, demo_os [])
  /\ myfree 2 65600 demo_two = Some (0, demo_freed)
  /\ ~ served_from demo_freed (65600 - sizeof_header) (65600 + round_up 16) 16
  /\ fst (fst (match mymalloc 3 16 demo_freed (demo_os []) with
               | Some x => x
               | None => (0, boot, demo_os [])
               end)) = 65664.
Proof.
  split; [vm_compute; reflexivity|]. split; [vm_compute; reflexivity|].
  split; [vm_compute; reflexivity|]. split; [|vm_compute; reflexivity].
  assert (E0 : head demo_freed = 65584) by (vm_compute; reflexivity).
  assert (E1 : next (mem demo_freed 65584) = 65648)
    by (vm_compute; reflexivity).
  assert (E2 : next (mem demo_freed 65648) = 0) by (vm_compute; reflexivity).
  assert (F1 : fits demo_freed 16 65584 = false) by (vm_compute; reflexivity).
  intros (fl & a & Hc & Hin & Hlo & Hhi & Hfit).
  destruct fl as [|x fl]; [destruct Hin|].
  cbn [chain] in Hc. destruct Hc as (Ex & _ & Hc).
  rewrite E0 in Ex. subst x. rewrite E1 in Hc.
  destruct Hin as [<-|Hin]; [congruence|].
  destruct fl as [|y fl]; [destruct Hin|].
  cbn [chain] in Hc. destruct Hc as (Ey & _ & Hc). subst y.
  rewrite E2 in Hc.
  destruct fl as [|z fl].
  - destruct Hin as [<-|[]]. vm_compute in Hlo. now apply Hlo.
  - cbn [chain] in Hc. destruct Hc as (<- & Hz & _). now apply Hz.
Qed.

Lemma covers_in lo hi : forall bs a,
  covers a bs lo hi ->
  exists l1 s l2,
    bs = l1 ++ mkBlock s true :: l2 /\ end_addr a l1 <= lo
    /\ hi <= after (end_addr a l1) (mkBlock s true).
Proof.
  induction bs as [|[s f] bs IH]; simpl; intros a H; [easy|].
  destruct H as [(E & H1 & H2)|H].
  - simpl in E. subst f. exists [], s, bs. auto.
  - destruct (IH _ H) as (l1 & s' & l2 & -> & H1 & H2).
    exists (mkBlock s f :: l1), s', l2. auto.
Qed.

Lemma kept_reachable p st o st' o' :
  reachable st o -> kept p st o st' o' -> reachable st' o'.
Proof.
  intros Hr. induction 1 as [|st1 o1 fuel sz q st2 o2 _ IH Hsz Hrun
                            |st1 o1 fuel ptr r st2 _ IH Hne Hrun
                            |st1 o1 fuel r st2 o2 _ IH Hrun]; auto.
  - eapply reach_step; [exact IH|]. eapply step_mymalloc; eauto.
  - eapply reach_step; [exact IH|]. eapply step_myfree; eauto.
  - eapply reach_step; [exact IH|]. eapply step_expand_heap; eauto.
Qed.

Lemma kept_brk p st o st' o' :
  kept p st o st' o' -> brk o <= brk o' /\ heap_head st' = heap_head st.
Proof.
  induction 1 as [|st1 o1 fuel sz q st2 o2 _ [IH1 IH2] Hsz Hrun
                 |st1 o1 fuel ptr r st2 _ [IH1 IH2] Hne Hrun
                 |st1 o1 fuel r st2 o2 _ [IH1 IH2] Hrun].
  - split; [lia|reflexivity].
  - destruct (mymalloc_brk _ _ _ _ _ _ _ Hrun). split; [lia|congruence].
  - pose proof (myfree_heap_head _ _ _ _ _ Hrun). split; [lia|congruence].
  - destruct (expand_heap_brk _ _ _ _ _ _ Hrun). split; [lia|congruence].
Qed.

(** The header of a block that is not freed stays as [mymalloc] left
    it. *)
Lemma kept_header p st o st' o' :
  reachable st o -> kept p st o st' o' ->
  brk o' < heap_head st + 2 ^ 32 ->
  next (mem st (p - sizeof_header)) = used_head st ->
  mem st' (p - sizeof_header) = mem st (p - sizeof_header)
  /\ used_head st' = used_head st.
Proof.
  intros Hr Hk. induction Hk as [|st1 o1 fuel sz q st2 o2 Hk IH Hsz Hrun
                                |st1 o1 fuel ptr r st2 Hk IH Hne Hrun
                                |st1 o1 fuel r st2 o2 Hk IH Hrun];
    intros Hlim Hmark; auto.
  - destruct (mymalloc_brk _ _ _ _ _ _ _ Hrun) as [Hb Hh].
    destruct (kept_brk _ _ _ _ _ Hk) as [Hb1 Hh1].
    destruct IH as [IH1 IH2]; [lia|exact Hmark|].
    destruct (reachable_inv st1 o1) as (bs1 & Hinv1);
      [eapply kept_reachable; eauto|lia|].
    destruct (mymalloc_ok _ _ _ _ _ _ _ _ Hinv1 Hsz Hrun)
      as (bs2 & (H2 & _) & _ & Hfr & _); [lia|].
    destruct Hinv1 as (H1 & _).
    split.
    + rewrite Hfr; [exact IH1|]. rewrite IH1, IH2. exact Hmark.
    + rewrite (ok_used _ _ H2), <- IH2, (ok_used _ _ H1). reflexivity.
  - pose proof (myfree_heap_head _ _ _ _ _ Hrun) as Hh.
    destruct (kept_brk _ _ _ _ _ Hk) as [Hb1 Hh1].
    destruct IH as [IH1 IH2]; [lia|exact Hmark|].
    destruct (reachable_inv st1 o1) as (bs1 & Hinv1);
      [eapply kept_reachable; eauto|lia|].
    destruct (myfree_ok _ _ _ _ _ _ _ Hinv1 Hrun)
      as [(bs2 & (H2 & _) & _) Hfr].
    destruct Hinv1 as (H1 & _).
    split.
    + rewrite Hfr; [exact IH1|lia|]. rewrite IH1, IH2. exact Hmark.
    + rewrite (ok_used _ _ H2), <- IH2, (ok_used _ _ H1). reflexivity.
  - destruct (expand_heap_brk _ _ _ _ _ _ Hrun) as [Hb Hh].
    destruct (kept_brk _ _ _ _ _ Hk) as [Hb1 Hh1].
    destruct IH as [IH1 IH2]; [lia|exact Hmark|].
    destruct (reachable_inv st1 o1) as (bs1 & (H1 & Hm1 & Hbr1));
      [eapply kept_reachable; eauto|lia|].
    destruct (expand_heap_ok _ _ _ _ _ _ _ H1 Hm1 Hbr1 Hrun)
      as (bs2 & H2 & _); [lia|].
    pose proof (expand_heap_frame _ _ _ _ _ _ (ok_used _ _ H1) Hrun) as Hfr.
    split.
    + rewrite Hfr; [exact IH1|]. rewrite IH1, IH2. exact Hmark.
    + rewrite (ok_used _ _ H2), <- IH2, (ok_used _ _ H1). reflexivity.
Qed.

(** C2, amended: in a run from a reachable state, while the heap is
    below 2^32 bytes, [myfree] of a pointer that [mymalloc] returned and
    that was not freed since returns 0, given fuel for the list;
    afterwards a node of the free list spans the freed block, header and
    payload, and every request that leaves room for a header in the
    payload, its size plus one header being at most the rounded size that
    was allocated, passes the test of [find_free_space] on that node and
    is answered by the search. *)
Theorem free_after_malloc
  (st0 : state) (o0 : os) (fuel : nat) (sz p : Z) (st1 : state) (o1 : os)
  (st : state) (o : os) :
  reachable st0 o0 -> 0 <= sz < 2 ^ 32 ->
  mymalloc fuel sz st0 o0 = Some (p, st1, o1) -> p <> NULL ->
  kept p st1 o1 st o ->
  brk o < heap_head st + 2 ^ 32 ->
  exists fuel0, forall fuel', (fuel0 <= fuel')%nat ->
  exists st'',
    myfree fuel' p st = Some (0, st'') /\
    forall n, n + sizeof_header <= round_up sz ->
      served_from st'' (p - sizeof_header) (p + round_up sz) n /\
      exists fuel1 r,
        r <> NULL /\
        forall f, (fuel1 <= f)%nat -> find_free_space f n st'' = Some r.
Proof.
  intros Hr0 Hsz Hrun Hp Hk Hlim.
  assert (Hr1 : reachable st1 o1).
  { eapply reach_step; [exact Hr0|]. eapply step_mymalloc; eauto. }
  destruct (kept_brk _ _ _ _ _ Hk) as [Hb Hh].
  destruct (mymalloc_block _ _ _ _ _ _ _ Hr0 Hsz Hrun Hp) as (Hblk & _);
    [lia|].
  destruct (kept_header _ _ _ _ _ Hr1 Hk) as [Hhd Hu];
    [lia|rewrite Hblk; reflexivity|].
  rewrite Hblk in Hhd.
  destruct (reachable_inv st o) as (bs & H & Hm & Hbr);
    [eapply kept_reachable; eauto|exact Hlim|].
  assert (Hin : In (p - sizeof_header) (used_addrs (first_block st) bs)).
  { apply Hm. rewrite Hhd, Hu. reflexivity. }
  apply used_addrs_in in Hin. destruct Hin as (l1 & s & l2 & -> & EA).
  set (A := end_addr (first_block st) l1) in *.
  assert (Es : s = round_up sz).
  { pose proof (heap_ok_size _ _ _ _ H) as E. fold A in E.
    rewrite <- EA, Hhd in E. simpl in E. congruence. }
  subst s.
  replace p with (A + sizeof_header) by lia.
  replace (A + sizeof_header - sizeof_header) with A by lia.
  exists (S (length l1)). intros fuel' Hf.
  destruct (myfree_used st o l1 (round_up sz) l2 fuel' (conj H (conj Hm Hbr)))
    as (st'' & bs'' & Hfree & (H'' & _ & _) & Hcov); [lia|].
  fold A in Hfree, Hcov.
  exists st''. split; [exact Hfree|].
  intros n Hn.
  destruct (covers_in _ _ _ _ Hcov) as (la & s & lb & -> & Hlo & Hhi).
  set (X := end_addr (first_block st'') la) in *.
  pose proof (heap_ok_size _ _ _ _ H'') as Es. fold X in Es. simpl in Es.
  pose proof (heap_ok_chain _ _ H'') as Hc.
  assert (Hin : In X (free_addrs (first_block st'')
                        (la ++ mkBlock s true :: lb))).
  { rewrite free_addrs_app. apply in_or_app. right. now left. }
  assert (Hfit : fits st'' n X = true).
  { unfold fits. rewrite Es. apply Z.leb_le. zlia. }
  split.
  - eexists _, X. repeat split; eauto; rewrite ?Es; zlia.
  - destruct (find (fits st'' n)
                (free_addrs (first_block st'') (la ++ mkBlock s true :: lb)))
      as [r|] eqn:E.
    + exists (S (length (free_addrs (first_block st'')
                           (la ++ mkBlock s true :: lb)))), r.
      split.
      * apply find_some in E. destruct E as [Hr' _].
        eapply chain_in_nonnull; eauto.
      * intros f Hf'.
        destruct (find_free_space_from_chain st'' n _ f _ Hc) as [_ Hgo].
        unfold find_free_space. rewrite Hgo; [|lia].
        unfold first_fit. now rewrite E.
    + pose proof (find_none _ _ E X Hin). congruence.
Qed.

Lemma free_after_malloc_witness :
  exists fuel0, forall fuel', (fuel0 <= fuel')%nat ->
  exists st'',
    myfree fuel' 65600 demo_two = Some (0, st'') /\
    forall n, n + sizeof_header <= round_up 16 ->
      served_from st'' (65600 - sizeof_header) (65600 + round_up 16) n /\
      exists fuel1 r,
        r <> NULL /\
        forall f, (fuel1 <= f)%nat -> find_free_space f n st'' = Some r.
Proof.
  apply (free_after_malloc demo_state (demo_os []) 2 16 65600 demo_one
           (demo_os []) demo_two (demo_os [])).
  - apply demo_reachable.
  - lia.
  - vm_compute. reflexivity.
  - discriminate.
  - apply (kept_mymalloc _ _ _ demo_one (demo_os []) 2%nat 16 65632).
    + apply kept_here.
    + lia.
    + vm_compute. reflexivity.
  - vm_compute. reflexivity.
Defined.

(** ** The free list is never empty *)

Lemma shrink_free_head_pos fuel fs sz st nb st' :
  0 < head st -> 0 <= sz ->
  shrink_free fuel fs sz st = Some (nb, st') -> 0 < head st'.
Proof.
  intros Hh Hsz. unfold shrink_free. destruct (head st =? fs).
  - intros [= <- <-]. simpl. consts. lia.
  - destruct (parent_scan _ _ _ _); [|discriminate].
    intros [= <- <-]. exact Hh.
Qed.

Lemma expand_heap_head fuel st o r st' o' :
  expand_heap fuel st o = Some (r, st', o') -> head st' = head st.
Proof.
  unfold expand_heap. destruct (sbrk _ o) as [p o1].
  destruct (p =? MINUS_ONE_PTR).
  - intros [= <- <- <-]. reflexivity.
  - destruct (tail_scan _ _ _); [|discriminate].
    intros [= <- <- <-]. reflexivity.
Qed.

Lemma mymalloc_loop_head_pos sz : forall fuel st o p st' o',
  0 < head st -> 0 <= sz ->
  mymalloc_loop fuel sz st o = Some (p, st', o') -> 0 < head st'.
Proof.
  induction fuel as [|f IH]; intros st o p st' o' Hh Hsz Hrun; [discriminate|].
  cbn [mymalloc_loop] in Hrun.
  destruct (find_free_space (S f) sz st) as [fb|]; [|discriminate].
  destruct (negb (fb =? NULL)).
  - destruct (shrink_free (S f) fb sz st) as [[nb st1]|] eqn:E; [|discriminate].
    injection Hrun as <- <- <-. eapply shrink_free_head_pos; eauto.
  - destruct (expand_heap (S f) st o) as [[[r st1] o1]|] eqn:E; [|discriminate].
    apply expand_heap_head in E.
    destruct (r =? 0).
    + injection Hrun as <- <- <-. lia.
    + eapply IH; [|exact Hsz|exact Hrun]. lia.
Qed.

Lemma insert_free_space_head_pos fuel a st st' :
  0 < head st -> 0 < a ->
  insert_free_space fuel a st = Some st' -> 0 < head st'.
Proof.
  intros Hh Ha. unfold insert_free_space. destruct (a <? head st).
  - intros [= <-]. rewrite (proj1 (coalescing_fields _ _)). exact Ha.
  - destruct (insert_scan _ _ _ _); [|discriminate].
    intros [= <-]. rewrite !(proj1 (coalescing_fields _ _)).
    destruct (negb _); exact Hh.
Qed.

Lemma step_head_pos st o st' o' :
  0 < head st -> PAGE_SIZE <= heap_head st ->
  step st o st' o' -> 0 < head st'.
Proof.
  intros Hh Hb [fuel sz p st1 o1 Hsz Hrun|fuel ptr r st1 Hrun|fuel r st1 o1 Hrun].
  - unfold mymalloc in Hrun. destruct (sz =? 0).
    + injection Hrun as <- <- <-. exact Hh.
    + eapply mymalloc_loop_head_pos; [exact Hh| |exact Hrun].
      apply round_up_range; auto.
  - unfold myfree in Hrun.
    destruct (ptr <? heap_head st) eqn:E1; simpl in Hrun;
      [injection Hrun as <- <-; exact Hh|].
    destruct (ptr >? heap_head st + heap_size st - 8);
      [injection Hrun as <- <-; exact Hh|].
    destruct (negb _); [injection Hrun as <- <-; exact Hh|].
    destruct (insert_free_space _ _ _) eqn:E; [|discriminate].
    injection Hrun as <- <-.
    eapply insert_free_space_head_pos; [exact Hh| |exact E].
    apply Z.ltb_ge in E1. consts. lia.
  - apply expand_heap_head in Hrun. lia.
Qed.

Lemma reachable_head_pos st o :
  reachable st o -> 0 < head st /\ PAGE_SIZE <= heap_head st.
Proof.
  induction 1 as [o st o' Ho Hi|st o st' o' _ IH Hstep].
  - unfold mymalloc_init in Hi. destruct (sbrk PAGE_SIZE o) as [p o1] eqn:Es.
    simpl in Hi. destruct (p =? MINUS_ONE_PTR); [discriminate|].
    injection Hi as <- <-. simpl.
    unfold sbrk in Es. destruct (grants o) as [|[|] g].
    + injection Es as <- <-. consts. lia.
    + injection Es as <- <-. consts. lia.
    + injection Es as <- <-. consts. lia.
  - destruct IH as [Hh Hb]. split.
    + eapply step_head_pos; eauto.
    + rewrite (proj2 (step_brk _ _ _ _ Hstep)). exact Hb.
Qed.

(** C10: in every state reachable after a successful [mymalloc_init] the
    list head is not null; and while the heap is below 2^32 bytes the
    free list is a null-terminated list with at least one node, the walk
    that [expand_heap] makes from the head ends on its last node, and
    that node is the last block of the heap. *)
Theorem free_list_never_empty (st : state) (o : os) :
  reachable st o ->
  head st <> NULL /\
  (brk o < heap_head st + 2 ^ 32 ->
   exists fl t,
     chain (mem st) (head st) (fl ++ [t]) NULL /\
     (forall fuel, (length fl < fuel)%nat ->
                   tail_scan fuel (head st) st = Some t) /\
     t + sizeof_header + size (mem st t) = heap_head st + heap_size st).
Proof.
  intros Hr. split.
  - destruct (reachable_head_pos _ _ Hr) as [Hh _]. consts. lia.
  - intros Hlim. destruct (reachable_inv _ _ Hr Hlim) as (bs & H & _ & _).
    destruct (ends_free_last _ (ok_last _ _ H)) as (l & s & ->).
    pose proof (heap_ok_chain _ _ H) as Hc.
    rewrite free_addrs_app in Hc. simpl in Hc.
    exists (free_addrs (first_block st) l), (end_addr (first_block st) l).
    split; [exact Hc|]. split.
    + intros fuel Hf. rewrite (tail_scan_chain _ _ _ _ _ Hc).
      apply Nat.ltb_lt in Hf. now rewrite Hf.
    + rewrite (heap_ok_size _ _ _ _ H). simpl.
      pose proof (ok_end _ _ H) as He. rewrite end_addr_app in He.
      simpl in He. exact He.
Qed.

Lemma free_list_never_empty_witness :
  head demo_two <> NULL /\
  (brk (demo_os []) < heap_head demo_two + 2 ^ 32 ->
   exists fl t,
     chain (mem demo_two) (head demo_two) (fl ++ [t]) NULL /\
     (forall fuel, (length fl < fuel)%nat ->
                   tail_scan fuel (head demo_two) demo_two = Some t) /\
     t + sizeof_header + size (mem demo_two t)
     = heap_head demo_two + heap_size demo_two).
Proof.
  apply (free_list_never_empty demo_two (demo_os [])).
  apply (reach_step demo_one (demo_os [])).
  - apply (reach_step demo_state (demo_os [])).
    + apply demo_reachable.
    + apply (step_mymalloc _ _ 2%nat 16 65600). { lia. } reflexivity.
  - apply (step_mymalloc _ _ 2%nat 16 65632). { lia. } reflexivity.
Defined.

(** ** The lock *)

Lemma mymalloc_loop_under_lock sz : forall fuel st o,
  under_lock true (mymalloc_loop_events fuel sz st o) = true.
Proof.
  induction fuel as [|f IH]; intros st o; auto.
  cbn [mymalloc_loop_events under_lock andb].
  destruct (find_free_space (S f) sz st) as [fb|]; auto.
  destruct (negb (fb =? NULL)); auto.
  cbn [under_lock andb].
  destruct (expand_heap (S f) st o) as [[[r st1] o1]|]; auto.
  destruct (r =? 0); auto.
Qed.

(** A call of [mymalloc] that takes the lock and returns has released it
    last. *)
Lemma mymalloc_loop_events_unlock sz : forall fuel st o r,
  mymalloc_loop fuel sz st o = Some r ->
  exists t, mymalloc_loop_events fuel sz st o = t ++ [ev_unlock].
Proof.
  induction fuel as [|f IH]; intros st o r Hrun; [discriminate|].
  cbn [mymalloc_loop mymalloc_loop_events] in *.
  destruct (find_free_space (S f) sz st) as [fb|]; [|discriminate].
  destruct (negb (fb =? NULL)).
  - exists [ev_call c_find_free_space; ev_call c_shrink_free]. reflexivity.
  - destruct (expand_heap (S f) st o) as [[[r0 st1] o1]|]; [|discriminate].
    destruct (r0 =? 0).
    + exists [ev_call c_find_free_space; ev_call c_expand_heap]. reflexivity.
    + destruct (IH _ _ _ Hrun) as (t & ->).
      exists (ev_call c_find_free_space :: ev_call c_expand_heap :: t).
      reflexivity.
Qed.

(** The events of [myfree] follow its control flow: the lock is taken
    exactly when the call does not end with the result 1. *)
Lemma myfree_events_lock fuel ptr st :
  myfree fuel ptr st = Some (1, st) <-> ~ In ev_lock (myfree_events ptr st).
Proof.
  unfold myfree, myfree_events.
  destruct (ptr <? heap_head st); simpl.
  - split; auto.
  - destruct (ptr >? heap_head st + heap_size st - 8); simpl.
    + split; auto. intros _ [H|[]]. discriminate.
    + destruct (negb _); simpl.
      * split; auto. intros _ [H|[H|[]]]; discriminate.
      * split.
        -- destruct (insert_free_space _ _ _); discriminate.
        -- intros H. exfalso. apply H. auto.
Qed.

(** C9, as stated, fails: [myfree] reads the heap size and the link of
    the header before it takes the lock. *)
Lemma myfree_reads_before_lock :
  myfree_events 65600 demo_one
  = [ev_read_heap_size; ev_read_link 65584;
     ev_lock; ev_call c_insert_free_space; ev_unlock]
  /\ under_lock false (myfree_events 65600 demo_one) = false.
Proof. split; reflexivity. Qed.

(** C9, amended: every list operation that [mymalloc] and [myfree] call,
    and with it every write to the allocator state, happens while the
    lock is held; [myfree] makes its bounds check, which reads the heap
    size, and its read of the marker field before it takes the lock, and
    takes the lock only for the insertion. *)
Theorem lock_discipline :
  (forall fuel sz st o,
      under_lock false (mymalloc_events fuel sz st o) = true) /\
  (forall ptr st,
      exists checks locked,
        myfree_events ptr st = checks ++ locked /\
        (forall e, In e checks ->
                   e = ev_read_heap_size
                   \/ e = ev_read_link (ptr - sizeof_header)) /\
        (locked = []
         \/ locked = [ev_lock; ev_call c_insert_free_space; ev_unlock]) /\
        under_lock false locked = true) /\
  (forall fuel ptr st,
      myfree fuel ptr st = Some (1, st)
      <-> ~ In ev_lock (myfree_events ptr st)) /\
  (forall fuel sz st o r,
      sz <> 0 -> mymalloc fuel sz st o = Some r ->
      exists t, mymalloc_events fuel sz st o = ev_lock :: t ++ [ev_unlock]).
Proof.
  split; [|split; [|split]].
  - intros fuel sz st o. unfold mymalloc_events.
    destruct (sz =? 0); auto. apply mymalloc_loop_under_lock.
  - intros ptr st. unfold myfree_events.
    destruct (ptr <? heap_head st).
    { exists [], []. repeat split; auto. intros e []. }
    destruct (ptr >? heap_head st + heap_size st - 8).
    { exists [ev_read_heap_size], []. repeat split; auto.
      intros e [<-|[]]; auto. }
    destruct (negb _).
    + exists [ev_read_heap_size; ev_read_link (ptr - sizeof_header)], [].
      repeat split; auto. intros e [<-|[<-|[]]]; auto.
    + exists [ev_read_heap_size; ev_read_link (ptr - sizeof_header)],
        [ev_lock; ev_call c_insert_free_space; ev_unlock].
      repeat split; auto. intros e [<-|[<-|[]]]; auto.
  - apply myfree_events_lock.
  - intros fuel sz st o r Hsz. unfold mymalloc, mymalloc_events.
    apply Z.eqb_neq in Hsz. rewrite Hsz. intros Hrun.
    destruct (mymalloc_loop_events_unlock _ _ _ _ _ Hrun) as (t & ->).
    exists t. reflexivity.
Qed.

Lemma lock_discipline_witness :
  exists t,
    mymalloc_events 2 16 demo_state (demo_os []) = ev_lock :: t ++ [ev_unlock].
Proof.
  destruct lock_discipline as (_ & _ & _ & H4).
  apply (H4 2%nat 16 demo_state (demo_os []) (65600, demo_one, demo_os [])).
  - discriminate.
  - reflexivity.
Defined.

(** * Further properties of the code *)

(** ** Block lists without free neighbours *)

Lemma coalesced_app l1 l2 :
  coalesced (l1 ++ l2)
  = coalesced l1 && coalesced l2 && negb (ends_free l1 && starts_free l2).
Proof.
  induction l1 as [|b l1 IH].
  - simpl. now rewrite andb_true_r.
  - cbn [app coalesced]. rewrite IH. destruct l1 as [|b' l1'].
    + simpl. destruct (bfree b), (starts_free l2), (coalesced l2); reflexivity.
    + cbn [app starts_free ends_free].
      destruct (bfree b), (bfree b'), (coalesced (b' :: l1')), (coalesced l2),
        (ends_free (b' :: l1')), (starts_free l2); reflexivity.
Qed.

Lemma coalesced_merge_next s l2 :
  coalesced l2 = true ->
  coalesced (merge_next s l2) = true /\ starts_free (merge_next s l2) = true.
Proof.
  unfold merge_next. destruct l2 as [|[s2 [|]] lc]; simpl; auto.
Qed.

Lemma starts_free_merge_last b l x r :
  starts_free (merge_last (b :: l) (mkBlock x true :: r)) = bfree b.
Proof.
  cbn [merge_last]. destruct l; [|reflexivity].
  destruct (bfree b) eqn:E; simpl; auto.
Qed.

Lemma coalesced_merge_last x r : forall l1,
  coalesced l1 = true -> coalesced (mkBlock x true :: r) = true ->
  coalesced (merge_last l1 (mkBlock x true :: r)) = true.
Proof.
  induction l1 as [|b l1 IH]; intros H1 H2; auto.
  cbn [coalesced] in H1. apply andb_true_iff in H1. destruct H1 as [Hb H1].
  destruct l1 as [|b' l1'].
  - cbn [merge_last]. destruct (bfree b) eqn:E.
    + simpl in *. exact H2.
    + simpl in *. rewrite E. simpl. exact H2.
  - change (merge_last (b :: b' :: l1') (mkBlock x true :: r))
      with (b :: merge_last (b' :: l1') (mkBlock x true :: r)).
    cbn [coalesced]. rewrite starts_free_merge_last, IH by assumption.
    simpl in Hb. rewrite Hb. reflexivity.
Qed.

Lemma coalesced_released l1 s l2 :
  coalesced (l1 ++ mkBlock s false :: l2) = true ->
  coalesced (released l1 s l2) = true.
Proof.
  rewrite coalesced_app. intros H.
  apply andb_true_iff in H. destruct H as [H _].
  apply andb_true_iff in H. destruct H as [H1 H2]. simpl in H2.
  destruct (coalesced_merge_next s l2 H2) as [H3 _].
  destruct (merge_next_shape s l2) as (x & r & E).
  unfold released. rewrite E in *. now apply coalesced_merge_last.
Qed.

Lemma blocks_step_coalesced bs bs' :
  blocks_step bs bs' -> coalesced bs = true -> coalesced bs' = true.
Proof.
  intros [l1 s l2 n _ _ _|l1 s l2|l s n _ _].
  - rewrite !coalesced_app. simpl.
    destruct (coalesced l1), (ends_free l1), (starts_free l2), (coalesced l2);
      simpl; auto.
  - apply coalesced_released.
  - rewrite !coalesced_app. simpl. auto.
Qed.

Lemma blocks_run_coalesced bs bs' :
  blocks_run bs bs' -> coalesced bs = true -> coalesced bs' = true.
Proof.
  induction 1; auto. intros. eapply blocks_step_coalesced; eauto.
Qed.

Lemma no_free_neighbours_walk bs : forall a,
  no_free_neighbours (walk_of a bs) = coalesced bs.
Proof.
  induction bs as [|b bs IH]; intros a; auto.
  cbn [walk_of no_free_neighbours coalesced]. rewrite IH.
  destruct bs as [|b' bs']; simpl.
  - now rewrite andb_false_r.
  - destruct (bfree b), (bfree b'); reflexivity.
Qed.

(** Between a free block and the next free block lies a used block. *)
Lemma free_addrs_apart m u nf : forall bs a,
  repr m u a bs nf -> coalesced bs = true ->
  apart m (free_addrs a bs).
Proof.
  induction bs as [|b bs IH]; intros a Hr Hc; simpl; auto.
  simpl in Hr. destruct Hr as (Hsz & Hs & _ & Hr).
  cbn [coalesced] in Hc. apply andb_true_iff in Hc. destruct Hc as [Hb Hc].
  specialize (IH _ Hr Hc).
  destruct (bfree b) eqn:E; simpl; auto.
  split; [|exact IH].
  destruct (free_addrs (after a b) bs) as [|a' fl] eqn:Ef; auto.
  destruct bs as [|c bs']; [discriminate|].
  simpl in Hb. apply negb_true_iff in Hb.
  simpl in Ef. rewrite Hb in Ef. simpl in Ef.
  simpl in Hr. destruct Hr as (_ & Hsc & _ & Hr').
  assert (Hin : In a' (free_addrs (after (after a b) c) bs'))
    by (rewrite Ef; now left).
  apply (free_addrs_range _ _ _ _ _ _ Hr') in Hin.
  rewrite Hsz. consts. lia.
Qed.

Lemma reachable_coalesced st o :
  reachable st o -> brk o < heap_head st + 2 ^ 32 ->
  exists bs, inv st o bs /\ coalesced bs = true /\ sizes_aligned bs.
Proof.
  intros Hr Hlim.
  destruct (reachable_inv_blocks _ _ Hr Hlim) as (bs & Hinv & Hrun).
  exists bs. split; [exact Hinv|]. split.
  - apply (blocks_run_coalesced _ _ Hrun). reflexivity.
  - apply (blocks_run_aligned _ _ Hrun). repeat constructor.
Qed.

(** A free block whose successor in the heap is not free does not touch
    the next node of the free list. *)
Lemma coalescing_idle st l1 s l2 :
  heap_ok st (l1 ++ mkBlock s true :: l2) -> starts_free l2 = false ->
  coalescing (end_addr (first_block st) l1) st = st.
Proof.
  intros H Hl2.
  pose proof (heap_ok_bounds _ _ _ _ H) as (Hlo & Hhi & Hs).
  pose proof (ok_base _ _ H) as Hbase.
  pose proof (ok_repr _ _ H) as Hr.
  apply repr_app in Hr. destruct Hr as [_ Hr].
  set (A := end_addr (first_block st) l1) in *.
  simpl in Hr. destruct Hr as (Hsz & _ & Hn & Hr).
  unfold coalescing.
  replace (A + size (mem st A) + sizeof_header =? next (mem st A)) with false;
    [reflexivity|].
  symmetry. apply Z.eqb_neq. rewrite Hsz, Hn. simpl.
  destruct l2 as [|c l2']; simpl.
  - zlia.
  - simpl in Hl2. rewrite Hl2. simpl in Hr. destruct Hr as (_ & Hc & _ & Hr).
    destruct (first_free_range _ _ _ _ _ Hr) as [E|E]; rewrite ?E; zlia.
Qed.

Lemma demo_two_reachable : reachable demo_two (demo_os []).
Proof.
  apply (reach_step demo_one (demo_os [])).
  - apply (reach_step demo_state (demo_os [])).
    + apply demo_reachable.
    + apply (step_mymalloc _ _ 2%nat 16 65600). { lia. } reflexivity.
  - apply (step_mymalloc _ _ 2%nat 16 65632). { lia. } reflexivity.
Qed.

Lemma demo_freed_reachable : reachable demo_freed (demo_os []).
Proof.
  apply (reach_step demo_two (demo_os [])).
  - apply demo_two_reachable.
  - apply (step_myfree _ _ 2%nat 65600 0). vm_compute. reflexivity.
Qed.

(** ** The free list of a reachable state *)

(** X1: in every reachable state, while the heap is below 2^32 bytes,
    no two neighbouring blocks of the heap are free, and the free list
    shows it: its nodes lie inside the heap, each node ends below its
    successor with room for the header of a used block between them,
    and [coalescing] called on any node finds nothing to merge and
    leaves the state as it is. *)
Theorem free_list_coalesced (st : state) (o : os) :
  reachable st o -> brk o < heap_head st + 2 ^ 32 ->
  no_free_neighbours (all_blocks st) = true /\
  exists fl,
    chain (mem st) (head st) fl NULL /\
    apart (mem st) fl /\
    forall a, In a fl ->
      first_block st <= a /\ 0 <= size (mem st a) /\
      a + sizeof_header + size (mem st a) <= heap_head st + heap_size st /\
      coalescing a st = st.
Proof.
  intros Hr Hlim.
  destruct (reachable_coalesced _ _ Hr Hlim) as (bs & (H & _ & _) & Hc & _).
  split.
  - rewrite (all_blocks_ok _ _ H). rewrite no_free_neighbours_walk. exact Hc.
  - exists (free_addrs (first_block st) bs).
    split; [apply heap_ok_chain; exact H|].
    split; [eapply free_addrs_apart; [apply (ok_repr _ _ H)|exact Hc]|].
    intros a Hin.
    destruct (free_addrs_in _ _ _ Hin) as (l1 & s & l2 & -> & ->).
    pose proof (heap_ok_bounds _ _ _ _ H) as (Hlo & Hhi & Hs).
    rewrite (heap_ok_size _ _ _ _ H). simpl.
    split; [exact Hlo|]. split; [exact Hs|]. split; [zlia|].
    apply (coalescing_idle _ _ _ _ H).
    destruct (starts_free l2) eqn:E; auto. exfalso.
    rewrite coalesced_app in Hc. cbn [coalesced] in Hc. rewrite E in Hc.
    destruct (coalesced l1), (coalesced l2), (ends_free l1); discriminate.
Qed.

Lemma free_list_coalesced_witness :
  no_free_neighbours (all_blocks demo_freed) = true /\
  exists fl,
    chain (mem demo_freed) (head demo_freed) fl NULL /\
    apart (mem demo_freed) fl /\
    forall a, In a fl ->
      first_block demo_freed <= a /\ 0 <= size (mem demo_freed a) /\
      a + sizeof_header + size (mem demo_freed a)
      <= heap_head demo_freed + heap_size demo_freed /\
      coalescing a demo_freed = demo_freed.
Proof.
  apply (free_list_coalesced demo_freed (demo_os [])).
  - apply demo_freed_reachable.
  - vm_compute. reflexivity.
Defined.

(** ** Freeing, on the list of blocks *)

Lemma walk_of_inj : forall bs bs' a,
  walk_of a bs = walk_of a bs' -> bs = bs'.
Proof.
  induction bs as [|[s f] bs IH]; intros [|[s' f'] bs'] a H;
    try discriminate; auto.
  cbn [walk_of bsize bfree] in H. injection H as Hs Hf Hw. subst s'.
  assert (f = f') by (destruct f, f'; simpl in Hf; congruence). subst f'.
  f_equal. eapply IH; eauto.
Qed.

(** The blocks that a walk over the heap of a reachable state finds are
    the blocks of the invariant. *)
Lemma reachable_blocks st o bs :
  reachable st o -> brk o < heap_head st + 2 ^ 32 ->
  all_blocks st = walk_of (first_block st) bs ->
  inv st o bs /\ coalesced bs = true /\ sizes_aligned bs.
Proof.
  intros Hr Hlim Hw.
  destruct (reachable_coalesced _ _ Hr Hlim) as (bs0 & Hinv & Hc & Hal).
  destruct Hinv as (H & Hm & Hb).
  rewrite (all_blocks_ok _ _ H) in Hw. apply walk_of_inj in Hw. subst bs0.
  split; [exact (conj H (conj Hm Hb))|auto].
Qed.

(** X2: [myfree] of the payload of a used block, in a reachable state
    below 2^32 bytes and with fuel for the blocks in front of it,
    returns 0 and leaves the heap with the block free and merged: with
    the block behind it when that one is free, and with the block in
    front of it when that one is free.  The globals other than the list
    head stay as they are. *)
Theorem myfree_releases
  (st : state) (o : os) (l1 : list block) (s : Z) (l2 : list block)
  (fuel : nat) :
  reachable st o -> brk o < heap_head st + 2 ^ 32 ->
  all_blocks st = walk_of (first_block st) (l1 ++ mkBlock s false :: l2) ->
  (length l1 < fuel)%nat ->
  exists st',
    myfree fuel (end_addr (first_block st) l1 + sizeof_header) st
    = Some (0, st') /\
    all_blocks st' = walk_of (first_block st) (released l1 s l2) /\
    same_globals st st'.
Proof.
  intros Hr Hlim Hw Hf.
  destruct (reachable_blocks _ _ _ Hr Hlim Hw) as (Hinv & _ & _).
  destruct (myfree_used_released st o l1 s l2 fuel Hinv Hf)
    as (st' & bs' & Hrun & (H' & _ & _) & _ & -> & G).
  exists st'. split; [exact Hrun|]. split; [|exact G].
  rewrite (all_blocks_ok _ _ H'), (same_globals_first_block _ _ G).
  reflexivity.
Qed.

Lemma myfree_releases_witness :
  exists st',
    myfree 2 (end_addr (first_block demo_two) [mkBlock 16 false]
              + sizeof_header) demo_two
    = Some (0, st') /\
    all_blocks st'
    = walk_of (first_block demo_two)
              (released [mkBlock 16 false] 16 [mkBlock 3968 true]) /\
    same_globals demo_two st'.
Proof.
  apply (myfree_releases demo_two (demo_os [])).
  - apply demo_two_reachable.
  - vm_compute. reflexivity.
  - vm_compute. reflexivity.
  - simpl. lia.
Defined.

(** X3: a pointer that [myfree] has just freed is rejected when it is
    freed again: in a reachable state below 2^32 bytes, after [myfree]
    returned 0 for a pointer, [myfree] of the same pointer returns 1 and
    changes nothing. *)
Theorem myfree_twice
  (st : state) (o : os) (fuel : nat) (p : Z) (st' : state) :
  reachable st o -> brk o < heap_head st + 2 ^ 32 ->
  myfree fuel p st = Some (0, st') ->
  forall fuel', myfree fuel' p st' = Some (1, st').
Proof.
  intros Hr Hlim Hrun fuel'.
  destruct (reachable_inv _ _ Hr Hlim) as (bs & H & Hm & Hb).
  unfold myfree in Hrun.
  destruct (_ || _) eqn:Eb; [discriminate|].
  destruct (next (mem st (p - sizeof_header)) =? used_head st) eqn:E;
    simpl in Hrun; [|discriminate].
  apply Z.eqb_eq, Hm, used_addrs_in in E.
  destruct E as (l1 & s & l2 & -> & E). rewrite E in Hrun.
  pose proof (heap_ok_bounds _ _ _ _ H) as (_ & _ & Hs).
  destruct (insert_free_space_ok st l1 s l2 H Hm)
    as (st2 & bs2 & Hany & _ & H2 & Hm2 & G & Hc & _ & _).
  destruct (Hany fuel) as [E2|E2]; rewrite E2 in Hrun; [discriminate|].
  injection Hrun as <-.
  rewrite <- (same_globals_first_block _ _ G) in Hc.
  destruct (covers_in _ _ _ _ Hc) as (la & s' & lb & -> & Hlo & Hhi).
  unfold myfree. destruct G as (Gu & Gc & Gs & Gh & Gl).
  rewrite Gh, Gs, Eb.
  replace (next (mem st2 (p - sizeof_header)) =? used_head st2) with false;
    [reflexivity|].
  symmetry. apply Z.eqb_neq. intros Hx.
  destruct (marker_outside_free _ _ _ _ _ H2 Hm2 Hx) as [Hlt|Hge];
    rewrite E in *; unfold first_block in *; rewrite Gh in *; zlia.
Qed.

Lemma myfree_twice_witness :
  myfree 5 65600 demo_freed = Some (1, demo_freed).
Proof.
  apply (myfree_twice demo_two (demo_os []) 2 65600 demo_freed).
  - apply demo_two_reachable.
  - vm_compute. reflexivity.
  - vm_compute. reflexivity.
Defined.

(** ** Allocation and the blocks in use *)

Lemma used_block_end m u nf x : forall l a,
  repr m u a l nf -> In x (used_addrs a l) ->
  x + sizeof_header + size (m x) <= end_addr a l.
Proof.
  induction l as [|b l IH]; simpl; intros a H Hin; [easy|].
  destruct H as (Hsz & Hs & _ & Hr).
  pose proof (repr_end_ge _ _ _ _ _ Hr) as Hge.
  apply in_app_or in Hin. destruct Hin as [Hin|Hin].
  - destruct (bfree b); simpl in Hin; [easy|].
    destruct Hin as [<-|[]]. rewrite Hsz. consts. lia.
  - apply (IH _ Hr Hin).
Qed.

Lemma header_addrs_range m u nf x : forall bs a,
  repr m u a bs nf -> In x (header_addrs (walk_of a bs)) ->
  a <= x /\ 0 <= size (m x) /\
  x + sizeof_header + size (m x) <= end_addr a bs.
Proof.
  induction bs as [|b bs IH]; simpl; intros a H Hin; [easy|].
  destruct H as (Hsz & Hs & _ & Hr).
  pose proof (repr_end_ge _ _ _ _ _ Hr) as Hge.
  destruct Hin as [<-|Hin].
  - rewrite Hsz. consts. lia.
  - destruct (IH _ Hr Hin) as (H1 & H2 & H3). consts. lia.
Qed.

(** Two blocks of the heap do not overlap. *)
Lemma blocks_apart m u nf x y : forall bs a,
  repr m u a bs nf ->
  In x (header_addrs (walk_of a bs)) -> In y (header_addrs (walk_of a bs)) ->
  x <> y ->
  x + sizeof_header + size (m x) <= y \/ y + sizeof_header + size (m y) <= x.
Proof.
  induction bs as [|b bs IH]; simpl; intros a H Hx Hy Hne; [easy|].
  destruct H as (Hsz & Hs & _ & Hr).
  destruct Hx as [<-|Hx], Hy as [<-|Hy].
  - now contradict Hne.
  - left. apply (header_addrs_range _ _ _ _ _ _ Hr) in Hy.
    rewrite Hsz. consts. lia.
  - right. apply (header_addrs_range _ _ _ _ _ _ Hr) in Hx.
    rewrite Hsz. consts. lia.
  - eapply IH; eauto.
Qed.

Lemma used_addrs_header x : forall bs a,
  In x (used_addrs a bs) -> In x (header_addrs (walk_of a bs)).
Proof.
  induction bs as [|b bs IH]; simpl; intros a Hin; auto.
  apply in_app_or in Hin. destruct Hin as [Hin|Hin]; auto.
  destruct (bfree b); simpl in Hin; [easy|]. destruct Hin as [<-|[]]. auto.
Qed.

Lemma free_addrs_header x : forall bs a,
  In x (free_addrs a bs) -> In x (header_addrs (walk_of a bs)).
Proof.
  induction bs as [|b bs IH]; simpl; intros a Hin; auto.
  apply in_app_or in Hin. destruct Hin as [Hin|Hin]; auto.
  destruct (bfree b); simpl in Hin; [|easy]. destruct Hin as [<-|[]]. auto.
Qed.

Lemma used_not_free m u nf x : forall bs a,
  repr m u a bs nf -> In x (used_addrs a bs) -> ~ In x (free_addrs a bs).
Proof.
  induction bs as [|b bs IH]; simpl; intros a H Hu Hf; auto.
  destruct H as (_ & Hs & _ & Hr).
  apply in_app_or in Hu. apply in_app_or in Hf.
  destruct Hu as [Hu|Hu], Hf as [Hf|Hf].
  - destruct (bfree b); simpl in *; auto.
  - destruct (bfree b); simpl in Hu; [easy|]. destruct Hu as [<-|[]].
    apply (free_addrs_range _ _ _ _ _ _ Hr) in Hf. consts. lia.
  - destruct (bfree b); simpl in Hf; [|easy]. destruct Hf as [<-|[]].
    apply (used_addrs_range _ _ _ _ _ _ Hr) in Hu. consts. lia.
  - eapply IH; eauto.
Qed.

(** The addresses at which a header would overlap a block in use: none
    of them is the header of a free block, and each lies before the
    block or behind a free block that it is compared with. *)
Lemma live_keys st bs h k w :
  heap_ok st bs -> marks_ok st bs ->
  next (mem st h) = used_head st ->
  h - sizeof_header < k < h + sizeof_header + size (mem st h) ->
  In w (header_addrs (walk_of (first_block st) bs)) -> w <> h ->
  k < w \/ w + size (mem st w) < k.
Proof.
  intros H Hm Hh Hk Hw Hne. apply Hm, used_addrs_header in Hh.
  pose proof (header_addrs_range _ _ _ _ _ _ (ok_repr _ _ H) Hw)
    as (_ & Hsw & _).
  destruct (blocks_apart _ _ _ _ _ _ _ (ok_repr _ _ H) Hh Hw
              ltac:(congruence)); consts; lia.
Qed.

Lemma live_keys_free st bs h k w :
  heap_ok st bs -> marks_ok st bs ->
  next (mem st h) = used_head st ->
  h - sizeof_header < k < h + sizeof_header + size (mem st h) ->
  In w (free_addrs (first_block st) bs) ->
  k < w \/ w + size (mem st w) < k.
Proof.
  intros H Hm Hh Hk Hw.
  eapply live_keys; eauto using free_addrs_header.
  intros ->. apply Hm in Hh.
  exact (used_not_free _ _ _ _ _ _ (ok_repr _ _ H) Hh Hw).
Qed.

Lemma last_free_addr_in a bs p :
  last_free_addr a bs = Some p -> In p (free_addrs a bs).
Proof.
  intros E. pose proof (free_addrs_last a bs) as Hl. rewrite E in Hl.
  destruct Hl as (fl & ->). apply in_or_app. right. now left.
Qed.

(** [expand_heap] writes to the header of a free block only. *)
Lemma expand_heap_writes fuel st o bs r st' o' :
  heap_ok st bs -> expand_heap fuel st o = Some (r, st', o') ->
  forall x, ~ In x (free_addrs (first_block st) bs) -> mem st' x = mem st x.
Proof.
  intros H. unfold expand_heap. destruct (sbrk _ o) as [p o1].
  destruct (p =? MINUS_ONE_PTR); [intros [= <- <- <-]; reflexivity|].
  destruct (ends_free_last _ (ok_last _ _ H)) as (l & s & ->).
  pose proof (heap_ok_chain _ _ H) as Hchain.
  rewrite free_addrs_app in *. simpl in *.
  rewrite (tail_scan_chain
             (set_expansion_counter (sint (expansion_counter st + 1)) st)
             _ _ fuel (head st) Hchain).
  destruct (_ <? _)%nat; [|discriminate].
  intros [= <- <- <-] x Hx. simpl. apply store_other.
  intros ->. apply Hx. apply in_or_app. right. now left.
Qed.

(** [mymalloc] leaves the blocks in use alone: it writes no header that
    overlaps one. *)
Lemma mymalloc_loop_frame sz : forall fuel st o bs p st' o',
  inv st o bs -> 0 <= sz ->
  mymalloc_loop fuel sz st o = Some (p, st', o') ->
  brk o' < heap_head st + 2 ^ 32 ->
  forall h, next (mem st h) = used_head st ->
  forall k, h - sizeof_header < k < h + sizeof_header + size (mem st h) ->
            mem st' k = mem st k.
Proof.
  induction fuel as [|f IH];
    intros st o bs p st' o' (H & Hm & Hb) Hsz Hrun Hlim h Hh k Hk;
    [discriminate|].
  cbn [mymalloc_loop] in Hrun.
  destruct (find_free_space (S f) sz st) as [fb|] eqn:Ef; [|discriminate].
  destruct (fb =? NULL) eqn:Enull; simpl in Hrun.
  - destruct (expand_heap (S f) st o) as [[[r st1] o1]|] eqn:E; [|discriminate].
    pose proof (expand_heap_brk _ _ _ _ _ _ E) as [Hb1 Hh1].
    assert (Hfr : forall k,
              h - sizeof_header < k < h + sizeof_header + size (mem st h) ->
              mem st1 k = mem st k).
    { intros k' Hk'. apply (expand_heap_writes _ _ _ _ _ _ _ H E).
      intros Hin.
      pose proof (header_addrs_range _ _ _ _ _ _ (ok_repr _ _ H)
                    (free_addrs_header _ _ _ Hin)) as (_ & Hs' & _).
      destruct (live_keys_free _ _ _ _ _ H Hm Hh Hk' Hin); lia. }
    destruct (r =? 0); [injection Hrun as <- <- <-; auto|].
    assert (Hlim1 : brk o1 < heap_head st + 2 ^ 32).
    { apply mymalloc_loop_brk in Hrun. lia. }
    destruct (expand_heap_ok _ _ _ _ _ _ _ H Hm Hb E Hlim1)
      as (bs1 & H1 & Hm1 & Hbr1 & _).
    assert (Hsame : mem st1 h = mem st h).
    { apply Hfr. apply Hm, used_addrs_header in Hh.
      pose proof (header_addrs_range _ _ _ _ _ _ (ok_repr _ _ H) Hh).
      consts. lia. }
    rewrite <- (Hfr _ Hk).
    apply (IH _ _ _ _ _ _ (conj H1 (conj Hm1 Hbr1)) Hsz Hrun) with (h := h).
    + rewrite Hh1. exact Hlim.
    + rewrite Hsame, Hh, (ok_used _ _ H), (ok_used _ _ H1). reflexivity.
    + rewrite Hsame. exact Hk.
  - apply Z.eqb_neq in Enull.
    destruct (find_free_space_ok _ _ _ _ _ H Ef Enull)
      as (l1 & s & l2 & -> & -> & Hfit).
    destruct (shrink_free_ok st l1 s l2 sz H Hsz Hfit)
      as (st2 & Hany & _ & _ & _ & _ & _ & _ & _ & _ & Hx2).
    destruct (Hany (S f)) as [E|E]; rewrite E in Hrun; [discriminate|].
    injection Hrun as <- <- <-.
    set (A := end_addr (first_block st) l1) in *.
    assert (HA : In A (free_addrs (first_block st)
                         (l1 ++ mkBlock s true :: l2))).
    { rewrite free_addrs_app. apply in_or_app. right. now left. }
    pose proof (live_keys_free _ _ _ _ _ H Hm Hh Hk HA) as HkA.
    pose proof (heap_ok_size _ _ _ _ H) as Es. fold A in Es. simpl in Es.
    rewrite Es in HkA.
    apply Hx2; try zlia.
    destruct (last_free_addr (first_block st) l1) as [P|] eqn:EP; [|easy].
    intros [= ->].
    assert (HP : In P (free_addrs (first_block st)
                         (l1 ++ mkBlock s true :: l2))).
    { rewrite free_addrs_app. apply in_or_app. left.
      now apply last_free_addr_in. }
    pose proof (header_addrs_range _ _ _ _ _ _ (ok_repr _ _ H)
                  (free_addrs_header _ _ _ HP)) as (_ & Hs' & _).
    destruct (live_keys_free _ _ _ _ _ H Hm Hh Hk HP); lia.
Qed.

(** The block that [mymalloc] hands out did not carry the marker. *)
Lemma mymalloc_loop_fresh sz : forall fuel st o bs p st' o',
  inv st o bs -> 0 <= sz ->
  mymalloc_loop fuel sz st o = Some (p, st', o') -> p <> NULL ->
  brk o' < heap_head st + 2 ^ 32 ->
  next (mem st (p - sizeof_header)) <> used_head st.
Proof.
  induction fuel as [|f IH];
    intros st o bs p st' o' (H & Hm & Hb) Hsz Hrun Hp Hlim; [discriminate|].
  cbn [mymalloc_loop] in Hrun.
  destruct (find_free_space (S f) sz st) as [fb|] eqn:Ef; [|discriminate].
  destruct (fb =? NULL) eqn:Enull; simpl in Hrun.
  - destruct (expand_heap (S f) st o) as [[[r st1] o1]|] eqn:E; [|discriminate].
    pose proof (expand_heap_brk _ _ _ _ _ _ E) as [Hb1 Hh1].
    pose proof (expand_heap_frame _ _ _ _ _ _ (ok_used _ _ H) E) as Hfr1.
    destruct (r =? 0); [injection Hrun as <- <- <-; now contradict Hp|].
    assert (Hlim1 : brk o1 < heap_head st + 2 ^ 32).
    { apply mymalloc_loop_brk in Hrun. lia. }
    destruct (expand_heap_ok _ _ _ _ _ _ _ H Hm Hb E Hlim1)
      as (bs1 & H1 & Hm1 & Hbr1 & _).
    intros Hx.
    apply (IH _ _ _ _ _ _ (conj H1 (conj Hm1 Hbr1)) Hsz Hrun Hp);
      [rewrite Hh1; exact Hlim|].
    rewrite (Hfr1 _ Hx), Hx, (ok_used _ _ H), (ok_used _ _ H1). reflexivity.
  - apply Z.eqb_neq in Enull.
    destruct (find_free_space_ok _ _ _ _ _ H Ef Enull)
      as (l1 & s & l2 & -> & -> & Hfit).
    destruct (shrink_free_ok st l1 s l2 sz H Hsz Hfit)
      as (st2 & Hany & _).
    destruct (Hany (S f)) as [E|E]; rewrite E in Hrun; [discriminate|].
    injection Hrun as <- <- <-.
    replace (end_addr (first_block st) l1 + sizeof_header - sizeof_header)
      with (end_addr (first_block st) l1) by lia.
    intros Hx.
    pose proof (heap_ok_bounds _ _ _ _ H) as (_ & _ & Hs).
    destruct (marker_outside_free _ _ _ _ _ H Hm Hx); zlia.
Qed.

(** X4: [mymalloc] neither touches nor hands out memory that is in
    use.  In a reachable state below 2^32 bytes, for every header that
    carries the marker before the call: no address at which a header
    would overlap its block, header and payload, is written, so the
    block is in use afterwards as it was; and the block that [mymalloc]
    returns lies apart from it, the one ending before the header of the
    other. *)
Theorem mymalloc_fresh
  (st : state) (o : os) (fuel : nat) (sz p : Z) (st' : state) (o' : os) :
  reachable st o -> 0 <= sz < 2 ^ 32 ->
  mymalloc fuel sz st o = Some (p, st', o') ->
  brk o' < heap_head st' + 2 ^ 32 ->
  forall h, next (mem st h) = used_head st ->
    (forall k, h - sizeof_header < k < h + sizeof_header + size (mem st h) ->
               mem st' k = mem st k) /\
    (p <> NULL ->
     h + sizeof_header + size (mem st h) <= p - sizeof_header
     \/ p + round_up sz <= h).
Proof.
  intros Hr Hsz Hrun Hlim h Hh.
  destruct (mymalloc_brk _ _ _ _ _ _ _ Hrun) as [Hb Hhead].
  destruct (reachable_inv _ _ Hr) as (bs & Hinv); [lia|].
  rewrite Hhead in Hlim.
  destruct (mymalloc_ok _ _ _ _ _ _ _ _ Hinv Hsz Hrun Hlim)
    as (bs' & (H' & Hm' & _) & Hblk & Hfr & _).
  split.
  { unfold mymalloc in Hrun. destruct (sz =? 0).
    - injection Hrun as <- <- <-. auto.
    - apply (mymalloc_loop_frame _ _ _ _ _ _ _ _ Hinv
               (proj1 (round_up_range _ Hsz)) Hrun Hlim _ Hh). }
  intros Hp.
  assert (Hfresh : next (mem st (p - sizeof_header)) <> used_head st).
  { unfold mymalloc in Hrun. destruct (sz =? 0).
    - injection Hrun as <- <- <-. now contradict Hp.
    - apply (mymalloc_loop_fresh _ _ _ _ _ _ _ _ Hinv
               (proj1 (round_up_range _ Hsz)) Hrun Hp Hlim). }
  destruct Hinv as (H & _ & _).
  destruct (Hblk Hp) as (l1 & l2 & -> & ->).
  set (A := end_addr (first_block st') l1) in *.
  replace (A + sizeof_header - sizeof_header) with A in * by lia.
  assert (Hx' : next (mem st' h) = used_head st').
  { rewrite (Hfr _ Hh), Hh, (ok_used _ _ H), (ok_used _ _ H'). reflexivity. }
  apply Hm' in Hx'. rewrite used_addrs_app in Hx'. fold A in Hx'.
  pose proof (ok_repr _ _ H') as Hrep.
  apply repr_app in Hrep. destruct Hrep as [Hpre Hsuf]. fold A in Hsuf.
  simpl in Hsuf. destruct Hsuf as (_ & _ & _ & Hl2).
  apply in_app_or in Hx'. destruct Hx' as [Hin|Hin].
  - left. rewrite <- (Hfr _ Hh).
    apply (used_block_end _ _ _ _ _ _ Hpre Hin).
  - simpl in Hin. destruct Hin as [<-|Hin]; [now contradict Hfresh|].
    right. apply (used_addrs_range _ _ _ _ _ _ Hl2) in Hin. zlia.
Qed.

Lemma mymalloc_fresh_witness :
  next (mem demo_one 65584) = used_head demo_one /\
  (forall k,
      65584 - sizeof_header < k
      < 65584 + sizeof_header + size (mem demo_one 65584) ->
      mem demo_two k = mem demo_one k) /\
  (65632 <> NULL ->
   65584 + sizeof_header + size (mem demo_one 65584) <= 65632 - sizeof_header
   \/ 65632 + round_up 16 <= 65584).
Proof.
  split; [vm_compute; reflexivity|].
  apply (mymalloc_fresh demo_one (demo_os []) 2 16 65632 demo_two (demo_os [])).
  - apply (reach_step demo_state (demo_os [])).
    + apply demo_reachable.
    + apply (step_mymalloc _ _ 2%nat 16 65600). { lia. } reflexivity.
  - lia.
  - vm_compute. reflexivity.
  - vm_compute. reflexivity.
  - vm_compute. reflexivity.
Defined.

(** The scan of [insert_free_space] stops at a node of the list. *)
Lemma insert_scan_in st old : forall l fuel t r,
  chain (mem st) t l NULL -> insert_scan fuel t old st = Some r -> In r l.
Proof.
  induction l as [|a l IH]; intros [|f] t r H E; simpl in *;
    try discriminate.
  - subst t. rewrite Z.eqb_refl in E. discriminate.
  - destruct H as (-> & Ha & Hc). apply Z.eqb_neq in Ha. rewrite Ha in E.
    destruct (negb (next (mem st a) =? NULL) && (next (mem st a) <? old)).
    + right. eapply IH; eauto.
    + injection E as <-. now left.
Qed.

(** [insert_free_space] writes to the header it is given and to the one
    its scan stops at, whatever the store holds. *)
Lemma insert_free_space_writes fuel a st st' :
  insert_free_space fuel a st = Some st' ->
  forall x, x <> a ->
            (forall t, insert_scan fuel (head st) a st = Some t -> x <> t) ->
            mem st' x = mem st x.
Proof.
  unfold insert_free_space. destruct (a <? head st).
  - intros [= <-] x Hx _. simpl head.
    rewrite coalescing_mem_other by exact Hx. simpl. now apply store_other.
  - destruct (insert_scan fuel (head st) a st) as [t|]; [|discriminate].
    intros [= <-] x Hx Ht. specialize (Ht t eq_refl). cbv zeta.
    rewrite coalescing_mem_other by exact Ht.
    set (st1 := if negb (next (mem st t) =? NULL)
                then set_next a (next (mem st t)) st else st).
    rewrite store_same. cbn [next].
    rewrite coalescing_mem_other by exact Hx.
    simpl. rewrite store_other by exact Ht. unfold st1.
    destruct (negb (next (mem st t) =? NULL)); [|reflexivity].
    simpl. now apply store_other.
Qed.

(** The addresses at which a header would overlap a block of the heap
    lie before or behind every other block. *)
Lemma block_keys st bs h k w :
  heap_ok st bs ->
  In h (header_addrs (walk_of (first_block st) bs)) ->
  h - sizeof_header < k < h + sizeof_header + size (mem st h) ->
  In w (header_addrs (walk_of (first_block st) bs)) -> w <> h ->
  k <> w.
Proof.
  intros H Hh Hk Hw Hne.
  pose proof (header_addrs_range _ _ _ _ _ _ (ok_repr _ _ H) Hw)
    as (_ & Hsw & _).
  destruct (blocks_apart _ _ _ _ _ _ _ (ok_repr _ _ H) Hh Hw
              ltac:(congruence)); consts; lia.
Qed.

(** A block in use lies 16 bytes or more before the end of the heap:
    its payload pointer passes the bounds check of [myfree]. *)
Lemma used_block_room st l1 s l2 :
  heap_ok st (l1 ++ mkBlock s false :: l2) ->
  heap_head st + sizeof_free_list <= end_addr (first_block st) l1 /\
  end_addr (first_block st) l1 + sizeof_header + s + sizeof_header
  <= heap_head st + heap_size st.
Proof.
  intros H. pose proof (heap_ok_bounds _ _ _ _ H) as (Hlo & Hhi & Hs).
  split; [zlia|].
  destruct l2 as [|b l2'].
  - pose proof (ok_last _ _ H) as Hl. rewrite ends_free_app in Hl.
    discriminate.
  - assert (H' := H).
    change (l1 ++ mkBlock s false :: b :: l2')
      with (l1 ++ [mkBlock s false] ++ b :: l2') in H'.
    rewrite app_assoc in H'.
    pose proof (heap_ok_bounds _ _ _ _ H') as (_ & Hhi' & Hs').
    rewrite end_addr_app in Hhi'. simpl in Hhi'. zlia.
Qed.

(** X5: [myfree] of a block in use leaves the other blocks in use alone,
    whatever their payloads hold.  On a well-formed heap, with no
    assumption on the store outside the headers of its blocks, when
    [myfree] is called with the payload pointer of a block in use and
    returns, it returns 0, and for every other block in use no address
    at which a header would overlap that block, header and payload, is
    written. *)
Theorem myfree_keeps_others
  (st : state) (bs : list block) (fuel : nat) (p r : Z) (st' : state) :
  heap_ok st bs ->
  In (p - sizeof_header) (used_addrs (first_block st) bs) ->
  myfree fuel p st = Some (r, st') ->
  r = 0 /\
  forall h, In h (used_addrs (first_block st) bs) -> h <> p - sizeof_header ->
  forall k, h - sizeof_header < k < h + sizeof_header + size (mem st h) ->
            mem st' k = mem st k.
Proof.
  intros H Hp Hrun.
  destruct (used_addrs_in _ _ _ Hp) as (l1 & s & l2 & -> & E).
  pose proof (used_block_room _ _ _ _ H) as (Hlo & Hhi).
  pose proof (heap_ok_bounds _ _ _ _ H) as (_ & _ & Hs).
  pose proof (ok_repr _ _ H) as Hr.
  apply repr_app in Hr. destruct Hr as [_ Hsuf].
  simpl in Hsuf. destruct Hsuf as (_ & _ & Hnx & _).
  rewrite <- E in Hlo, Hhi, Hnx.
  unfold myfree in Hrun.
  replace (p <? heap_head st) with false in Hrun
    by (symmetry; apply Z.ltb_ge; zlia).
  replace (p >? heap_head st + heap_size st - 8) with false in Hrun
    by (symmetry; rewrite Z.gtb_ltb; apply Z.ltb_ge; zlia).
  simpl in Hrun. rewrite Hnx, Z.eqb_refl in Hrun. simpl in Hrun.
  destruct (insert_free_space fuel (p - sizeof_header) st) as [st2|] eqn:Ei;
    [|discriminate].
  injection Hrun as <- <-. split; [reflexivity|].
  intros h Hh Hne k Hk.
  apply (insert_free_space_writes _ _ _ _ Ei).
  - apply (block_keys st _ h k _ H (used_addrs_header _ _ _ Hh) Hk
             (used_addrs_header _ _ _ Hp)).
    congruence.
  - intros t Ht.
    apply (insert_scan_in _ _ _ _ _ _ (heap_ok_chain _ _ H)) in Ht.
    apply (block_keys st _ h k _ H (used_addrs_header _ _ _ Hh) Hk
             (free_addrs_header _ _ _ Ht)).
    intros ->.
    exact (used_not_free _ _ _ _ _ _ (ok_repr _ _ H) Hh Ht).
Qed.

(** The heap of [demo_scribbled] is well formed, and its store has the
    marker outside the headers of the blocks in use. *)
Lemma demo_scribbled_ok :
  heap_ok demo_scribbled
    [mkBlock 16 false; mkBlock 16 false; mkBlock 3968 true] /\
  ~ marks_ok demo_scribbled
      [mkBlock 16 false; mkBlock 16 false; mkBlock 3968 true].
Proof.
  split.
  - constructor; try (vm_compute; reflexivity).
    + cbn [repr]. repeat split; vm_compute; try reflexivity; discriminate.
    + vm_compute. split; [discriminate|reflexivity].
  - intros Hm. specialize (Hm 65600 ltac:(vm_compute; reflexivity)).
    vm_compute in Hm. intuition discriminate.
Qed.

Lemma myfree_keeps_others_witness :
  next (mem demo_scribbled 65600) = used_head demo_scribbled /\
  exists st',
    myfree 2 65632 demo_scribbled = Some (0, st') /\
    0 = 0 /\
    forall h,
      In h (used_addrs (first_block demo_scribbled)
              [mkBlock 16 false; mkBlock 16 false; mkBlock 3968 true]) ->
      h <> 65632 - sizeof_header ->
      forall k,
        h - sizeof_header < k
        < h + sizeof_header + size (mem demo_scribbled h) ->
        mem st' k = mem demo_scribbled k.
Proof.
  split; [vm_compute; reflexivity|].
  eexists. split; [vm_compute; reflexivity|].
  apply (myfree_keeps_others demo_scribbled
           [mkBlock 16 false; mkBlock 16 false; mkBlock 3968 true] 2 65632 0).
  - apply demo_scribbled_ok.
  - vm_compute. auto.
  - vm_compute. reflexivity.
Defined.

(** The pointer has to be the payload pointer of a block: in
    [demo_scribbled] the pointer 65616 lies at the end of the first
    block, the 16 bytes in front of it are the payload of that block and
    hold the marker, and [myfree] accepts it and writes a link into the
    payload of the block in use. *)
Lemma myfree_interior_pointer :
  In 65584 (used_addrs (first_block demo_scribbled)
              [mkBlock 16 false; mkBlock 16 false; mkBlock 3968 true]) /\
  ~ In (65616 - sizeof_header)
       (used_addrs (first_block demo_scribbled)
          [mkBlock 16 false; mkBlock 16 false; mkBlock 3968 true]) /\
  65584 - sizeof_header < 65600
  < 65584 + sizeof_header + size (mem demo_scribbled 65584) /\
  exists st',
    myfree 2 65616 demo_scribbled = Some (0, st') /\
    next (mem demo_scribbled 65600) = MINUS_ONE_PTR /\
    next (mem st' 65600) = 65648 /\ head st' = 65600.
Proof.
  split; [vm_compute; auto|].
  split; [vm_compute; intuition discriminate|].
  split; [vm_compute; split; reflexivity|].
  eexists. split; [vm_compute; reflexivity|].
  split; [|split]; vm_compute; reflexivity.
Qed.

(** ** Allocation in place *)

Lemma find_app_first (f : Z -> bool) x l2 : forall l1,
  (forall a, In a l1 -> f a = false) -> f x = true ->
  find f (l1 ++ x :: l2) = Some x.
Proof.
  induction l1 as [|a l1 IH]; simpl; intros Hl Hx.
  - now rewrite Hx.
  - rewrite (Hl a (or_introl eq_refl)). apply IH; auto.
Qed.

(** The search stops at the first free block that is large enough. *)
Lemma find_free_space_lowest st l1 s l2 n fuel :
  heap_ok st (l1 ++ mkBlock s true :: l2) ->
  n + sizeof_header <= s ->
  (forall b, In b l1 -> bfree b = true -> bsize b < n + sizeof_header) ->
  (length (l1 ++ mkBlock s true :: l2) < fuel)%nat ->
  find_free_space fuel n st = Some (end_addr (first_block st) l1).
Proof.
  intros H Hfit Hsmall Hf.
  destruct (find_free_space_from_chain st n _ fuel _ (heap_ok_chain _ _ H))
    as [_ Hrun].
  unfold find_free_space. rewrite Hrun.
  - f_equal. unfold first_fit. rewrite free_addrs_app. simpl.
    rewrite find_app_first; auto.
    + intros a Hin.
      destruct (free_addrs_in _ _ _ Hin) as (la & s' & lb & E & ->).
      unfold fits. apply Z.leb_gt.
      assert (H' := H). rewrite E, <- app_assoc in H'. simpl in H'.
      rewrite (heap_ok_size _ _ _ _ H'). simpl.
      apply (Hsmall (mkBlock s' true)); auto.
      rewrite E. apply in_or_app. right. now left.
    + unfold fits. apply Z.leb_le. rewrite (heap_ok_size _ _ _ _ H). exact Hfit.
  - pose proof (free_addrs_length (first_block st)
                  (l1 ++ mkBlock s true :: l2)). lia.
Qed.

(** X6: where a free block has room for the rounded request and a
    header, [mymalloc] serves the request from the first such block in
    address order and does not call [sbrk]: in a reachable state below
    2^32 bytes and with fuel for the blocks, it returns the payload of
    that block, splits the block into the used block and the free
    remainder, and leaves the operating system and the globals other
    than the list head as they are. *)
Theorem mymalloc_lowest_fit
  (st : state) (o : os) (l1 : list block) (s : Z) (l2 : list block)
  (sz : Z) (fuel : nat) :
  reachable st o -> brk o < heap_head st + 2 ^ 32 ->
  all_blocks st = walk_of (first_block st) (l1 ++ mkBlock s true :: l2) ->
  0 < sz < 2 ^ 32 ->
  round_up sz + sizeof_header <= s ->
  (forall b, In b l1 -> bfree b = true ->
             bsize b < round_up sz + sizeof_header) ->
  (length (l1 ++ mkBlock s true :: l2) < fuel)%nat ->
  exists st',
    mymalloc fuel sz st o
    = Some (end_addr (first_block st) l1 + sizeof_header, st', o) /\
    all_blocks st'
    = walk_of (first_block st)
        (l1 ++ mkBlock (round_up sz) false
            :: mkBlock (s - round_up sz - sizeof_header) true :: l2) /\
    same_globals st st'.
Proof.
  intros Hr Hlim Hw Hsz Hfit Hsmall Hf.
  destruct (reachable_blocks _ _ _ Hr Hlim Hw) as ((H & _ & _) & _ & _).
  assert (Hn : 0 <= round_up sz) by (apply round_up_range; lia).
  destruct (shrink_free_ok st l1 s l2 (round_up sz) H Hn Hfit)
    as (st' & _ & Hrun & H' & _ & G & _).
  pose proof (heap_ok_bounds _ _ _ _ H) as (Hlo & _ & _).
  pose proof (ok_base _ _ H) as Hbase.
  exists st'. split; [|split; [|exact G]].
  - unfold mymalloc.
    replace (sz =? 0) with false by (symmetry; apply Z.eqb_neq; lia).
    destruct fuel as [|f]; [simpl in Hf; lia|].
    cbn [mymalloc_loop].
    rewrite (find_free_space_lowest _ _ _ _ _ _ H Hfit Hsmall Hf).
    replace (end_addr (first_block st) l1 =? NULL) with false
      by (symmetry; apply Z.eqb_neq; zlia).
    simpl. rewrite Hrun; [reflexivity|].
    rewrite length_app in Hf. simpl in Hf. lia.
  - rewrite (all_blocks_ok _ _ H'), (same_globals_first_block _ _ G).
    reflexivity.
Qed.

Lemma mymalloc_lowest_fit_witness :
  exists st',
    mymalloc 4 24 demo_freed (demo_os [])
    = Some (end_addr (first_block demo_freed)
              [mkBlock 16 true; mkBlock 16 false] + sizeof_header,
            st', demo_os []) /\
    all_blocks st'
    = walk_of (first_block demo_freed)
        ([mkBlock 16 true; mkBlock 16 false]
           ++ mkBlock (round_up 24) false
           :: mkBlock (3968 - round_up 24 - sizeof_header) true :: []) /\
    same_globals demo_freed st'.
Proof.
  apply (mymalloc_lowest_fit demo_freed (demo_os [])
           [mkBlock 16 true; mkBlock 16 false] 3968 [] 24 4).
  - apply demo_freed_reachable.
  - vm_compute. reflexivity.
  - vm_compute. reflexivity.
  - lia.
  - vm_compute. discriminate.
  - intros b [<-|[<-|[]]] Hb; [|discriminate]. vm_compute. reflexivity.
  - simpl. lia.
Defined.

(** ** Allocation and release, one after the other *)

Lemma merge_last_not_ends_free rest : forall l1,
  ends_free l1 = false -> merge_last l1 rest = l1 ++ rest.
Proof.
  induction l1 as [|b l1 IH]; intros H; auto.
  cbn [merge_last]. destruct l1 as [|b' l1'].
  - simpl in H. now rewrite H.
  - simpl. f_equal. apply IH. exact H.
Qed.

(** Releasing the used part of a split block gives the block back. *)
Lemma released_split l1 s l2 n :
  coalesced (l1 ++ mkBlock s true :: l2) = true ->
  released l1 n (mkBlock (s - n - sizeof_header) true :: l2)
  = l1 ++ mkBlock s true :: l2.
Proof.
  intros Hc. unfold released. simpl.
  replace (n + (s - n - sizeof_header + sizeof_header)) with s by lia.
  apply merge_last_not_ends_free.
  rewrite coalesced_app in Hc. simpl in Hc.
  destruct (ends_free l1); auto.
  rewrite !andb_false_r in Hc. discriminate.
Qed.

Lemma expand_heap_grants fuel st o r st' o' :
  expand_heap fuel st o = Some (r, st', o') ->
  (length (grants o') <= length (grants o))%nat /\
  (r <> 0 -> (length (grants o') < length (grants o))%nat).
Proof.
  unfold expand_heap, sbrk. destruct (grants o) as [|[|] g] eqn:Eg; simpl.
  - intros [= <- <- <-]. rewrite Eg. simpl.
    split; [lia|intros E; now contradict E].
  - destruct (brk o =? MINUS_ONE_PTR).
    + intros [= <- <- <-]. simpl. split; lia.
    + destruct (tail_scan _ _ _); [|discriminate].
      intros [= <- <- <-]. simpl. split; lia.
  - intros [= <- <- <-]. simpl. split; lia.
Qed.

Lemma mymalloc_loop_grants sz : forall fuel st o p st' o',
  mymalloc_loop fuel sz st o = Some (p, st', o') ->
  (length (grants o') <= length (grants o))%nat.
Proof.
  induction fuel as [|f IH]; intros st o p st' o' Hrun; [discriminate|].
  cbn [mymalloc_loop] in Hrun.
  destruct (find_free_space (S f) sz st) as [fb|]; [|discriminate].
  destruct (negb (fb =? NULL)).
  - destruct (shrink_free (S f) fb sz st) as [[nb st1]|]; [|discriminate].
    injection Hrun as <- <- <-. lia.
  - destruct (expand_heap (S f) st o) as [[[r st1] o1]|] eqn:E; [|discriminate].
    apply expand_heap_grants in E. destruct E as [E _].
    destruct (r =? 0).
    + injection Hrun as <- <- <-. exact E.
    + apply IH in Hrun. lia.
Qed.

(** A call that leaves the operating system as it was and returns a
    block has found the block at once. *)
Lemma mymalloc_loop_in_place sz fuel st o p st' :
  mymalloc_loop fuel sz st o = Some (p, st', o) -> p <> NULL ->
  exists fb,
    find_free_space fuel sz st = Some fb /\ fb <> NULL /\
    shrink_free fuel fb sz st = Some (p - sizeof_header, st').
Proof.
  destruct fuel as [|f]; [discriminate|]. intros Hrun Hp.
  cbn [mymalloc_loop] in Hrun.
  destruct (find_free_space (S f) sz st) as [fb|]; [|discriminate].
  exists fb. split; [reflexivity|].
  destruct (fb =? NULL) eqn:Efb; simpl in Hrun.
  - exfalso.
    destruct (expand_heap (S f) st o) as [[[r st1] o1]|] eqn:E; [|discriminate].
    apply expand_heap_grants in E. destruct E as [_ E].
    destruct (r =? 0) eqn:Er.
    + injection Hrun as <- <- <-. now contradict Hp.
    + apply Z.eqb_neq in Er. apply E in Er.
      apply mymalloc_loop_grants in Hrun. lia.
  - apply Z.eqb_neq in Efb. split; [exact Efb|].
    destruct (shrink_free (S f) fb sz st) as [[nb st1]|]; [|discriminate].
    injection Hrun as <- <-. repeat f_equal. lia.
Qed.

Lemma repr_same m m' u nf x : forall bs a,
  repr m u a bs nf -> repr m' u a bs nf ->
  In x (header_addrs (walk_of a bs)) ->
  m' x = m x.
Proof.
  induction bs as [|b bs IH]; simpl; intros a H H' Hin; [easy|].
  destruct H as (Hs & _ & Hn & H). destruct H' as (Hs' & _ & Hn' & H').
  destruct Hin as [<-|Hin]; [|eapply IH; eauto].
  destruct (m a), (m' a). simpl in *. congruence.
Qed.

(** X7: a block that is allocated and freed at once leaves the heap as
    it was.  In a reachable state below 2^32 bytes, when [mymalloc]
    returns a block without calling [sbrk], [myfree] of that block, with
    fuel for the list, returns 0, and afterwards the walk over the heap
    finds the blocks there were before the allocation, the list head and
    the other globals are what they were, and so is the header of every
    block. *)
Theorem malloc_free_round_trip
  (st : state) (o : os) (fuel : nat) (sz p : Z) (st1 : state) :
  reachable st o -> brk o < heap_head st + 2 ^ 32 ->
  0 <= sz < 2 ^ 32 ->
  mymalloc fuel sz st o = Some (p, st1, o) -> p <> NULL ->
  exists fuel0, forall fuel', (fuel0 <= fuel')%nat ->
  exists st2,
    myfree fuel' p st1 = Some (0, st2) /\
    all_blocks st2 = all_blocks st /\
    head st2 = head st /\ same_globals st st2 /\
    forall a, In a (header_addrs (all_blocks st)) ->
              mem st2 a = mem st a.
Proof.
  intros Hr Hlim Hsz Hrun Hp.
  destruct (reachable_coalesced _ _ Hr Hlim) as (bs & (H & Hm & Hb) & Hc & _).
  unfold mymalloc in Hrun. destruct (sz =? 0).
  { injection Hrun as <- <-. now contradict Hp. }
  destruct (mymalloc_loop_in_place _ _ _ _ _ _ Hrun Hp)
    as (fb & Ef & Hfb & Es).
  destruct (find_free_space_ok _ _ _ _ _ H Ef Hfb)
    as (l1 & s & l2 & -> & -> & Hfit).
  set (n := round_up sz) in *.
  assert (Hn : 0 <= n) by (apply round_up_range; exact Hsz).
  destruct (shrink_free_ok st l1 s l2 n H Hn Hfit)
    as (st1' & Hany & _ & H1 & Hm1 & G1 & _).
  destruct (Hany fuel) as [E|E]; rewrite E in Es; [discriminate|].
  injection Es as Ep <-. specialize (Hm1 Hm).
  pose proof (same_globals_first_block _ _ G1) as Efb1.
  assert (Hinv1 : inv st1' o
            (l1 ++ mkBlock n false
                :: mkBlock (s - n - sizeof_header) true :: l2)).
  { destruct G1 as (Gu & Gc & Gs & Gh & Gl).
    split; [exact H1|split; [exact Hm1|congruence]]. }
  exists (S (length l1)). intros fuel' Hf.
  destruct (myfree_used_released _ _ _ _ _ fuel' Hinv1)
    as (st2 & bs2 & Hfree & (H2 & _ & _) & _ & -> & G2); [lia|].
  rewrite released_split in H2 by exact Hc.
  exists st2. rewrite Efb1 in Hfree.
  replace p with (end_addr (first_block st) l1 + sizeof_header) by lia.
  split; [exact Hfree|].
  pose proof (same_globals_trans _ _ _ G1 G2) as G.
  pose proof (same_globals_first_block _ _ G) as Efb.
  split; [now rewrite (all_blocks_ok _ _ H2), (all_blocks_ok _ _ H), Efb|].
  split; [now rewrite (ok_head _ _ H2), (ok_head _ _ H), Efb|].
  split; [exact G|].
  intros a Hin. rewrite (all_blocks_ok _ _ H) in Hin.
  pose proof (ok_repr _ _ H2) as R2. rewrite Efb in R2.
  rewrite (ok_used _ _ H2), <- (ok_used _ _ H) in R2.
  exact (repr_same _ _ _ _ _ _ _ (ok_repr _ _ H) R2 Hin).
Qed.

Lemma malloc_free_round_trip_witness :
  exists fuel0, forall fuel', (fuel0 <= fuel')%nat ->
  exists st2,
    myfree fuel' 65632 demo_two = Some (0, st2) /\
    all_blocks st2 = all_blocks demo_one /\
    head st2 = head demo_one /\ same_globals demo_one st2 /\
    forall a, In a (header_addrs (all_blocks demo_one)) ->
              mem st2 a = mem demo_one a.
Proof.
  apply (malloc_free_round_trip demo_one (demo_os []) 2 16 65632 demo_two).
  - apply (reach_step demo_state (demo_os [])).
    + apply demo_reachable.
    + apply (step_mymalloc _ _ 2%nat 16 65600). { lia. } reflexivity.
  - vm_compute. reflexivity.
  - lia.
  - vm_compute. reflexivity.
  - discriminate.
Defined.

(** ** Growing the heap *)

(** X8: a granted expansion adds to the last block of the heap and to
    nothing else.  In a reachable state whose last block has the size
    [s], when [sbrk] grants the request and the heap stays below 2^32
    bytes, [expand_heap], with fuel for the list, returns the amount,
    4096 times the counter; afterwards the last block has the size [s]
    plus the amount and the blocks in front of it are as they were,
    [heap_size] has grown by the amount, the list head and [heap_head]
    are unchanged, and the header of the last block is the only one
    written. *)
Theorem expand_heap_grows_last
  (st : state) (o : os) (l : list block) (s : Z) (g : list bool)
  (fuel : nat) :
  reachable st o ->
  all_blocks st = walk_of (first_block st) (l ++ [mkBlock s true]) ->
  grants o = true :: g ->
  brk o + uint (PAGE_SIZE * expansion_counter st) < heap_head st + 2 ^ 32 ->
  (length l < fuel)%nat ->
  exists st',
    expand_heap fuel st o
    = Some (sint (uint (PAGE_SIZE * expansion_counter st)), st',
            mkOs (brk o + uint (PAGE_SIZE * expansion_counter st)) g) /\
    all_blocks st'
    = walk_of (first_block st)
        (l ++ [mkBlock (s + uint (PAGE_SIZE * expansion_counter st)) true]) /\
    heap_size st' = heap_size st + uint (PAGE_SIZE * expansion_counter st) /\
    heap_head st' = heap_head st /\ head st' = head st /\
    forall x, x <> end_addr (first_block st) l -> mem st' x = mem st x.
Proof.
  intros Hr Hw Eg Hlim Hf.
  pose proof (uint_range (PAGE_SIZE * expansion_counter st)) as Hu.
  set (n := uint (PAGE_SIZE * expansion_counter st)) in *.
  destruct (reachable_blocks _ _ _ Hr ltac:(lia) Hw) as ((H & Hm & Hb) & _ & _).
  pose proof (ok_base _ _ H) as Hbase.
  pose proof (heap_ok_chain _ _ H) as Hchain.
  rewrite free_addrs_app in Hchain. simpl in Hchain.
  set (T := end_addr (first_block st) l) in *.
  set (st1 := set_expansion_counter (sint (expansion_counter st + 1)) st).
  set (st' := set_heap_size (uint (heap_size st + n))
                (set_size T (uint (size (mem st T) + n)) st1)).
  assert (E : expand_heap fuel st o
              = Some (sint n, st', mkOs (brk o + n) g)).
  { unfold expand_heap, sbrk. rewrite Eg. fold n. fold st1.
    replace (brk o =? MINUS_ONE_PTR) with false
      by (symmetry; apply Z.eqb_neq; zlia).
    rewrite (tail_scan_chain st1 _ T fuel (head st1) Hchain).
    replace (length (free_addrs (first_block st) l) <? fuel)%nat with true;
      [reflexivity|].
    symmetry. apply Nat.ltb_lt.
    pose proof (free_addrs_length (first_block st) l). lia. }
  exists st'. split; [exact E|].
  destruct (expand_heap_ok _ _ _ _ _ _ _ H Hm Hb E)
    as (bs' & H' & _ & Hbr' & _ & Hshape); [simpl; lia|].
  destruct (Hshape g Eg) as (l0 & s0 & E0 & ->).
  apply app_inj_tail in E0. destruct E0 as [<- [= <-]]. fold n in H'.
  split; [exact (all_blocks_ok _ _ H')|].
  split; [simpl in Hbr'; simpl; lia|].
  split; [reflexivity|]. split; [reflexivity|].
  intros x Hx. simpl. now apply store_other.
Qed.

Lemma expand_heap_grows_last_witness :
  exists st',
    expand_heap 2 demo_state (demo_os [true])
    = Some (sint (uint (PAGE_SIZE * expansion_counter demo_state)), st',
            mkOs (brk (demo_os [true])
                  + uint (PAGE_SIZE * expansion_counter demo_state)) []) /\
    all_blocks st'
    = walk_of (first_block demo_state)
        ([] ++ [mkBlock (4032 + uint (PAGE_SIZE
                                      * expansion_counter demo_state)) true]) /\
    heap_size st'
    = heap_size demo_state + uint (PAGE_SIZE * expansion_counter demo_state) /\
    heap_head st' = heap_head demo_state /\ head st' = head demo_state /\
    forall x, x <> end_addr (first_block demo_state) [] ->
              mem st' x = mem demo_state x.
Proof.
  apply (expand_heap_grows_last demo_state (demo_os [true]) [] 4032 [] 2).
  - apply demo_reachable.
  - vm_compute. reflexivity.
  - reflexivity.
  - vm_compute. reflexivity.
  - simpl. lia.
Defined.

(** ** Initialisation *)

(** X9: [mymalloc_init] succeeds exactly when [sbrk] grants the first
    page.  With the break above the first page and in the lower half of
    the address space, and whatever the globals hold: on a grant it
    returns 0 and leaves a heap of one page at the old break, with the
    list descriptor at its base and one free block of 4032 bytes behind
    it, the counter at 1 and the marker set; on a refusal it returns 1
    and has written nothing but the failure value of [sbrk] into
    [heap_head] and [head_list]. *)
Theorem mymalloc_init_outcome (st0 : state) (o : os) :
  PAGE_SIZE <= brk o < 2 ^ 63 ->
  exists r st o',
    mymalloc_init st0 o = (r, st, o') /\
    ((r = 0 /\
      (exists g, grants o = true :: g /\ o' = mkOs (brk o + PAGE_SIZE) g) /\
      heap_ok st [mkBlock 4032 true] /\
      all_blocks st = [(brk o + sizeof_free_list, 4032, false)] /\
      heap_head st = brk o /\ head_list st = brk o /\
      heap_size st = PAGE_SIZE /\
      head st = brk o + sizeof_free_list /\
      expansion_counter st = 1 /\ used_head st = MINUS_ONE_PTR)
     \/
     (r = 1 /\ (forall g, grants o <> true :: g) /\ brk o' = brk o /\
      st = set_head_list MINUS_ONE_PTR (set_heap_head MINUS_ONE_PTR st0))).
Proof.
  intros Ho. unfold mymalloc_init, sbrk.
  destruct (grants o) as [|[|] g] eqn:Eg.
  - eexists _, _, _. split; [reflexivity|]. right.
    split; [reflexivity|]. split; [intros g; discriminate|].
    split; reflexivity.
  - replace (heap_head
               (set_head_list (heap_head (set_heap_head (brk o) st0))
                  (set_heap_head (brk o) st0)) =? MINUS_ONE_PTR)
      with false by (symmetry; apply Z.eqb_neq; simpl; zlia).
    eexists _, _, _. split; [reflexivity|]. left.
    split; [reflexivity|]. split; [exists g; auto|].
    change (uint (PAGE_SIZE - sizeof_header - sizeof_free_list)) with 4032.
    match goal with |- heap_ok ?s _ /\ _ => set (st := s) end.
    assert (H : heap_ok st [mkBlock 4032 true]).
    { constructor; simpl; auto; try zlia.
      unfold first_block. simpl. mem_simp. simpl. repeat split; zlia. }
    split; [exact H|]. split; [|repeat split].
    rewrite (all_blocks_ok _ _ H). reflexivity.
  - eexists _, _, _. split; [reflexivity|]. right.
    split; [reflexivity|]. split; [intros g'; discriminate|].
    split; reflexivity.
Qed.

Lemma mymalloc_init_outcome_witness :
  exists r st o',
    mymalloc_init boot (mkOs 65536 [true]) = (r, st, o') /\
    ((r = 0 /\
      (exists g, grants (mkOs 65536 [true]) = true :: g
                 /\ o' = mkOs (brk (mkOs 65536 [true]) + PAGE_SIZE) g) /\
      heap_ok st [mkBlock 4032 true] /\
      all_blocks st
      = [(brk (mkOs 65536 [true]) + sizeof_free_list, 4032, false)] /\
      heap_head st = brk (mkOs 65536 [true]) /\
      head_list st = brk (mkOs 65536 [true]) /\
      heap_size st = PAGE_SIZE /\
      head st = brk (mkOs 65536 [true]) + sizeof_free_list /\
      expansion_counter st = 1 /\ used_head st = MINUS_ONE_PTR)
     \/
     (r = 1 /\ (forall g, grants (mkOs 65536 [true]) <> true :: g) /\
      brk o' = brk (mkOs 65536 [true]) /\
      st = set_head_list MINUS_ONE_PTR (set_heap_head MINUS_ONE_PTR boot))).
Proof.
  apply (mymalloc_init_outcome boot (mkOs 65536 [true])).
  simpl. consts. lia.
Defined.

(** ** Requests that no block can hold *)

Lemma sizes_bounded_set_size p v st :
  0 <= v < 2 ^ 32 -> sizes_bounded st -> sizes_bounded (set_size p v st).
Proof.
  intros Hv H x. simpl. unfold store. destruct (x =? p); simpl; auto.
Qed.

Lemma sizes_bounded_set_next p v st :
  sizes_bounded st -> sizes_bounded (set_next p v st).
Proof.
  intros H x. simpl. unfold store. destruct (x =? p); simpl; auto.
Qed.

Ltac bounded :=
  repeat match goal with
  | |- sizes_bounded (set_size _ _ _) =>
      apply sizes_bounded_set_size; [try apply uint_range|]
  | |- sizes_bounded (set_next _ _ _) => apply sizes_bounded_set_next
  | |- sizes_bounded (set_head _ ?s) => change (sizes_bounded s)
  | |- sizes_bounded (set_head_list _ ?s) => change (sizes_bounded s)
  | |- sizes_bounded (set_used_head _ ?s) => change (sizes_bounded s)
  | |- sizes_bounded (set_heap_size _ ?s) => change (sizes_bounded s)
  | |- sizes_bounded (set_heap_head _ ?s) => change (sizes_bounded s)
  | |- sizes_bounded (set_expansion_counter _ ?s) => change (sizes_bounded s)
  end; auto.

Lemma coalescing_bounded p st :
  sizes_bounded st -> sizes_bounded (coalescing p st).
Proof.
  intros H. unfold coalescing. destruct (_ =? _); auto. cbv zeta. bounded.
Qed.

Lemma insert_free_space_bounded fuel a st st' :
  sizes_bounded st -> insert_free_space fuel a st = Some st' ->
  sizes_bounded st'.
Proof.
  intros H. unfold insert_free_space. destruct (a <? head st).
  - intros [= <-]. cbv zeta. apply coalescing_bounded. bounded.
  - destruct (insert_scan _ _ _ _) as [t|]; [|discriminate].
    intros [= <-]. cbv zeta. do 2 apply coalescing_bounded.
    destruct (negb _); bounded.
Qed.

Lemma shrink_free_bounded fuel fs n st nb st' :
  sizes_bounded st -> 0 <= n < 2 ^ 32 ->
  shrink_free fuel fs n st = Some (nb, st') -> sizes_bounded st'.
Proof.
  intros H Hn. unfold shrink_free. destruct (head st =? fs).
  - intros [= <- <-]. cbv zeta. bounded.
  - destruct (parent_scan _ _ _ _) as [t|]; [|discriminate].
    intros [= <- <-]. cbv zeta. bounded.
Qed.

Lemma expand_heap_bounded fuel st o r st' o' :
  sizes_bounded st -> expand_heap fuel st o = Some (r, st', o') ->
  sizes_bounded st'.
Proof.
  intros H. unfold expand_heap. destruct (sbrk _ o) as [p o1].
  destruct (p =? MINUS_ONE_PTR).
  - intros [= <- <- <-]. bounded.
  - destruct (tail_scan _ _ _) as [t|]; [|discriminate].
    intros [= <- <- <-]. bounded.
Qed.

Lemma mymalloc_loop_bounded sz : forall fuel st o p st' o',
  sizes_bounded st -> 0 <= sz < 2 ^ 32 ->
  mymalloc_loop fuel sz st o = Some (p, st', o') -> sizes_bounded st'.
Proof.
  induction fuel as [|f IH]; intros st o p st' o' H Hsz Hrun; [discriminate|].
  cbn [mymalloc_loop] in Hrun.
  destruct (find_free_space (S f) sz st) as [fb|]; [|discriminate].
  destruct (negb (fb =? NULL)).
  - destruct (shrink_free (S f) fb sz st) as [[nb st1]|] eqn:E; [|discriminate].
    injection Hrun as <- <- <-. eapply shrink_free_bounded; eauto.
  - destruct (expand_heap (S f) st o) as [[[r st1] o1]|] eqn:E; [|discriminate].
    apply expand_heap_bounded in E; auto.
    destruct (r =? 0).
    + injection Hrun as <- <- <-. exact E.
    + eapply IH; eauto.
Qed.

Lemma step_bounded st o st' o' :
  sizes_bounded st -> step st o st' o' -> sizes_bounded st'.
Proof.
  intros H [fuel sz p st1 o1 Hsz Hrun|fuel ptr r st1 Hrun|fuel r st1 o1 Hrun].
  - unfold mymalloc in Hrun. destruct (sz =? 0).
    + injection Hrun as <- <- <-. exact H.
    + eapply mymalloc_loop_bounded; [exact H| |exact Hrun].
      apply round_up_range. exact Hsz.
  - unfold myfree in Hrun. destruct (_ || _); [injection Hrun as <- <-; auto|].
    destruct (negb _); [injection Hrun as <- <-; auto|].
    destruct (insert_free_space _ _ _) as [st2|] eqn:E; [|discriminate].
    injection Hrun as <- <-. eapply insert_free_space_bounded; eauto.
  - eapply expand_heap_bounded; eauto.
Qed.

Lemma reachable_bounded st o : reachable st o -> sizes_bounded st.
Proof.
  induction 1 as [o st o' Ho Hi|st o st' o' _ IH Hstep].
  - unfold mymalloc_init in Hi. destruct (sbrk PAGE_SIZE o) as [p o1].
    cbv zeta in Hi. destruct (_ =? _); [discriminate|].
    injection Hi as <- <-. bounded. intros x. simpl. lia.
  - eapply step_bounded; eauto.
Qed.

Lemma find_free_space_from_huge st n :
  sizes_bounded st -> 2 ^ 32 <= n + sizeof_header ->
  forall fuel t r, find_free_space_from fuel t n st = Some r -> r = NULL.
Proof.
  intros H Hn. induction fuel as [|f IH]; simpl; intros t r Hrun;
    [discriminate|].
  destruct (t =? NULL); [congruence|].
  replace (n + sizeof_header <=? size (mem st t)) with false in Hrun; eauto.
  symmetry. apply Z.leb_gt. specialize (H t). lia.
Qed.

Lemma run_cons st o st1 o1 st2 o2 :
  step st o st1 o1 -> run st1 o1 st2 o2 -> run st o st2 o2.
Proof.
  intros Hs Hr. induction Hr.
  - eapply run_step; [apply run_here|exact Hs].
  - eapply run_step; eauto.
Qed.

Lemma sint_zero z : 0 <= z < 2 ^ 32 -> sint z = 0 -> z = 0.
Proof.
  unfold sint. intros Hz E.
  destruct (Z_lt_ge_dec z (2 ^ 31)).
  - rewrite Z.mod_small in E by lia. lia.
  - replace (z + 2 ^ 31) with (z - 2 ^ 31 + 1 * 2 ^ 32) in E by lia.
    rewrite Z_mod_plus_full, Z.mod_small in E by lia. lia.
Qed.

(** [expand_heap] returns 0 when [sbrk] refused, and when the request
    was for no bytes at all. *)
Lemma expand_heap_zero fuel st o st' o' :
  expand_heap fuel st o = Some (0, st', o') ->
  fst (sbrk (uint (PAGE_SIZE * expansion_counter st)) o) = MINUS_ONE_PTR
  \/ uint (PAGE_SIZE * expansion_counter st) = 0.
Proof.
  unfold expand_heap.
  pose proof (uint_range (PAGE_SIZE * expansion_counter st)) as Hu.
  set (n := uint (PAGE_SIZE * expansion_counter st)) in *.
  destruct (sbrk n o) as [p o1]. simpl.
  destruct (p =? MINUS_ONE_PTR) eqn:E.
  - intros _. left. now apply Z.eqb_eq.
  - destruct (tail_scan _ _ _); [|discriminate].
    intros [= E0 _ _]. right. now apply sint_zero.
Qed.

Lemma mymalloc_loop_huge sz : forall fuel st o p st' o',
  sizes_bounded st -> 2 ^ 32 <= sz + sizeof_header ->
  mymalloc_loop fuel sz st o = Some (p, st', o') ->
  p = NULL /\
  exists f st1 o1,
    run st o st1 o1 /\ expand_heap f st1 o1 = Some (0, st', o').
Proof.
  induction fuel as [|f IH]; intros st o p st' o' H Hsz Hrun; [discriminate|].
  cbn [mymalloc_loop] in Hrun.
  destruct (find_free_space (S f) sz st) as [fb|] eqn:Ef; [|discriminate].
  apply (find_free_space_from_huge _ _ H Hsz) in Ef. subst fb.
  simpl in Hrun.
  destruct (expand_heap (S f) st o) as [[[r st1] o1]|] eqn:E; [|discriminate].
  destruct (r =? 0) eqn:Er.
  - apply Z.eqb_eq in Er. subst r. injection Hrun as <- <- <-.
    split; [reflexivity|]. exists (S f), st, o. split; [apply run_here|exact E].
  - destruct (IH _ _ _ _ _ (expand_heap_bounded _ _ _ _ _ _ H E) Hsz Hrun)
      as (Hp & f' & st2 & o2 & Hr2 & E2).
    split; [exact Hp|]. exists f', st2, o2. split; [|exact E2].
    eapply run_cons; [|exact Hr2]. eapply step_expand_heap; eauto.
Qed.

(** X10: a request that no block can hold is never served, and is not
    refused before [sbrk] refuses.  The size field of a header is an
    [unsigned int], and the search wants the request and a header in
    it; for a request above 2^32 - 24 bytes that does not wrap to 0 the
    sum is 2^32 or more, so in every reachable state, of any size,
    [find_free_space] fails and [mymalloc] expands the heap again.  A
    call that returns has returned null, from the state that a run of
    expansions has left, after an expansion that returned 0: [sbrk]
    refused, or the request computed from the counter was for no bytes.
    What the expansions before it were granted stays in the heap. *)
Theorem mymalloc_huge_request
  (st : state) (o : os) (fuel : nat) (sz p : Z) (st' : state) (o' : os) :
  reachable st o -> 2 ^ 32 - 24 < sz <= 2 ^ 32 - 8 ->
  mymalloc fuel sz st o = Some (p, st', o') ->
  p = NULL /\
  exists f st1 o1,
    run st o st1 o1 /\ expand_heap f st1 o1 = Some (0, st', o') /\
    (fst (sbrk (uint (PAGE_SIZE * expansion_counter st1)) o1) = MINUS_ONE_PTR
     \/ uint (PAGE_SIZE * expansion_counter st1) = 0).
Proof.
  intros Hr Hsz Hrun. unfold mymalloc in Hrun.
  replace (sz =? 0) with false in Hrun by (symmetry; apply Z.eqb_neq; lia).
  assert (Hn : 2 ^ 32 <= round_up sz + sizeof_header).
  { unfold round_up, BYTE_BOUNDARY, sizeof_header.
    pose proof (Z.mod_pos_bound sz 8 ltac:(lia)) as Hm.
    destruct (sz mod 8 =? 0) eqn:E; simpl.
    - apply Z.eqb_eq in E.
      pose proof (Z.div_mod sz 8 ltac:(lia)) as Hd. lia.
    - apply Z.eqb_neq in E. rewrite uint_small by lia.
      pose proof (Z.div_mod sz 8 ltac:(lia)) as Hd. lia. }
  destruct (mymalloc_loop_huge _ _ _ _ _ _ _ (reachable_bounded _ _ Hr) Hn Hrun)
    as (Hp & f & st1 & o1 & Hr1 & E).
  split; [exact Hp|]. exists f, st1, o1. split; [exact Hr1|].
  split; [exact E|]. eapply expand_heap_zero; eauto.
Qed.

Lemma mymalloc_huge_request_witness :
  0 = NULL /\
  exists f st1 o1,
    run demo_state (demo_os [true; false]) st1 o1 /\
    expand_heap f st1 o1 = Some (0, demo_huge, mkOs 73728 []) /\
    (fst (sbrk (uint (PAGE_SIZE * expansion_counter st1)) o1) = MINUS_ONE_PTR
     \/ uint (PAGE_SIZE * expansion_counter st1) = 0).
Proof.
  apply (mymalloc_huge_request demo_state (demo_os [true; false]) 3
           4294967280 0 demo_huge (mkOs 73728 [])).
  - apply demo_reachable.
  - lia.
  - vm_compute. reflexivity.
Defined.

(** ** Failure of an allocation *)

Lemma mymalloc_loop_null sz : forall fuel st o bs st' o',
  inv st o bs -> 0 <= sz ->
  mymalloc_loop fuel sz st o = Some (NULL, st', o') ->
  brk o' < heap_head st + 2 ^ 32 ->
  exists f st1 o1,
    run st o st1 o1 /\ expand_heap f st1 o1 = Some (0, st', o').
Proof.
  induction fuel as [|f IH];
    intros st o bs st' o' (H & Hm & Hb) Hsz Hrun Hlim; [discriminate|].
  cbn [mymalloc_loop] in Hrun.
  destruct (find_free_space (S f) sz st) as [fb|] eqn:Ef; [|discriminate].
  destruct (fb =? NULL) eqn:Enull; simpl in Hrun.
  - destruct (expand_heap (S f) st o) as [[[r st1] o1]|] eqn:E; [|discriminate].
    pose proof (expand_heap_brk _ _ _ _ _ _ E) as [Hb1 Hh1].
    destruct (r =? 0) eqn:Er.
    + apply Z.eqb_eq in Er. subst r. injection Hrun as <- <-.
      exists (S f), st, o. split; [apply run_here|exact E].
    + assert (Hlim1 : brk o1 < heap_head st + 2 ^ 32).
      { apply mymalloc_loop_brk in Hrun. lia. }
      destruct (expand_heap_ok _ _ _ _ _ _ _ H Hm Hb E Hlim1)
        as (bs1 & H1 & Hm1 & Hbr1 & _).
      destruct (IH _ _ _ _ _ (conj H1 (conj Hm1 Hbr1)) Hsz Hrun)
        as (f' & st2 & o2 & Hr2 & E2); [rewrite Hh1; exact Hlim|].
      exists f', st2, o2. split; [|exact E2].
      eapply run_cons; [|exact Hr2]. eapply step_expand_heap; eauto.
  - exfalso. apply Z.eqb_neq in Enull.
    destruct (find_free_space_ok _ _ _ _ _ H Ef Enull)
      as (l1 & s & l2 & -> & -> & Hfit).
    destruct (shrink_free_ok st l1 s l2 sz H Hsz Hfit) as (st2 & Hany & _).
    destruct (Hany (S f)) as [E|E]; rewrite E in Hrun; [discriminate|].
    injection Hrun as Hp _ _.
    pose proof (heap_ok_bounds _ _ _ _ H) as (Hlo & _ & _).
    pose proof (ok_base _ _ H). zlia.
Qed.

(** X11: [mymalloc] returns null for a request of 0 bytes, which it
    answers at once without a change, and otherwise only after an
    expansion of the heap that returned 0.  In a reachable state, with
    the heap below 2^32 bytes at the end: a call for a request other
    than 0 that returns null has run expansions from the state it was
    called in, and the last one returned 0, because [sbrk] refused or
    because the request computed from the counter was for no bytes. *)
Theorem mymalloc_null
  (st : state) (o : os) (fuel : nat) (sz : Z) (st' : state) (o' : os) :
  reachable st o -> 0 <= sz < 2 ^ 32 ->
  mymalloc fuel sz st o = Some (NULL, st', o') ->
  brk o' < heap_head st + 2 ^ 32 ->
  (sz = 0 /\ st' = st /\ o' = o)
  \/ (sz <> 0 /\
      exists f st1 o1,
        run st o st1 o1 /\ expand_heap f st1 o1 = Some (0, st', o') /\
        (fst (sbrk (uint (PAGE_SIZE * expansion_counter st1)) o1)
         = MINUS_ONE_PTR
         \/ uint (PAGE_SIZE * expansion_counter st1) = 0)).
Proof.
  intros Hr Hsz Hrun Hlim.
  destruct (mymalloc_brk _ _ _ _ _ _ _ Hrun) as [Hb _].
  destruct (reachable_inv _ _ Hr) as (bs & Hinv); [lia|].
  unfold mymalloc in Hrun. destruct (sz =? 0) eqn:E0.
  - left. apply Z.eqb_eq in E0. injection Hrun as <- <-. auto.
  - right. apply Z.eqb_neq in E0. split; [exact E0|].
    destruct (mymalloc_loop_null _ _ _ _ _ _ _ Hinv
                (proj1 (round_up_range _ Hsz)) Hrun Hlim)
      as (f & st1 & o1 & Hr1 & E).
    exists f, st1, o1. split; [exact Hr1|]. split; [exact E|].
    eapply expand_heap_zero; eauto.
Qed.

Lemma mymalloc_null_witness :
  (4000 = 0 /\ demo_refused = demo_one /\ demo_os [] = demo_os [false])
  \/ (4000 <> 0 /\
      exists f st1 o1,
        run demo_one (demo_os [false]) st1 o1 /\
        expand_heap f st1 o1 = Some (0, demo_refused, demo_os []) /\
        (fst (sbrk (uint (PAGE_SIZE * expansion_counter st1)) o1)
         = MINUS_ONE_PTR
         \/ uint (PAGE_SIZE * expansion_counter st1) = 0)).
Proof.
  apply (mymalloc_null demo_one (demo_os [false]) 2 4000
           demo_refused (demo_os [])).
  - apply (reach_step demo_state (demo_os [false])).
    + apply demo_reachable.
    + apply (step_mymalloc _ _ 2%nat 16 65600). { lia. } reflexivity.
  - lia.
  - vm_compute. reflexivity.
  - vm_compute. reflexivity.
Defined.

(** ** The block that is returned *)

Lemma end_addr_offset l : forall a,
  sizes_aligned l -> (end_addr a l - a) mod BYTE_BOUNDARY = 0.
Proof.
  induction l as [|b l IH]; simpl; intros a Hl.
  - now rewrite Z.sub_diag.
  - apply sizes_aligned_cons in Hl. destruct Hl as [Hb Hl].
    replace (end_addr (after a b) l - a)
      with ((end_addr (after a b) l - after a b) + (sizeof_header + bsize b))
      by (unfold after; lia).
    apply aligned_add; [apply IH; exact Hl|].
    apply aligned_add; [reflexivity|exact Hb].
Qed.

(** X12: what [mymalloc] returns for a request that the rounding does
    not wrap.  In a reachable state, with the heap below 2^32 bytes at
    the end, a call for 1 to 2^32 - 8 bytes that does not return null
    returns the payload of a block whose header holds the marker and the
    request rounded up to the next multiple of 8, so at least the
    request and less than 8 bytes more; the block lies inside the heap
    behind the list descriptor, with room for a header behind it; and
    the pointer is a multiple of 8 away from [heap_head], so it is a
    multiple of 8 when the break was one as [mymalloc_init] ran. *)
Theorem mymalloc_returns_block
  (st : state) (o : os) (fuel : nat) (sz p : Z) (st' : state) (o' : os) :
  reachable st o -> 0 < sz <= 2 ^ 32 - 8 ->
  mymalloc fuel sz st o = Some (p, st', o') -> p <> NULL ->
  brk o' < heap_head st' + 2 ^ 32 ->
  next (mem st' (p - sizeof_header)) = used_head st' /\
  sz <= size (mem st' (p - sizeof_header)) < sz + BYTE_BOUNDARY /\
  size (mem st' (p - sizeof_header)) mod BYTE_BOUNDARY = 0 /\
  heap_head st' + sizeof_free_list + sizeof_header <= p /\
  p + size (mem st' (p - sizeof_header)) + sizeof_header
  <= heap_head st' + heap_size st' /\
  (p - heap_head st') mod BYTE_BOUNDARY = 0 /\
  (heap_head st' mod BYTE_BOUNDARY = 0 -> p mod BYTE_BOUNDARY = 0).
Proof.
  intros Hr Hsz Hrun Hp Hlim.
  assert (Hsz' : 0 <= sz < 2 ^ 32) by lia.
  destruct (mymalloc_block _ _ _ _ _ _ _ Hr Hsz' Hrun Hp Hlim)
    as (Hblk & Hlo & Hhi).
  destruct (round_up_spec sz ltac:(lia)) as [Hru Hal].
  rewrite Hblk. simpl.
  split; [reflexivity|]. split; [exact Hru|]. split; [exact Hal|].
  split; [lia|]. split; [exact Hhi|].
  assert (Hoff : (p - heap_head st') mod BYTE_BOUNDARY = 0).
  { destruct (mymalloc_brk _ _ _ _ _ _ _ Hrun) as [Hb Hh].
    destruct (reachable_inv_aligned _ _ Hr) as (bs & Hinv & Hbs); [lia|].
    rewrite Hh in Hlim.
    destruct (mymalloc_ok _ _ _ _ _ _ _ _ Hinv Hsz' Hrun Hlim)
      as (bs' & _ & Hbs' & _ & Hrun').
    destruct (Hbs' Hp) as (l1 & l2 & -> & ->).
    apply (blocks_run_aligned _ _ Hrun'), sizes_aligned_app in Hbs.
    destruct Hbs as [Hl1 _].
    replace (end_addr (first_block st') l1 + sizeof_header - heap_head st')
      with ((end_addr (first_block st') l1 - first_block st')
            + (sizeof_free_list + sizeof_header))
      by (unfold first_block; lia).
    apply aligned_add; [|reflexivity]. now apply end_addr_offset. }
  split; [exact Hoff|]. intros Hbase.
  replace p with ((p - heap_head st') + heap_head st') by lia.
  now apply aligned_add.
Qed.

Lemma mymalloc_returns_block_witness :
  next (mem demo_one (65600 - sizeof_header)) = used_head demo_one /\
  10 <= size (mem demo_one (65600 - sizeof_header)) < 10 + BYTE_BOUNDARY /\
  size (mem demo_one (65600 - sizeof_header)) mod BYTE_BOUNDARY = 0 /\
  heap_head demo_one + sizeof_free_list + sizeof_header <= 65600 /\
  65600 + size (mem demo_one (65600 - sizeof_header)) + sizeof_header
  <= heap_head demo_one + heap_size demo_one /\
  (65600 - heap_head demo_one) mod BYTE_BOUNDARY = 0 /\
  (heap_head demo_one mod BYTE_BOUNDARY = 0 -> 65600 mod BYTE_BOUNDARY = 0).
Proof.
  apply (mymalloc_returns_block demo_state (demo_os []) 2 10 65600
           demo_one (demo_os [])).
  - apply demo_reachable.
  - lia.
  - vm_compute. reflexivity.
  - discriminate.
  - vm_compute. reflexivity.
Defined.

(** ** The two steps of a release *)

(** X13: the scan of [insert_free_space] stops at a node that has a
    successor.  In a reachable state below 2^32 bytes, when the header
    of a block in use is inserted and does not become the list head,
    the node that the scan returns lies below the header and its
    successor lies above it; the successor is not null, so the link of
    the freed block is written and the marker is gone from it, and the
    block is never appended behind the last node of the list. *)
Theorem insert_scan_between
  (st : state) (o : os) (a : Z) (fuel : nat) (t : Z) :
  reachable st o -> brk o < heap_head st + 2 ^ 32 ->
  next (mem st a) = used_head st ->
  (a <? head st) = false ->
  insert_scan fuel (head st) a st = Some t ->
  t < a < next (mem st t).
Proof.
  intros Hr Hlim Ha Hhead Hscan.
  destruct (reachable_inv _ _ Hr Hlim) as (bs & H & Hm & Hb).
  apply Hm, used_addrs_in in Ha. destruct Ha as (l1 & s & l2 & -> & ->).
  destruct (insert_free_space_ok st l1 s l2 H Hm)
    as (st2 & bs2 & _ & _ & _ & _ & _ & _ & _ & _ & _ & Hbetween).
  exact (Hbetween Hhead fuel t Hscan).
Qed.

Lemma insert_scan_between_witness :
  65584 < 65616 < next (mem demo_freed 65584).
Proof.
  apply (insert_scan_between demo_freed (demo_os []) 65616 2 65584).
  - apply demo_freed_reachable.
  - vm_compute. reflexivity.
  - vm_compute. reflexivity.
  - vm_compute. reflexivity.
  - vm_compute. reflexivity.
Defined.

(** X14: [coalescing] on a well-formed heap.  Called on a free block,
    it merges the block with the block behind it when that one is free,
    and changes nothing otherwise: the heap is well-formed afterwards
    with the blocks that [merge_next] gives, the sizes of the two blocks
    and one header added up without a wrap; the markers stay where the
    used blocks are, and the list head, the globals and every header
    other than that of the block are as they were. *)
Theorem coalescing_merges
  (st : state) (la : list block) (s1 : Z) (lb : list block) :
  heap_ok st (la ++ mkBlock s1 true :: lb) ->
  marks_ok st (la ++ mkBlock s1 true :: lb) ->
  heap_ok (coalescing (end_addr (first_block st) la) st)
          (la ++ merge_next s1 lb) /\
  marks_ok (coalescing (end_addr (first_block st) la) st)
           (la ++ merge_next s1 lb) /\
  all_blocks (coalescing (end_addr (first_block st) la) st)
  = walk_of (first_block st) (la ++ merge_next s1 lb) /\
  head (coalescing (end_addr (first_block st) la) st) = head st /\
  same_globals st (coalescing (end_addr (first_block st) la) st) /\
  forall x, x <> end_addr (first_block st) la ->
            mem (coalescing (end_addr (first_block st) la) st) x = mem st x.
Proof.
  intros H Hm.
  destruct (coalescing_ok st la s1 lb H Hm) as (s1' & lb' & H' & Hm' & _ & E).
  rewrite <- E.
  pose proof (coalescing_same_globals (end_addr (first_block st) la) st) as G.
  split; [exact H'|]. split; [exact Hm'|].
  split; [rewrite (all_blocks_ok _ _ H'), (same_globals_first_block _ _ G);
          reflexivity|].
  split; [apply coalescing_fields|]. split; [exact G|].
  intros x Hx. now apply coalescing_mem_other.
Qed.

Lemma demo_spliced_ok :
  heap_ok demo_spliced [mkBlock 16 true; mkBlock 4000 true] /\
  marks_ok demo_spliced [mkBlock 16 true; mkBlock 4000 true].
Proof.
  assert (Hone : reachable demo_one (demo_os [])).
  { apply (reach_step demo_state (demo_os [])).
    - apply demo_reachable.
    - apply (step_mymalloc _ _ 2%nat 16 65600). { lia. } reflexivity. }
  destruct (reachable_blocks demo_one (demo_os [])
              [mkBlock 16 false; mkBlock 4000 true] Hone)
    as ((_ & Hm & _) & _); try (vm_compute; reflexivity).
  split.
  - constructor; cbn [repr bsize bfree first_free end_addr ends_free];
      repeat split;
      solve [vm_compute; reflexivity | vm_compute; discriminate].
  - intros x Hx. exfalso. revert Hx.
    change (next (mem demo_spliced x))
      with (next (store 65584 (mkHeader 16 65616) (mem demo_one) x)).
    change (used_head demo_spliced) with (used_head demo_one).
    unfold store. destruct (x =? 65584) eqn:E.
    + vm_compute. discriminate.
    + intros Hx. apply Hm in Hx. apply Z.eqb_neq in E.
      destruct Hx as [Hx|[]]. apply E. rewrite <- Hx. reflexivity.
Qed.

Lemma coalescing_merges_witness :
  heap_ok (coalescing (end_addr (first_block demo_spliced) []) demo_spliced)
          ([] ++ merge_next 16 [mkBlock 4000 true]) /\
  marks_ok (coalescing (end_addr (first_block demo_spliced) []) demo_spliced)
           ([] ++ merge_next 16 [mkBlock 4000 true]) /\
  all_blocks (coalescing (end_addr (first_block demo_spliced) []) demo_spliced)
  = walk_of (first_block demo_spliced)
            ([] ++ merge_next 16 [mkBlock 4000 true]) /\
  head (coalescing (end_addr (first_block demo_spliced) []) demo_spliced)
  = head demo_spliced /\
  same_globals demo_spliced
    (coalescing (end_addr (first_block demo_spliced) []) demo_spliced) /\
  forall x, x <> end_addr (first_block demo_spliced) [] ->
            mem (coalescing (end_addr (first_block demo_spliced) [])
                   demo_spliced) x
            = mem demo_spliced x.
Proof.
  apply (coalescing_merges demo_spliced [] 16 [mkBlock 4000 true]);
    apply demo_spliced_ok.
Defined.
